(** * sgvc: single-file version control -- a shallow embedding of sgvc.go

    The development follows the layout of the Go source:
    - [Go]: the pieces of the Go standard library that sgvc.go calls
      (strings.Split, strconv.Atoi, strconv.ParseUint, the %0*d and %x verbs
      of fmt, crc32.ChecksumIEEE, bufio.Scanner with ScanLines,
      slices.SortFunc, strings.Compare), each written out as a function;
    - [Sgvc]: the commit record, its serialization, the index with its
      methods (loadCommits, currVersion, filter, filePath, extract, commit,
      treeOfCommits), treePrint, and main with its commands (-list,
      -commits, -tree, -add, -cat, -diff).

    time.Time with its RFC3339 layout and strconv.Quote are taken as
    parameters of the section. *)

From Stdlib Require Import ZArith String Ascii Strings.Byte List Lia Bool.
From Stdlib Require Import Numbers.DecimalString Numbers.DecimalN.
From Stdlib Require OrderedTypeEx.
From stdpp Require Import gmap strings list sorting.

Local Open Scope Z_scope.
#[local] Set Warnings "-clear-no-such-hyp".


(** ** The Go runtime pieces used by sgvc.go *)
Module Go.

(** Go's [int] on a 64-bit platform: two's complement wrap-around. *)
Definition int_min : Z := - 2 ^ 63.
Definition int_max : Z := 2 ^ 63 - 1.
Definition wrap64 (z : Z) : Z := (z + 2 ^ 63) mod 2 ^ 64 - 2 ^ 63.
Definition is_int (z : Z) : Prop := int_min <= z <= int_max.

Definition uint32_max : Z := 2 ^ 32 - 1.

Definition tab : ascii := "009"%char.
Definition lf : ascii := "010"%char.
Definition cr : ascii := "013"%char.

(** strings.Split(s, sep) for a one-byte separator: the fields between the
    separators, always at least one field. *)
Fixpoint strings_Split (sep : ascii) (s : string) : list string :=
  match s with
  | EmptyString => [EmptyString]
  | String c s' =>
      if Ascii.eqb c sep then EmptyString :: strings_Split sep s'
      else match strings_Split sep s' with
           | f :: fs => String c f :: fs
           | [] => [String c EmptyString]
           end
  end.

(** strings.Join(fields, sep) for a one-byte separator. *)
Fixpoint strings_Join (sep : ascii) (fs : list string) : string :=
  match fs with
  | [] => EmptyString
  | [f] => f
  | f :: fs' => String.append f (String sep (strings_Join sep fs'))
  end.

(** *** strconv *)

Definition digit_val (c : ascii) : option Z :=
  let n := Z.of_N (N_of_ascii c) in
  if (48 <=? n) && (n <=? 57) then Some (n - 48) else None.

Fixpoint parse_digits (s : string) (acc : Z) : option Z :=
  match s with
  | EmptyString => Some acc
  | String c s' =>
      match digit_val c with
      | Some d => parse_digits s' (10 * acc + d)
      | None => None
      end
  end.

(** One or more decimal digits, nothing else (base 10: no underscores, no
    prefix). *)
Definition parse_decimal (s : string) : option Z :=
  match s with
  | EmptyString => None
  | _ => parse_digits s 0
  end.

(** strconv.ParseUint(s, 10, bitSize): no sign is accepted, and a value
    above 2^bitSize - 1 is a range error. *)
Definition strconv_ParseUint (s : string) (bitSize : Z) : option Z :=
  match parse_decimal s with
  | Some n => if n <=? 2 ^ bitSize - 1 then Some n else None
  | None => None
  end.

(** strconv.Atoi(s): an optional sign, then decimal digits; a value outside
    of [int] is a range error. *)
Definition strconv_Atoi (s : string) : option Z :=
  match s with
  | String "-"%char r =>
      match parse_decimal r with
      | Some n => if n <=? 2 ^ 63 then Some (- n) else None
      | None => None
      end
  | String "+"%char r =>
      match parse_decimal r with
      | Some n => if n <? 2 ^ 63 then Some n else None
      | None => None
      end
  | _ =>
      match parse_decimal s with
      | Some n => if n <? 2 ^ 63 then Some n else None
      | None => None
      end
  end.

(** *** fmt *)

(** %d of a natural number. *)
Definition fmt_udec (n : Z) : string :=
  NilZero.string_of_uint (N.to_uint (Z.to_N n)).

Fixpoint zeros (n : nat) : string :=
  match n with
  | O => EmptyString
  | S n' => String "0"%char (zeros n')
  end.

Definition pad_zeros (width : nat) (s : string) : string :=
  String.append (zeros (width - String.length s)) s.

(** %0*d with width [w]: the sign counts in the width, the zeros go between
    the sign and the digits. *)
Definition fmt_0d (w : nat) (v : Z) : string :=
  if v <? 0 then String "-"%char (pad_zeros (w - 1) (fmt_udec (- v)))
  else pad_zeros w (fmt_udec v).

Definition hex_digit (n : N) : ascii :=
  match n with
  | 0%N => "0" | 1%N => "1" | 2%N => "2" | 3%N => "3" | 4%N => "4"
  | 5%N => "5" | 6%N => "6" | 7%N => "7" | 8%N => "8" | 9%N => "9"
  | 10%N => "a" | 11%N => "b" | 12%N => "c" | 13%N => "d" | 14%N => "e"
  | _ => "f"
  end%char.

(** %x of a byte slice: two lower-case hex digits per byte. *)
Fixpoint fmt_x (s : string) : string :=
  match s with
  | EmptyString => EmptyString
  | String c r =>
      let n := N_of_ascii c in
      String (hex_digit (n / 16)) (String (hex_digit (n mod 16)) (fmt_x r))
  end.

(** *** crypto/sha1 *)

(** The digest of the empty input, in hex. [sha1.New().Sum(b)] appends the
    digest of what was written to the hash (here: nothing) to [b]. *)
Definition sha1_empty_hex : string := "da39a3ee5e6b4b0d3255bfef95601890afd80709".

(** *** hash/crc32 *)

Definition crc32_poly : Z := 0xEDB88320.

Definition crc32_shift (c : Z) : Z :=
  if Z.testbit c 0 then Z.lxor (Z.shiftr c 1) crc32_poly else Z.shiftr c 1.

Definition crc32_update (crc : Z) (b : byte) : Z :=
  let c := Z.lxor crc (Z.of_N (Byte.to_N b)) in
  Nat.iter 8 crc32_shift c.

Definition crc32_ChecksumIEEE (data : list byte) : Z :=
  Z.lxor (fold_left crc32_update data 0xFFFFFFFF) 0xFFFFFFFF.

(** *** bufio.Scanner with the default split function ScanLines *)

Definition MaxScanTokenSize : Z := 64 * 1024.

(** dropCR: one trailing carriage return is removed from a line. *)
Fixpoint dropCR (s : string) : string :=
  match s with
  | EmptyString => EmptyString
  | String c EmptyString => if Ascii.eqb c cr then EmptyString else s
  | String c s' => String c (dropCR s')
  end.

(** The raw lines of a file: the segments between line feeds; what follows
    the last line feed is a line only when it is not empty. *)
Fixpoint raw_lines (s : string) : list string :=
  match s with
  | EmptyString => []
  | String c s' =>
      if Ascii.eqb c lf then EmptyString :: raw_lines s'
      else match raw_lines s' with
           | l :: ls => String c l :: ls
           | [] => [String c EmptyString]
           end
  end.

(** A line that does not fit the scanner's buffer stops the scan with
    ErrTooLong. *)
Definition too_long (raw : string) : bool :=
  MaxScanTokenSize <=? Z.of_nat (String.length raw).

(** *** slices.SortFunc *)

Section Sort.
Context {A : Type} (cmp : A -> A -> Z).

(** The inner loop of insertionSortCmpFunc: [x] travels to the left as
    long as it compares below its left neighbour. [rev_left] is the part
    to the left of [x], nearest element first. *)
Fixpoint sink (x : A) (rev_left : list A) : list A :=
  match rev_left with
  | [] => [x]
  | y :: ys => if cmp x y <? 0 then y :: sink x ys else x :: rev_left
  end.

(** slices.SortFunc. For up to 12 elements the library runs this
    insertion sort; for more it runs pattern-defeating quicksort, which
    returns the same slice whenever [cmp] is a strict weak order under
    which no two elements tie. On a longer slice with elements that tie,
    or with a [cmp] that is no order, the library may arrange the slice in
    another way than this definition does. The theorems that speak of the
    order of the index do so for slices without ties, where the sorted
    arrangement is unique, or state only that the index is a sorted
    permutation of the log, which every sorting algorithm gives.
    The state is the sorted prefix, reversed. *)
Definition slices_SortFunc (l : list A) : list A :=
  rev (fold_left (fun sorted_rev x => sink x sorted_rev) l []).
End Sort.

(** Whether a byte occurs in a string, how often, and whether a string ends
    in it. *)
Fixpoint has_char (c : ascii) (s : string) : bool :=
  match s with
  | EmptyString => false
  | String a r => Ascii.eqb a c || has_char c r
  end.

Fixpoint count_char (c : ascii) (s : string) : nat :=
  match s with
  | EmptyString => O
  | String a r => (if Ascii.eqb a c then 1 else 0) + count_char c r
  end.

Fixpoint ends_with (c : ascii) (s : string) : bool :=
  match s with
  | EmptyString => false
  | String a EmptyString => Ascii.eqb a c
  | String a r => ends_with c r
  end.

(** A file made of these lines, each ended by a line feed. *)
Fixpoint unlines (ls : list string) : string :=
  match ls with
  | [] => EmptyString
  | l :: rest => String.append l (String lf (unlines rest))
  end.

(** The value of a hex digit, to read the %x verb back. *)
Definition hex_val (c : ascii) : N :=
  let n := N_of_ascii c in
  if (48 <=? n)%N && (n <=? 57)%N then (n - 48)%N
  else if (97 <=? n)%N && (n <=? 102)%N then (n - 87)%N
  else 0%N.

(** strings.Compare: byte-wise lexicographic order, as -1, 0, +1. *)
Definition strings_Compare (a b : string) : Z :=
  match String.compare a b with
  | Lt => -1
  | Eq => 0
  | Gt => 1
  end.

(** The order of strings that [<] and strings.Compare decide. *)
Definition string_le (a b : string) : Prop := String.compare a b <> Gt.
Definition string_lt (a b : string) : Prop := String.compare a b = Lt.

(** strings.Repeat(s, count). *)
Fixpoint strings_Repeat (s : string) (count : nat) : string :=
  match count with
  | O => EmptyString
  | S n => String.append s (strings_Repeat s n)
  end.

(** slices.Sort on strings. For up to 12 elements the library runs the
    insertion sort with [<] as the comparison; for more it runs
    pattern-defeating quicksort, which returns the same slice when no two
    elements are equal (the keys of a map are not). *)
Definition slices_Sort (l : list string) : list string :=
  slices_SortFunc strings_Compare l.

End Go.

(** ** sgvc.go *)
Module Sgvc.
Import Go.

(** maxVersionLength is used with fmt %*d to print version numbers. *)
Definition maxVersionLength : nat := 4.

(** Addresses of commit objects. The index holds a slice of pointers to
    distinct objects, one allocated per log line; the model keeps the
    objects themselves in the list [commits] and uses the position in that
    list as the address, so [descs] holds positions. *)
Abbreviation ptr := nat.

(** The key of the lookup table of treeOfCommits: path and version. *)
Abbreviation sig := (string * Z)%type.

Inductive error :=
  | MalformedLine
  | MalformedTimestamp
  | MalformedVersion
  | MalformedParent
  | MalformedDataCrc
  | ErrTooLong
  | ReadFailed (name : string)
  | InvalidBaseVersion (basedOn : Z)
  | FailedToCommitContents
  | FailedToOpenIndex
  | FailedToCommitIndex
  | CannotFindVersion (version : Z) (path : string)
  | CorruptedFile (expected got : Z).

Inductive result (A : Type) :=
  | Ok (a : A)
  | Err (e : error).
Arguments Ok {A} a.
Arguments Err {A} e.

(** The durable state: the index file (one serialized commit per line) and
    the other files of the work directory, keyed by their file path. *)
Record disk := mkDisk {
  index_file : string;
  store : gmap string (list byte)
}.

(** What an execution of commit cannot decide by itself: the result of
    reading the working file, the clock, and which system call fails.
    A failed os.WriteFile leaves the target untouched ([None]) or holding
    some bytes; a failed Fprintln has appended a prefix of its line. *)
Inductive io_fault :=
  | NoFault
  | WriteFileFails (residue : option (list byte))
  | OpenIndexFails
  | FprintlnFails (written : nat).

(** The system calls of commit that touch the work directory, in the order
    they were issued. *)
Inductive event :=
  | EvWriteFile (name : string) (data : list byte) (ok : bool)
  | EvOpenIndex (ok : bool)
  | EvAppendIndex (text : string) (ok : bool).

Section WithRuntime.

Context {Time : Type}.
(** [t.Format(time.RFC3339)], [time.Parse(time.RFC3339, s)], the zero
    [time.Time], and [strconv.Quote]. *)
Context (time_Format : Time -> string).
Context (time_Parse : string -> option Time).
Context (time_zero : Time).
Context (strconv_Quote : string -> string).

(** commit represents a new version of a file. *)
Record commit := mkCommit {
  path : string;       (* the absolute file path *)
  when : Time;         (* version time *)
  version : Z;         (* version id *)
  basedOn : Z;         (* parent version id (optional) *)
  pathSig : string;    (* path signature to identify in file store *)
  dataCrc : Z;         (* contents crc for verification *)
  changes : string;    (* human readable summary of contents *)
  descs : list ptr     (* used for the tree output, not serialized *)
}.

Definition fields (cmt : commit) : list string :=
  [ path cmt; time_Format (when cmt); fmt_0d maxVersionLength (version cmt);
    fmt_0d maxVersionLength (basedOn cmt); pathSig cmt; fmt_udec (dataCrc cmt);
    changes cmt ].

(** serialize the commit to a string: the seven fields with a tab between
    them. *)
Definition serialize (cmt : commit) : string :=
  strings_Join tab (fields cmt).

(** deserializeCommit from a string. *)
Definition deserializeCommit (s : string) : result commit :=
  match strings_Split tab s with
  | [p0; p1; p2; p3; p4; p5; p6] =>
      match time_Parse p1 with
      | None => Err MalformedTimestamp
      | Some cwhen =>
          match strconv_Atoi p2 with
          | None => Err MalformedVersion
          | Some cversion =>
              match strconv_Atoi p3 with
              | None => Err MalformedParent
              | Some cbasedOn =>
                  match strconv_ParseUint p5 32 with
                  | None => Err MalformedDataCrc
                  | Some crc =>
                      Ok {| path := p0; when := cwhen; version := cversion;
                            basedOn := cbasedOn; pathSig := p4; dataCrc := crc;
                            changes := p6; descs := [] |}
                  end
              end
          end
      end
  | _ => Err MalformedLine
  end.

(** index represents a file store and an index file for versions. *)
Record index := mkIndex {
  workDir : string;
  commitsFile : string;
  commits : list commit
}.

(** What loading the index ends in: the index, the process killed by
    log.Fatalf at line [nlines], or the scanner's error returned. *)
Inductive load_result :=
  | Loaded (cs : list commit)
  | Fatal (nlines : nat) (e : error)
  | LoadErr (e : error).

(** The comparison passed to slices.SortFunc: ascending by path and
    descending by version. *)
Definition cmpCommits (a b : commit) : Z :=
  let c := strings_Compare (path a) (path b) in
  if negb (c =? 0) then c else wrap64 (version b - version a).

(** The order the comparison stands for: [a] may come before [b]. *)
Definition inOrder (a b : commit) : Prop :=
  String.compare (path a) (path b) = Lt \/
  (path a = path b /\ version b <= version a).

(** The scanner loop of loadCommits. *)
Fixpoint scanCommits (raws : list string) (nlines : nat) (acc : list commit)
  : load_result :=
  match raws with
  | [] => Loaded acc
  | raw :: rest =>
      if too_long raw then LoadErr ErrTooLong
      else
        let nlines := S nlines in
        match deserializeCommit (dropCR raw) with
        | Err e => Fatal nlines e
        | Ok cmt => scanCommits rest nlines (acc ++ [cmt])
        end
  end.

(** loadCommits deserializes the index commits. *)
Definition loadCommits (d : disk) : load_result :=
  match scanCommits (raw_lines (index_file d)) 0 [] with
  | Loaded cs => Loaded (slices_SortFunc cmpCommits cs)
  | r => r
  end.

(** currVersion returns the latest version of a file. *)
Definition currVersion (idx : index) (p : string) : Z :=
  fold_left
    (fun v cmt => if String.eqb (path cmt) p && (version cmt >? v) then version cmt else v)
    (commits idx) 0.

(** The loop of filter, over the addresses of the slice. *)
Fixpoint filterFrom (p : string) (i : ptr) (cs : list commit) (acc : list ptr)
  : list ptr :=
  match cs with
  | [] => acc
  | cmt :: rest =>
      filterFrom p (S i) rest (if String.eqb (path cmt) p then acc ++ [i] else acc)
  end.

(** filter returns the commits for this file, all commits if path is the
    empty string. The result is a slice of pointers. *)
Definition filter (idx : index) (p : string) : list ptr :=
  if String.eqb p EmptyString then seq 0 (length (commits idx))
  else filterFrom p 0%nat (commits idx) [].

(** The commit objects a slice of pointers refers to. *)
Definition derefs (idx : index) (ps : list ptr) : list commit :=
  omap (fun p => commits idx !! p) ps.

(** filePath returns the file path with the contents of the commit. For
    the work directory that getIndex builds and a path signature as commit
    writes it (hex digits) the file name has no separator and no dot, so
    filepath.Join only puts one separator in. filepath.Join also cleans its
    result: for a path signature with a slash or a dot element, which only
    an index file written by other means can hold, the path of the code is
    the cleaned one and not this one. *)
Definition fileName (cmt : commit) : string :=
  String.append (pathSig cmt)
    (String "-"%char (fmt_0d maxVersionLength (version cmt))).

Definition filePath (idx : index) (cmt : commit) : string :=
  String.append (workDir idx) (String "/"%char (fileName cmt)).

(** The search loop of extract: the first commit of the slice with this
    path and version. *)
Fixpoint findCommit (cs : list commit) (p : string) (v : Z) : option commit :=
  match cs with
  | [] => None
  | c :: rest =>
      if String.eqb (path c) p && (version c =? v) then Some c
      else findCommit rest p v
  end.

(** extract returns the contents of the version for the file. *)
Definition extract (idx : index) (d : disk) (p : string) (v : Z)
  : result (list byte) :=
  match findCommit (commits idx) p v with
  | None => Err (CannotFindVersion v p)
  | Some cmt =>
      match store d !! filePath idx cmt with
      | None => Err (ReadFailed (filePath idx cmt))
      | Some data =>
          let crc := crc32_ChecksumIEEE data in
          if negb (crc =? dataCrc cmt) then Err (CorruptedFile (dataCrc cmt) crc)
          else Ok data
      end
  end.

(** The path signature: [fmt.Sprintf("%x", sha1.New().Sum([]byte(path)))].
    Sum appends the digest of the (empty) hash state to its argument. *)
Definition pathSignature (p : string) : string :=
  String.append (fmt_x p) sha1_empty_hex.

Record commit_env := mkEnv {
  working_file : option (list byte);
  now : Time;
  fault : io_fault
}.

(** The record that commit builds. *)
Definition newCommit (idx : index) (env : commit_env) (p : string)
    (base : Z) (msg : string) (data : list byte) : commit :=
  {| path := p; when := now env;
     version := wrap64 (currVersion idx p + 1);
     basedOn := base;
     pathSig := pathSignature p;
     dataCrc := crc32_ChecksumIEEE data;
     changes := strconv_Quote msg;
     descs := [] |}.

(** What Fprintln writes for a commit. *)
Definition logLine (cmt : commit) : string :=
  String.append (serialize cmt) (String lf EmptyString).

(** commit writes a new commit to the index. The result is the error
    returned (if any), the disk afterwards, and the system calls issued. *)
Definition index_commit (idx : index) (d : disk) (env : commit_env)
    (p : string) (base : Z) (msg : string)
  : option error * disk * list event :=
  match working_file env with
  | None => (Some (ReadFailed p), d, [])
  | Some data =>
      let currV := currVersion idx p in
      if negb (base =? 0) && (base >? currV) then
        (Some (InvalidBaseVersion base), d, [])
      else
        let cmt := newCommit idx env p base msg data in
        (* first write the file contents *)
        let fpath := filePath idx cmt in
        match fault env with
        | WriteFileFails residue =>
            let st := match residue with
                      | None => store d
                      | Some bs => <[fpath := bs]> (store d)
                      end in
            (Some FailedToCommitContents,
             {| index_file := index_file d; store := st |},
             [EvWriteFile fpath data false])
        | f =>
            let d1 := {| index_file := index_file d;
                         store := <[fpath := data]> (store d) |} in
            (* then write the index entry *)
            match f with
            | OpenIndexFails =>
                (Some FailedToOpenIndex, d1,
                 [EvWriteFile fpath data true; EvOpenIndex false])
            | FprintlnFails n =>
                let part := String.substring 0 n (logLine cmt) in
                (Some FailedToCommitIndex,
                 {| index_file := String.append (index_file d1) part;
                    store := store d1 |},
                 [EvWriteFile fpath data true; EvOpenIndex true;
                  EvAppendIndex part false])
            | _ =>
                (None,
                 {| index_file := String.append (index_file d1) (logLine cmt);
                    store := store d1 |},
                 [EvWriteFile fpath data true; EvOpenIndex true;
                  EvAppendIndex (logLine cmt) true])
            end
        end
  end.

Definition sigOf (cmt : commit) : sig := (path cmt, version cmt).

(** What treeOfCommits ends in: the dummy node with the commit objects as
    they are afterwards, or a nil pointer dereference. *)
Inductive tree_result :=
  | Tree (dummy : commit) (heap : list commit)
  | NilDereference.

Definition addDesc (cmt : commit) (child : ptr) : commit :=
  {| path := path cmt; when := when cmt; version := version cmt;
     basedOn := basedOn cmt; pathSig := pathSig cmt; dataCrc := dataCrc cmt;
     changes := changes cmt; descs := descs cmt ++ [child] |}.

(** The first loop of treeOfCommits: [m[sig{cmt.path, cmt.version}] = cmt]. *)
Definition buildMap (heap : list commit) (ps : list ptr) : gmap sig ptr :=
  fold_left
    (fun m p => match heap !! p with
                | Some cmt => <[sigOf cmt := p]> m
                | None => m
                end)
    ps ∅.

(** One round of the second loop, on the commit objects and the dummy
    node; [None] once a nil pointer was dereferenced. *)
Definition treeStep (m : gmap sig ptr) (st : option (list commit * commit))
    (p : ptr) : option (list commit * commit) :=
  match st with
  | None => None
  | Some (heap, dummy) =>
      match heap !! p with
      | None => None
      | Some cmt =>
          if basedOn cmt >? 0 then
            match m !! (path cmt, basedOn cmt) with
            | None => None
            | Some q =>
                match heap !! q with
                | None => None
                | Some c => Some (<[q := addDesc c p]> heap, dummy)
                end
            end
          else Some (heap, addDesc dummy p)
      end
  end.

Definition zeroCommit : commit :=
  {| path := EmptyString; when := time_zero; version := 0; basedOn := 0;
     pathSig := EmptyString; dataCrc := 0; changes := EmptyString; descs := [] |}.

(** treeOfCommits organizes the index commits as a tree using the base
    field. It returns a dummy node where every child represents the tree of
    changes for a file. *)
Definition treeOfCommits (idx : index) (p : string) : tree_result :=
  let ps := filter idx p in
  let m := buildMap (commits idx) ps in
  match fold_left (treeStep m) ps (Some (commits idx, zeroCommit)) with
  | Some (heap, dummy) => Tree dummy heap
  | None => NilDereference
  end.

(** Reading the forest off the result: a commit with another list of
    children, which commits the second loop hangs under the dummy node, and
    which it hangs under the object at address [q]. *)
Definition setDescs (cmt : commit) (ds : list ptr) : commit :=
  {| path := path cmt; when := when cmt; version := version cmt;
     basedOn := basedOn cmt; pathSig := pathSig cmt; dataCrc := dataCrc cmt;
     changes := changes cmt; descs := ds |}.

Definition isRoot (heap : list commit) (i : ptr) : bool :=
  match heap !! i with
  | Some cmt => negb (basedOn cmt >? 0)
  | None => false
  end.

Definition isChildOf (heap : list commit) (m : gmap sig ptr) (q i : ptr) : bool :=
  match heap !! i with
  | Some cmt => (basedOn cmt >? 0) && bool_decide (m !! (path cmt, basedOn cmt) = Some q)
  | None => false
  end.

(** getIndex prepares the work directory and initializes the index; main
    exits when it fails. [Exited] covers both ways out: log.Fatalf inside
    loadCommits and log.Fatal in main. *)
Inductive start_result :=
  | Started (idx : index)
  | Exited (e : error).

Definition getIndex (cacheDir : string) (d : disk) : start_result :=
  let wd := String.append cacheDir "/sgvc" in
  match loadCommits d with
  | Loaded cs =>
      Started {| workDir := wd; commitsFile := String.append wd "/index";
                 commits := cs |}
  | Fatal _ e => Exited e
  | LoadErr e => Exited e
  end.

(** main with -add: a fresh index, then commit. *)
Definition mainAdd (cacheDir : string) (d : disk) (env : commit_env)
    (cpath : string) (baseVersion : Z) (commitMessage : string)
  : option error * disk * list event :=
  match getIndex cacheDir d with
  | Exited e => (Some e, d, [])
  | Started idx => index_commit idx d env cpath baseVersion commitMessage
  end.

(** main with -cat: a fresh index, then extract. *)
Definition mainCat (cacheDir : string) (d : disk) (cpath : string)
    (catVersion : Z) : result (list byte) :=
  match getIndex cacheDir d with
  | Exited e => Err e
  | Started idx => extract idx d cpath catVersion
  end.

(** *** Histories of commits

    A request is what one run of [sgvc -add] is given. *)
Record request := mkRequest {
  rq_env : commit_env;
  rq_path : string;
  rq_base : Z;
  rq_msg : string
}.

(** Text that can stand in a field of a log line: no tab, no line feed. *)
Definition plainText (s : string) : bool :=
  negb (has_char tab s) && negb (has_char lf s).

(** A request whose log line reads back as the commit it was written for:
    the path is plain text; so are the timestamp, which parses, and the
    quoted message, which has no carriage return either (both hold of
    every output of time.Format and of strconv.Quote, for years up to
    9999); the base version is an [int]; and the line fits the scanner's
    buffer. *)
Definition plain (idx : index) (rq : request) : bool :=
  let env := rq_env rq in
  let stamp := time_Format (now env) in
  let quoted := strconv_Quote (rq_msg rq) in
  plainText (rq_path rq)
  && plainText stamp
  && match time_Parse stamp with Some _ => true | None => false end
  && plainText quoted && negb (has_char cr quoted)
  && (int_min <=? rq_base rq) && (rq_base rq <=? int_max)
  && match working_file env with
     | Some data =>
         negb (too_long (serialize
                 (newCommit idx env (rq_path rq) (rq_base rq) (rq_msg rq) data)))
     | None => true
     end.

(** [committed cacheDir d h]: the work directory [d] is what a fresh one
    (empty index file, any files in the store) has become by successful
    runs of [sgvc -add] on plain requests; [h] lists, in the order of the
    runs, the commit that each run wrote and the bytes it committed. *)
Inductive committed (cacheDir : string) : disk -> list (commit * list byte) -> Prop :=
  | committed_fresh st :
      committed cacheDir {| index_file := EmptyString; store := st |} []
  | committed_add d h rq idx data d' tr :
      committed cacheDir d h ->
      getIndex cacheDir d = Started idx ->
      plain idx rq = true ->
      working_file (rq_env rq) = Some data ->
      mainAdd cacheDir d (rq_env rq) (rq_path rq) (rq_base rq) (rq_msg rq)
        = (None, d', tr) ->
      committed cacheDir d'
        (h ++ [(newCommit idx (rq_env rq) (rq_path rq) (rq_base rq) (rq_msg rq) data,
                data)]).

(** What a log line keeps of a commit: all but the time below the second
    and the children. *)
Definition logged (cmt : commit)
  : string * Z * Z * string * Z * string :=
  (path cmt, version cmt, basedOn cmt, pathSig cmt, dataCrc cmt, changes cmt).

(** The versions of a path among some commits, in their order, and the
    greatest of them (0 when there is none). *)
Definition versionsOf (p : string) (cs : list commit) : list Z :=
  map version (List.filter (fun c => String.eqb (path c) p) cs).

Definition latest (p : string) (cs : list commit) : Z :=
  fold_right Z.max 0 (versionsOf p cs).

(** The versions 1, 2, ..., n. *)
Definition upTo (n : nat) : list Z := map Z.of_nat (seq 1 n).

(** The file of the store that holds the content of a commit, in the work
    directory under [cacheDir]. *)
Definition storeKey (cacheDir : string) (c : commit) : string :=
  String.append (String.append cacheDir "/sgvc") (String "/"%char (fileName c)).

(** A work directory that agrees with a history: the index file is made of
    whole lines that read back as the commits of the history, the store
    holds the bytes of each of them under its file name, and the versions
    of each path count up from 1. *)
Definition consistent (cacheDir : string) (d : disk)
    (h : list (commit * list byte)) : Prop :=
  (exists ls recs,
     index_file d = unlines ls /\
     Forall (fun l => has_char lf l = false) ls /\
     scanCommits ls 0 [] = Loaded recs /\
     map logged recs = map logged (map fst h)) /\
  (forall c data, (c, data) ∈ h ->
     store d !! storeKey cacheDir c = Some data /\
     dataCrc c = crc32_ChecksumIEEE data /\
     pathSig c = pathSignature (path c) /\
     is_int (version c)) /\
  (forall p, versionsOf p (map fst h) = upTo (length (versionsOf p (map fst h)))).

(** The records of the log in the order of its lines, before the sort. *)
Definition logRecords (d : disk) : load_result :=
  scanCommits (raw_lines (index_file d)) 0 [].

(** *** Printing: -commits, -tree and -list

    Standard output is kept as the list of the texts written, one per call
    of Printf or Println. *)

(** What main prints for a commit with -commits, and treePrint after the
    indentation: path, time, version, base version and changes. *)
Definition commitLine (cmt : commit) : string :=
  String.append
    (strings_Join tab
       [ path cmt; time_Format (when cmt); fmt_0d maxVersionLength (version cmt);
         fmt_0d maxVersionLength (basedOn cmt); changes cmt ])
    (String lf EmptyString).

Definition tabs : string := strings_Repeat (String tab EmptyString) 128.

(** How a sequence of prints ended: all done, or a run-time panic that
    ended the process after what had been printed. [OutOfFuel] is the
    model's own: the descent was cut off. *)
Inductive print_status :=
  | Printed
  | Panicked
  | OutOfFuel.

(** A range loop over commit pointers whose body prints: the texts add up,
    and nothing follows a panic. *)
Definition printEach {A : Type} (body : ptr -> list A * print_status)
    (ps : list ptr) (acc : list A * print_status)
  : list A * print_status :=
  fold_left
    (fun acc q =>
       match acc with
       | (out, Printed) => let (o, st) := body q in (out ++ o, st)
       | _ => acc
       end)
    ps acc.

(** treePrint descends and prints the tree rooted at cmt. The slice
    expression [tabs[0:indend]] panics when [indend] is above the length of
    [tabs], before anything of the line is printed. [fuel] bounds the depth
    of the descent in the model. *)
Fixpoint treePrint (fuel : nat) (heap : list commit) (cmt : ptr) (indend : nat)
  : list string * print_status :=
  match fuel with
  | O => ([], OutOfFuel)
  | S fuel' =>
      match heap !! cmt with
      | None => ([], Panicked)
      | Some c =>
          if (String.length tabs <? indend)%nat then ([], Panicked)
          else
            printEach (fun dcmt => treePrint fuel' heap dcmt (S indend)) (descs c)
              ([String.append (String.substring 0 indend tabs) (commitLine c)],
               Printed)
      end
  end.

(** The descent stops at indentation 129 at the latest, so this much fuel
    is never used up. *)
Definition treeFuel : nat := 130.

(** Reading the output of treePrint: the calls of Printf in their order,
    each as its indentation and its commit, and the text that such a call
    writes. *)
Fixpoint treeVisit (fuel : nat) (heap : list commit) (cmt : ptr) (indend : nat)
  : list (nat * ptr) * print_status :=
  match fuel with
  | O => ([], OutOfFuel)
  | S fuel' =>
      match heap !! cmt with
      | None => ([], Panicked)
      | Some c =>
          if (String.length tabs <? indend)%nat then ([], Panicked)
          else
            printEach (fun dcmt => treeVisit fuel' heap dcmt (S indend)) (descs c)
              ([(indend, cmt)], Printed)
      end
  end.

Definition treeLine (heap : list commit) (v : nat * ptr) : string :=
  match heap !! snd v with
  | Some c => String.append (String.substring 0 (fst v) tabs) (commitLine c)
  | None => EmptyString
  end.

(** Reading the forest that treePrint walks, for a slice [ps] of commits
    and the relation [childOf q j] of a parent [q] and its child [j]: the
    steps from a parent to a child of the slice, and what a descent from
    the commit [i] at indentation [k] has printed when it is [L]: no
    commit twice, exactly the commits below [i], and each of them but [i]
    one level deeper than its parent. *)
Definition childIn (ps : list ptr) (childOf : ptr -> ptr -> bool) (q j : ptr)
  : Prop :=
  j ∈ ps /\ childOf q j = true.

Definition visited (ps : list ptr) (childOf : ptr -> ptr -> bool)
    (k : nat) (i : ptr) (L : list (nat * ptr)) : Prop :=
  NoDup (map snd L) /\
  (forall j, j ∈ map snd L <-> rtc (childIn ps childOf) i j) /\
  (forall k' j, (k', j) ∈ L ->
     (k', j) = (k, i) \/
     exists q k'', childOf q j = true /\ k' = S k'' /\ (k'', q) ∈ L).

(** Whether each commit of a list is a child of the one before it. *)
Fixpoint descends (heap : list commit) (chain : list ptr) : bool :=
  match chain with
  | a :: (b :: _) as rest =>
      match heap !! a with
      | Some c => bool_decide (b ∈ descs c) && descends heap rest
      | None => false
      end
  | _ => true
  end.

(** The map of -list, [m[cmt.path] = cmt.pathSig] over the index, and what
    [fmt.Println(path, tab, m[path])] writes: the operands with a space
    between them and a line feed. *)
Definition pathSigs (idx : index) : gmap string string :=
  fold_left (fun m cmt => <[path cmt := pathSig cmt]> m) (commits idx) ∅.

Definition listLine (m : gmap string string) (p : string) : string :=
  String.append p
    (String " " (String tab (String " "
       (String.append (default EmptyString (m !! p)) (String lf EmptyString))))).

(** *** main *)

(** The flags, as flag.Parse has set them, and the other arguments. *)
Record flags := mkFlags {
  printCommits : bool;
  printTree : bool;
  printList : bool;
  catVersion : Z;
  commitMessage : string;
  baseVersion : Z;
  diffVersions : bool;
  diffFrom : Z;
  diffTo : Z;
  args : list string
}.

(** What a run of main depends on besides the work directory:
    filepath.Abs, whether os.Stat of a path succeeds, what commit depends
    on (reading the working file, the clock, a failing system call), the
    order in which a range over the map of -list yields its keys, and
    whether the temporary files of diff can be written. *)
Record main_env := mkMainEnv {
  filepath_Abs : string -> option string;
  os_Stat : string -> bool;
  cenv : commit_env;
  range_keys : gmap string string -> list string;
  temp_files : bool
}.

(** The errors that main reports with log.Fatal and log.Fatalf. *)
Inductive fatal :=
  | FatalError (e : error)
  | ResolutionFailed
  | StatFailed (cpath : string)
  | DiffFromFailed (e : error)
  | DiffToFailed (e : error)
  | DiffFailed.

Inductive output :=
  | Nothing
  | Lines (texts : list string)
  | Data (data : list byte)
  | DiffRun (labelFrom : string) (from : list byte)
            (labelTo : string) (to : list byte).

(** How the process ends: usage() with exit status 2, log.Fatal with exit
    status 1, a run-time panic after some output, or exit status 0.
    [ExitOutOfFuel] is the model's own. *)
Inductive outcome :=
  | ExitUsage
  | ExitFatal (f : fatal)
  | ExitPanic (printed : list string)
  | Exit0 (out : output)
  | ExitOutOfFuel.

(** The block of main that resolves the file argument. *)
Definition resolvePath (env : main_env) (fl : flags) : fatal + string :=
  match args fl with
  | [arg0] =>
      match filepath_Abs env arg0 with
      | None => inl ResolutionFailed
      | Some cpath =>
          if os_Stat env cpath then inr cpath else inl (StatFailed cpath)
      end
  | _ => inr EmptyString
  end.

(** main with -list. *)
Definition mainList (idx : index) (env : main_env) : list string :=
  let m := pathSigs idx in
  let s := slices_Sort (range_keys env m) in
  map (listLine m) s.

(** main with -commits. *)
Definition mainCommits (idx : index) (cpath : string) : list string :=
  map commitLine (derefs idx (filter idx cpath)).

(** main with -tree. *)
Definition mainTree (idx : index) (cpath : string) : outcome :=
  match treeOfCommits idx cpath with
  | NilDereference => ExitPanic []
  | Tree dummy heap =>
      match printEach (fun cmt => treePrint treeFuel heap cmt 0) (descs dummy)
              ([], Printed) with
      | (out, Printed) => Exit0 (Lines out)
      | (out, Panicked) => ExitPanic out
      | (_, OutOfFuel) => ExitOutOfFuel
      end
  end.

(** The closure [load] of main with -diff: a version above 0 is extracted,
    any other stands for the working file. *)
Definition load (idx : index) (d : disk) (env : main_env) (cpath : string)
    (version : Z) : string * result (list byte) :=
  if version >? 0 then
    (String.append cpath (String.append " @" (fmt_0d maxVersionLength version)),
     extract idx d cpath version)
  else
    (cpath,
     match working_file (cenv env) with
     | Some data => Ok data
     | None => Err (ReadFailed cpath)
     end).

(** main with -diff. diff(1) is run on two temporary files with the
    contents; its exit status is ignored. *)
Definition mainDiff (idx : index) (d : disk) (env : main_env) (fl : flags)
    (cpath : string) : outcome :=
  let (labelFrom, rfrom) := load idx d env cpath (diffFrom fl) in
  match rfrom with
  | Err e => ExitFatal (DiffFromFailed e)
  | Ok from =>
      let (labelTo, rto) := load idx d env cpath (diffTo fl) in
      match rto with
      | Err e => ExitFatal (DiffToFailed e)
      | Ok to =>
          if temp_files env then Exit0 (DiffRun labelFrom from labelTo to)
          else ExitFatal DiffFailed
      end
  end.

(** The commands of main in the order in which it tries them, for the
    file argument as resolved: the first one whose flag is set runs, and
    the process exits. *)
Definition runCommand (idx : index) (d : disk) (env : main_env) (fl : flags)
    (cpath : string) : outcome * disk :=
  if printList fl then (Exit0 (Lines (mainList idx env)), d)
  else if printCommits fl then (Exit0 (Lines (mainCommits idx cpath)), d)
  else if printTree fl then (mainTree idx cpath, d)
  else if negb (String.eqb (commitMessage fl) EmptyString) then
    match index_commit idx d (cenv env) cpath (baseVersion fl)
            (commitMessage fl) with
    | (Some e, d', _) => (ExitFatal (FatalError e), d')
    | (None, d', _) => (Exit0 Nothing, d')
    end
  else if catVersion fl >? 0 then
    match extract idx d cpath (catVersion fl) with
    | Err e => (ExitFatal (FatalError e), d)
    | Ok data => (Exit0 (Data data), d)
    end
  else if diffVersions fl then (mainDiff idx d env fl cpath, d)
  else (Exit0 Nothing, d).

(** main, after flag.Parse: how the process ends and the work directory
    it leaves. *)
Definition main (cacheDir : string) (d : disk) (env : main_env) (fl : flags)
  : outcome * disk :=
  match getIndex cacheDir d with
  | Exited e => (ExitFatal (FatalError e), d)
  | Started idx =>
      let requiresFile :=
        negb (String.eqb (commitMessage fl) EmptyString)
        || (catVersion fl >? 0) || diffVersions fl in
      let optionalFile := printList fl || printCommits fl || printTree fl in
      let nArg := length (args fl) in
      if negb requiresFile && negb optionalFile then (ExitUsage, d)
      else if requiresFile && negb (nArg =? 1)%nat
              || optionalFile && (1 <? nArg)%nat then (ExitUsage, d)
      else
        match resolvePath env fl with
        | inl f => (ExitFatal f, d)
        | inr cpath => runCommand idx d env fl cpath
        end
  end.

(** The two conditions of main on its flags, as propositions. *)
Definition requiresFile (fl : flags) : Prop :=
  commitMessage fl <> EmptyString \/ catVersion fl > 0 \/ diffVersions fl = true.

Definition optionalFile (fl : flags) : Prop :=
  printList fl = true \/ printCommits fl = true \/ printTree fl = true.

End WithRuntime.

Arguments commit Time : clear implicits.
Arguments index Time : clear implicits.
Arguments load_result Time : clear implicits.
Arguments start_result Time : clear implicits.
Arguments tree_result Time : clear implicits.
Arguments commit_env Time : clear implicits.
Arguments request Time : clear implicits.
Arguments main_env Time : clear implicits.

End Sgvc.

(** ** A small runtime to run the program on concrete inputs

    Timestamps are UTC instants at second resolution, kept as their RFC3339
    text; [parse] accepts the layout [dddd-dd-ddTdd:dd:ddZ]. [quote] is
    strconv.Quote on ASCII text. *)
Module Demo.
Import Go Sgvc.

Definition Time : Type := string.

Definition is_digit (c : ascii) : bool :=
  match digit_val c with Some _ => true | None => false end.

Definition parse (s : string) : option Time :=
  match s with
  | String y1 (String y2 (String y3 (String y4 (String "-"
    (String m1 (String m2 (String "-" (String d1 (String d2 (String "T"
    (String h1 (String h2 (String ":" (String n1 (String n2 (String ":"
    (String s1 (String s2 (String "Z" EmptyString))))))))))))))))))) =>
      if forallb is_digit [y1; y2; y3; y4; m1; m2; d1; d2; h1; h2; n1; n2; s1; s2]
      then Some s else None
  | _ => None
  end.

Definition format (t : Time) : string := t.

Definition zero : Time := "0001-01-01T00:00:00Z".

Definition hex2 (c : ascii) : string :=
  let n := N_of_ascii c in
  String (hex_digit (n / 16)) (String (hex_digit (n mod 16)) EmptyString).

Definition bsl : ascii := "092"%char.
Definition dq : ascii := "034"%char.

Definition esc (c : ascii) : string := String bsl (String c EmptyString).

Definition quote_char (c : ascii) : string :=
  let n := N_of_ascii c in
  match n with
  | 7%N => esc "a" | 8%N => esc "b" | 9%N => esc "t" | 10%N => esc "n"
  | 11%N => esc "v" | 12%N => esc "f" | 13%N => esc "r"
  | 34%N => esc dq
  | 92%N => esc bsl
  | _ => if (n <? 32)%N || (n =? 127)%N then String bsl (String "x" (hex2 c))
         else String c EmptyString
  end.

Fixpoint quote_body (s : string) : string :=
  match s with
  | EmptyString => EmptyString
  | String c r => String.append (quote_char c) (quote_body r)
  end.

Definition quote (s : string) : string :=
  String dq (String.append (quote_body s) (String dq EmptyString)).

Definition cacheDir : string := "/home/u/.cache".

Definition emptyDisk : disk := {| index_file := EmptyString; store := ∅ |}.

Definition bytes (s : string) : list byte := list_byte_of_string s.

Definition add (d : disk) (env : commit_env Time) (p : string) (base : Z)
    (msg : string) : option error * disk * list event :=
  mainAdd format parse quote cacheDir d env p base msg.

Definition cat (d : disk) (p : string) (v : Z) : result (list byte) :=
  mainCat parse cacheDir d p v.

Definition env0 (content : string) : commit_env Time :=
  {| working_file := Some (bytes content); now := "2024-05-01T00:00:00Z";
     fault := NoFault |}.

(** An environment in which the working file cannot be read. *)
Definition envUnreadable : commit_env Time :=
  {| working_file := None; now := "2024-05-01T00:00:00Z"; fault := NoFault |}.

(** The index of a fresh work directory. *)
Definition idx0 : index Time :=
  {| workDir := "/home/u/.cache/sgvc"; commitsFile := "/home/u/.cache/sgvc/index";
     commits := [] |}.

Definition diskAfter (r : option error * disk * list event) : disk := snd (fst r).
Definition errorOf (r : option error * disk * list event) : option error :=
  fst (fst r).

(** The scenario of the README: two commits of /f, then one based on the
    first. *)
Definition d1 : disk :=
  Eval vm_compute in diskAfter (add emptyDisk (env0 "hello") "/f" 0 "init").
Definition d2 : disk :=
  Eval vm_compute in diskAfter (add d1 (env0 "world") "/f" 0 "update").
Definition d3 : disk :=
  Eval vm_compute in diskAfter (add d2 (env0 "branch") "/f" 1 "branch").

(** The index that a process started on [d3] works with. *)
Definition idx3 : index Time :=
  Eval vm_compute in
    match getIndex parse cacheDir d3 with
    | Started idx => idx
    | Exited _ => idx0
    end.

(** The three runs of the scenario as requests, the index that the second
    and the third run start with, and the history of the scenario. *)
Definition rq1 : request Time :=
  {| rq_env := env0 "hello"; rq_path := "/f"; rq_base := 0; rq_msg := "init" |}.
Definition rq2 : request Time :=
  {| rq_env := env0 "world"; rq_path := "/f"; rq_base := 0; rq_msg := "update" |}.
Definition rq3 : request Time :=
  {| rq_env := env0 "branch"; rq_path := "/f"; rq_base := 1; rq_msg := "branch" |}.

Definition idx1 : index Time :=
  Eval vm_compute in
    match getIndex parse cacheDir d1 with
    | Started idx => idx
    | Exited _ => idx0
    end.
Definition idx2 : index Time :=
  Eval vm_compute in
    match getIndex parse cacheDir d2 with
    | Started idx => idx
    | Exited _ => idx0
    end.

Definition written (idx : index Time) (rq : request Time) (content : string)
  : commit Time * list byte :=
  (newCommit quote idx (rq_env rq) (rq_path rq) (rq_base rq) (rq_msg rq)
     (bytes content),
   bytes content).

Definition h3 : list (commit Time * list byte) :=
  (([] ++ [written idx0 rq1 "hello"]) ++ [written idx1 rq2 "world"])
  ++ [written idx2 rq3 "branch"].

(** An index file with a line that is no commit. *)
Definition garbledDisk : disk :=
  Eval vm_compute in
    {| index_file := String.append (index_file d1)
                       (String.append "garbage" (String lf EmptyString));
       store := store d1 |}.

(** The pairs of path and version of a slice of commits. *)
Definition sigs (cs : list (commit Time)) : list sig := map sigOf cs.

(** A log written by hand with the versions 2^63-1 and -2 of one path. *)
Definition wrapDisk : disk :=
  {| index_file :=
       String.append
         (String.append
            (strings_Join tab ["/f"; "2024-05-01T00:00:00Z"; "9223372036854775807";
                               "0000"; "00"; "0"; "x"])
            (String lf EmptyString))
         (String.append
            (strings_Join tab ["/f"; "2024-05-01T00:00:00Z"; "-2";
                               "0000"; "00"; "0"; "y"])
            (String lf EmptyString));
     store := ∅ |}.

(** A file name with a tab in it. *)
Definition tabPath : string := String.append "/a" (String tab "b").

(** A path whose first component ends in a line feed and reads, up to it,
    like a line of the index for /a at version 5. *)
Definition forgedPath : string :=
  String.append
    (strings_Join tab ["/a"; "2024-05-01T00:00:00Z"; "0005"; "0000"; "00"; "0"; "x"])
    (String lf "/b").

(** *** Runs of main

    The environment of a run on a file that is given by its absolute path
    and exists: filepath.Abs returns the path, os.Stat succeeds, the map of
    -list is ranged over in the order of its keys, and the temporary files
    of diff can be written. *)
Definition menv (content : string) : main_env Time :=
  {| filepath_Abs := fun a => Some a; os_Stat := fun _ => true;
     cenv := env0 content;
     range_keys := fun m => (map_to_list m).*1;
     temp_files := true |}.

(** The same with the file argument gone from the disk. *)
Definition menvGone : main_env Time :=
  {| filepath_Abs := fun a => Some a; os_Stat := fun _ => false;
     cenv := envUnreadable;
     range_keys := fun m => (map_to_list m).*1;
     temp_files := true |}.

(** The same with the map ranged over in the opposite order. *)
Definition menvRev (content : string) : main_env Time :=
  {| filepath_Abs := fun a => Some a; os_Stat := fun _ => true;
     cenv := env0 content;
     range_keys := fun m => rev (map_to_list m).*1;
     temp_files := true |}.

(** An environment in which the content file is written and the index
    file cannot be opened. *)
Definition envNoIndex (content : string) : commit_env Time :=
  {| working_file := Some (bytes content); now := "2024-05-01T00:00:00Z";
     fault := OpenIndexFails |}.

Definition noFlags : flags :=
  {| printCommits := false; printTree := false; printList := false;
     catVersion := 0; commitMessage := EmptyString; baseVersion := 0;
     diffVersions := false; diffFrom := 0; diffTo := 0; args := [] |}.

(** sgvc -add msg -base base file *)
Definition flagsAdd (msg : string) (base : Z) (file : string) : flags :=
  {| printCommits := false; printTree := false; printList := false;
     catVersion := 0; commitMessage := msg; baseVersion := base;
     diffVersions := false; diffFrom := 0; diffTo := 0; args := [file] |}.

(** sgvc -cat v file *)
Definition flagsCat (v : Z) (file : string) : flags :=
  {| printCommits := false; printTree := false; printList := false;
     catVersion := v; commitMessage := EmptyString; baseVersion := 0;
     diffVersions := false; diffFrom := 0; diffTo := 0; args := [file] |}.

(** sgvc -commits file *)
Definition flagsCommits (file : string) : flags :=
  {| printCommits := true; printTree := false; printList := false;
     catVersion := 0; commitMessage := EmptyString; baseVersion := 0;
     diffVersions := false; diffFrom := 0; diffTo := 0; args := [file] |}.

(** sgvc -diff -from a -to b file *)
Definition flagsDiff (a b : Z) (file : string) : flags :=
  {| printCommits := false; printTree := false; printList := false;
     catVersion := 0; commitMessage := EmptyString; baseVersion := 0;
     diffVersions := true; diffFrom := a; diffTo := b; args := [file] |}.

(** sgvc -list *)
Definition flagsList : flags :=
  {| printCommits := false; printTree := false; printList := true;
     catVersion := 0; commitMessage := EmptyString; baseVersion := 0;
     diffVersions := false; diffFrom := 0; diffTo := 0; args := [] |}.

(** An environment in which Fprintln fails after ten bytes. *)
Definition envShortWrite (content : string) : commit_env Time :=
  {| working_file := Some (bytes content); now := "2024-05-01T00:00:00Z";
     fault := FprintlnFails 10 |}.

(** *** A long chain of versions

    [n] commits of /f, each based on the one before it, as a process loads
    them: newest first. *)
Fixpoint chainCommits (n : nat) : list (commit Time) :=
  match n with
  | O => []
  | S k =>
      {| path := "/f"; when := "2024-05-01T00:00:00Z";
         version := Z.of_nat n; basedOn := Z.of_nat k;
         pathSig := pathSignature "/f";
         dataCrc := crc32_ChecksumIEEE (bytes "x");
         changes := quote "m"; descs := [] |} :: chainCommits k
  end.

Definition chainIndex (n : nat) : index Time :=
  {| workDir := "/home/u/.cache/sgvc"; commitsFile := "/home/u/.cache/sgvc/index";
     commits := chainCommits n |}.

(** The work directory after [n] such runs of sgvc -add. *)
Fixpoint chainDisk (n : nat) : disk :=
  match n with
  | O => emptyDisk
  | S k => diskAfter (add (chainDisk k) (env0 "x") "/f" (Z.of_nat k) "m")
  end.

Definition idx130 : index Time := chainIndex 130.

Definition dummy130 : commit Time :=
  match treeOfCommits zero idx130 "/f" with
  | Tree dummy _ => dummy
  | NilDereference => zeroCommit zero
  end.

Definition heap130 : list (commit Time) :=
  match treeOfCommits zero idx130 "/f" with
  | Tree _ heap => heap
  | NilDereference => []
  end.

(** The positions of the versions 1, 2, ..., 130 in that index: the root
    and, after it, each child of the one before. *)
Definition chain130 : list ptr := rev (seq 0 130).

(** A commit message that fills the buffer of the scanner. *)
Definition longMessage : string :=
  strings_Repeat "x" (Z.to_nat MaxScanTokenSize).

Definition rqLong : request Time :=
  {| rq_env := env0 "hello"; rq_path := "/f"; rq_base := 0; rq_msg := longMessage |}.

End Demo.

(** ** Properties *)

Import Go Sgvc.

(** *** Facts about the runtime pieces *)

Lemma digit_val_range c d : digit_val c = Some d -> 0 <= d <= 9.
Proof.
  unfold digit_val. case_match; [|done]. intros [= <-]. lia.
Qed.

Lemma parse_digits_nonneg s : forall acc z,
  0 <= acc -> parse_digits s acc = Some z -> 0 <= z.
Proof.
  induction s as [|c s IH]; simpl; intros acc z Hacc.
  - intros [= <-]. done.
  - destruct (digit_val c) as [dv|] eqn:Hd; [|done].
    apply digit_val_range in Hd. apply IH. lia.
Qed.

Lemma parse_decimal_nonneg s z : parse_decimal s = Some z -> 0 <= z.
Proof.
  destruct s; [done|]. unfold parse_decimal. by apply parse_digits_nonneg.
Qed.

Lemma strconv_Atoi_range s z : strconv_Atoi s = Some z -> is_int z.
Proof.
  unfold strconv_Atoi, is_int, int_min, int_max. intros H.
  repeat case_match; simplify_eq;
    match goal with
    | Hp : parse_decimal _ = Some _ |- _ => apply parse_decimal_nonneg in Hp
    end; lia.
Qed.

Lemma strconv_ParseUint_range s z :
  strconv_ParseUint s 32 = Some z -> 0 <= z <= uint32_max.
Proof.
  unfold strconv_ParseUint, uint32_max. intros H.
  repeat case_match; simplify_eq.
  match goal with
  | Hp : parse_decimal _ = Some _ |- _ => apply parse_decimal_nonneg in Hp
  end. lia.
Qed.

Lemma substring_whole s : String.substring 0 (String.length s) s = s.
Proof. induction s as [|c s IH]; simpl; [done | by rewrite IH]. Qed.

Section Properties.

Set Default Proof Using "Type".

Context {Time : Type}.
Context (time_Format : Time -> string).
Context (time_Parse : string -> option Time).
Context (time_zero : Time).
Context (strconv_Quote : string -> string).

Local Abbreviation commit := (Sgvc.commit Time).
Local Abbreviation index := (Sgvc.index Time).
Local Abbreviation deserializeCommit := (Sgvc.deserializeCommit time_Parse).
Local Abbreviation scanCommits := (Sgvc.scanCommits time_Parse).
Local Abbreviation loadCommits := (Sgvc.loadCommits time_Parse).
Local Abbreviation getIndex := (Sgvc.getIndex time_Parse).
Local Abbreviation newCommit := (Sgvc.newCommit strconv_Quote).
Local Abbreviation logLine := (Sgvc.logLine time_Format).
Local Abbreviation index_commit := (Sgvc.index_commit time_Format strconv_Quote).
Local Abbreviation treeOfCommits := (Sgvc.treeOfCommits time_zero).

(** *** deserializeCommit and loadCommits *)

Lemma deserializeCommit_Ok s cmt :
  deserializeCommit s = Ok cmt <->
  exists p0 p1 p2 p3 p4 p5 p6 t v b c,
    strings_Split tab s = [p0; p1; p2; p3; p4; p5; p6] /\
    time_Parse p1 = Some t /\ strconv_Atoi p2 = Some v /\
    strconv_Atoi p3 = Some b /\ strconv_ParseUint p5 32 = Some c /\
    cmt = {| path := p0; when := t; version := v; basedOn := b; pathSig := p4;
             dataCrc := c; changes := p6; descs := [] |}.
Proof.
  unfold Sgvc.deserializeCommit. split.
  - intros H. repeat case_match; simplify_eq.
    do 11 eexists. split_and!; done.
  - intros (p0 & p1 & p2 & p3 & p4 & p5 & p6 & t & v & b & c & -> & -> & -> & -> & -> & ->).
    done.
Qed.

Lemma scanCommits_Loaded raws : forall n acc cs,
  scanCommits raws n acc = Loaded cs ->
  exists new, cs = acc ++ new /\
    Forall2 (fun raw c => too_long raw = false /\ deserializeCommit (dropCR raw) = Ok c)
            raws new.
Proof.
  induction raws as [|raw raws IH]; simpl; intros n acc cs H.
  - exists []. simplify_eq. by rewrite app_nil_r.
  - destruct (too_long raw) eqn:Hlen; [done|].
    destruct (deserializeCommit (dropCR raw)) as [c|e] eqn:Hc; [|done].
    apply IH in H as (new & -> & Hall). exists (c :: new).
    split; [by rewrite <- app_assoc | by constructor].
Qed.

Lemma scanCommits_Fatal pre : forall raw post e n acc,
  Forall (fun r => too_long r = false /\ exists c, deserializeCommit (dropCR r) = Ok c) pre ->
  too_long raw = false ->
  deserializeCommit (dropCR raw) = Err e ->
  scanCommits (pre ++ raw :: post) n acc = Fatal (S (n + length pre)) e.
Proof.
  induction pre as [|r pre IH]; simpl; intros raw post e n acc Hpre Hlen Hbad.
  - rewrite Hlen, Hbad. f_equal. lia.
  - inversion Hpre as [|? ? [Hl [c Hc]] Hrest]; subst.
    rewrite Hl, Hc. rewrite (IH _ _ e); [|done..]. f_equal. lia.
Qed.

(** C6. A log line deserializes exactly when it splits into seven fields at
    the tabs, the second parses as an RFC3339 time, the third and fourth
    parse with Atoi and the sixth parses with ParseUint at 32 bits; the
    integers obtained are in range. A line of the index file that does not
    deserialize leaves no loaded index: loadCommits never returns the other
    lines, getIndex exits, and when the lines before it are fine the
    process is killed at that very line. *)
Theorem C6_malformed_line_aborts_load :
  (forall s, (exists cmt, deserializeCommit s = Ok cmt) <->
     exists p0 p1 p2 p3 p4 p5 p6,
       strings_Split tab s = [p0; p1; p2; p3; p4; p5; p6] /\
       is_Some (time_Parse p1) /\ is_Some (strconv_Atoi p2) /\
       is_Some (strconv_Atoi p3) /\ is_Some (strconv_ParseUint p5 32)) /\
  (forall s cmt, deserializeCommit s = Ok cmt ->
     is_int (version cmt) /\ is_int (basedOn cmt) /\
     0 <= dataCrc cmt <= uint32_max) /\
  (forall d raw e,
     raw ∈ raw_lines (index_file d) ->
     deserializeCommit (dropCR raw) = Err e ->
     (forall cs, loadCommits d <> Loaded cs) /\
     (forall cacheDir, exists e', getIndex cacheDir d = Exited e')) /\
  (forall d pre raw post e,
     raw_lines (index_file d) = pre ++ raw :: post ->
     Forall (fun r => too_long r = false /\
                      exists c, deserializeCommit (dropCR r) = Ok c) pre ->
     too_long raw = false ->
     deserializeCommit (dropCR raw) = Err e ->
     loadCommits d = Fatal (S (length pre)) e).
Proof.
  assert (Hnot : forall d raw e,
     raw ∈ raw_lines (index_file d) ->
     deserializeCommit (dropCR raw) = Err e ->
     forall cs, loadCommits d <> Loaded cs).
  { intros d raw e Hin Hbad cs. unfold Sgvc.loadCommits.
    destruct (scanCommits _ _ _) as [cs'| |] eqn:Hscan; [|done..].
    apply scanCommits_Loaded in Hscan as (new & _ & Hall).
    apply list_elem_of_lookup in Hin as [i Hi].
    destruct (Forall2_lookup_l _ _ _ _ _ Hall Hi) as (c & _ & _ & Hc).
    congruence. }
  split; [|split; [|split]].
  - intros s. split.
    + intros [cmt H]. apply deserializeCommit_Ok in H.
      destruct H as (p0 & p1 & p2 & p3 & p4 & p5 & p6 & t & v & b & c
                     & Hs & Ht & Hv & Hb & Hc & _).
      exists p0, p1, p2, p3, p4, p5, p6. rewrite Ht, Hv, Hb, Hc. split_and!; eauto.
    + intros (p0 & p1 & p2 & p3 & p4 & p5 & p6 & Hs & [t Ht] & [v Hv] & [b Hb] & [c Hc]).
      eexists. apply deserializeCommit_Ok.
      exists p0, p1, p2, p3, p4, p5, p6, t, v, b, c. done.
  - intros s cmt H. apply deserializeCommit_Ok in H.
    destruct H as (p0 & p1 & p2 & p3 & p4 & p5 & p6 & t & v & b & c & _ & _ & Hv & Hb & Hc & ->).
    simpl. split; [by eapply strconv_Atoi_range|].
    split; [by eapply strconv_Atoi_range | by eapply strconv_ParseUint_range].
  - intros d raw e Hin Hbad. split; [by eapply Hnot|].
    intros cacheDir. unfold Sgvc.getIndex.
    destruct (loadCommits d) as [cs| |] eqn:Hl; [|by eauto..].
    by eapply Hnot in Hl.
  - intros d pre raw post e Hraws Hpre Hlen Hbad. unfold Sgvc.loadCommits.
    rewrite Hraws. by erewrite scanCommits_Fatal.
Qed.

(** *** extract *)

Lemma findCommit_None (cs : list commit) p v :
  findCommit cs p v = None <->
  forall c, c ∈ cs -> ~ (path c = p /\ version c = v).
Proof.
  clear strconv_Quote time_Format time_Parse time_zero.
  induction cs as [|c cs IH]; simpl.
  - split; [|done]. intros _ c Hc. by apply not_elem_of_nil in Hc.
  - destruct (String.eqb (path c) p) eqn:Hp; simpl.
    + destruct (version c =? v) eqn:Hv.
      * apply String.eqb_eq in Hp. apply Z.eqb_eq in Hv.
        split; [done|]. intros H. destruct (H c); [left|done].
      * apply Z.eqb_neq in Hv. rewrite IH. split.
        -- intros H c' [->|Hin]%elem_of_cons; [tauto | by apply H].
        -- intros H c' Hin. apply H. by right.
    + apply String.eqb_neq in Hp. rewrite IH. split.
      * intros H c' [->|Hin]%elem_of_cons; [tauto | by apply H].
      * intros H c' Hin. apply H. by right.
Qed.

Lemma findCommit_Some (cs : list commit) p v cmt :
  findCommit cs p v = Some cmt ->
  cmt ∈ cs /\ path cmt = p /\ version cmt = v.
Proof.
  induction cs as [|c cs IH]; simpl; [done|].
  destruct (String.eqb (path c) p && (version c =? v)) eqn:Hm.
  - intros [= ->]. apply andb_true_iff in Hm as [Hp Hv].
    apply String.eqb_eq in Hp. apply Z.eqb_eq in Hv. split; [left|done].
  - intros H. destruct (IH H) as (? & ? & ?). split; [by right|done].
Qed.

(** C5. extract fails with the not-found error when no commit of the index
    has this path and version. When one has, the search settles on such a
    commit, and with the bytes stored under its file path extract fails with
    the corruption error, which is not the not-found error, exactly when
    their CRC32 differs from the recorded one, and returns the bytes
    otherwise. (With no file under that path, the error of the read is
    returned.) *)
Theorem C5_extract_outcomes (idx : index) (d : disk) (p : string) (v : Z) :
  ((forall c, c ∈ commits idx -> ~ (path c = p /\ version c = v)) ->
   extract idx d p v = Err (CannotFindVersion v p)) /\
  (forall c, c ∈ commits idx -> path c = p -> version c = v ->
   exists cmt,
     findCommit (commits idx) p v = Some cmt /\
     cmt ∈ commits idx /\ path cmt = p /\ version cmt = v /\
     (forall data, store d !! filePath idx cmt = Some data ->
        let crc := crc32_ChecksumIEEE data in
        (crc <> dataCrc cmt <->
         extract idx d p v = Err (CorruptedFile (dataCrc cmt) crc)) /\
        (crc = dataCrc cmt <-> extract idx d p v = Ok data) /\
        CorruptedFile (dataCrc cmt) crc <> CannotFindVersion v p) /\
     (store d !! filePath idx cmt = None ->
        extract idx d p v = Err (ReadFailed (filePath idx cmt)))).
Proof.
  clear strconv_Quote time_Format time_Parse time_zero.
  split.
  - intros Hnone. apply findCommit_None in Hnone.
    unfold extract. by rewrite Hnone.
  - intros c Hin Hp Hv.
    destruct (findCommit (commits idx) p v) as [cmt|] eqn:Hfind.
    2: { rewrite findCommit_None in Hfind. destruct (Hfind c Hin). done. }
    destruct (findCommit_Some _ _ _ _ Hfind) as (Hcin & Hcp & Hcv).
    exists cmt. split_and!; try done.
    + intros data Hdata crc. unfold extract. rewrite Hfind, Hdata.
      fold crc. destruct (crc =? dataCrc cmt) eqn:Hcrc; simpl.
      * apply Z.eqb_eq in Hcrc. split_and!; done.
      * apply Z.eqb_neq in Hcrc. split_and!; done.
    + intros Hnone. unfold extract. by rewrite Hfind, Hnone.
Qed.

(** *** commit *)

(** C4. In every execution of commit, an append to the index file comes
    after the successful write of the content file of the new version, and
    what is appended is (a prefix of) the line of that version; when the
    content write fails nothing is appended and the index file is left as it
    was; and whenever the index file has changed, the store holds the
    content under the file path of the new version. *)
Theorem C4_content_written_before_log (idx : index) (d : disk)
    (env : commit_env Time) (p : string) (base : Z) (msg : string)
    (err : option error) (d' : disk) (tr : list event) :
  index_commit idx d env p base msg = (err, d', tr) ->
  (forall i text ok, tr !! i = Some (EvAppendIndex text ok) ->
     exists j data,
       (j < i)%nat /\ working_file env = Some data /\
       let cmt := newCommit idx env p base msg data in
       tr !! j = Some (EvWriteFile (filePath idx cmt) data true) /\
       store d' !! filePath idx cmt = Some data /\
       (exists n, text = String.substring 0 n (logLine cmt)) /\
       index_file d' = String.append (index_file d) text) /\
  ((exists name data, EvWriteFile name data false ∈ tr) ->
     (forall text ok, EvAppendIndex text ok ∉ tr) /\
     index_file d' = index_file d /\ err = Some FailedToCommitContents) /\
  (index_file d' <> index_file d ->
     exists data, working_file env = Some data /\
       store d' !! filePath idx (newCommit idx env p base msg data) = Some data).
Proof.
  clear time_Parse time_zero.
  unfold Sgvc.index_commit. intros H.
  destruct (working_file env) as [data|] eqn:Hw.
  2: { simplify_eq. split_and!; [by intros []| |done].
       intros (? & ? & Hin). by apply not_elem_of_nil in Hin. }
  destruct (negb (base =? 0) && (base >? currVersion idx p)).
  { simplify_eq. split_and!; [by intros []| |done].
    intros (? & ? & Hin). by apply not_elem_of_nil in Hin. }
  destruct (fault env) as [|residue| |n] eqn:Hf; simplify_eq; simpl.
  - split_and!.
    + intros [|[|[|i]]] text ok Hi; simplify_eq/=.
      exists 0%nat, data. split_and!; try done; [lia|apply lookup_insert_eq|].
      exists (String.length (logLine (newCommit idx env p base msg data))).
      by rewrite substring_whole.
    + intros (name & data' & Hin). set_solver.
    + intros _. exists data. split; [done|]. apply lookup_insert_eq.
  - split_and!.
    + intros [|[|[|i]]] text ok Hi; simplify_eq/=.
    + intros _. split_and!; [set_solver|done..].
    + done.
  - split_and!.
    + intros [|[|[|i]]] text ok Hi; simplify_eq/=.
    + intros (name & data' & Hin). set_solver.
    + done.
  - split_and!.
    + intros [|[|[|i]]] text ok Hi; simplify_eq/=.
      exists 0%nat, data. split_and!; try done; [lia|apply lookup_insert_eq|].
      by exists n.
    + intros (name & data' & Hin). set_solver.
    + intros _. exists data. split; [done|]. apply lookup_insert_eq.
Qed.

(** *** treeOfCommits *)

Lemma addDesc_setDescs (c : commit) ds i :
  addDesc (setDescs c ds) i = setDescs c (ds ++ [i]).
Proof. done. Qed.

Lemma setDescs_id (c : commit) : setDescs c (descs c) = c.
Proof. by destruct c. Qed.

Lemma filter_snoc {A} (f : A -> bool) l x :
  List.filter f (l ++ [x]) = List.filter f l ++ (if f x then [x] else []).
Proof. by rewrite List.filter_app. Qed.

Lemma isRoot_at (heap : list commit) i c :
  heap !! i = Some c -> isRoot heap i = negb (basedOn c >? 0).
Proof. unfold isRoot. by intros ->. Qed.

Lemma isChildOf_at (heap : list commit) m q i c :
  heap !! i = Some c ->
  isChildOf heap m q i =
    (basedOn c >? 0) && bool_decide (m !! (path c, basedOn c) = Some q).
Proof. unfold isChildOf. by intros ->. Qed.

(** The second loop of treeOfCommits, for any lookup table whose entries
    are addresses of the slice. *)
Lemma treeLoop_spec (m : gmap sig ptr) (heap0 : list commit) (dummy0 : commit)
    (ps : list ptr) :
  (forall i, i ∈ ps -> (i < length heap0)%nat) ->
  (forall k q, m !! k = Some q -> (q < length heap0)%nat) ->
  match fold_left (treeStep m) ps (Some (heap0, dummy0)) with
  | Some (heap, dummy) =>
      dummy = setDescs dummy0 (descs dummy0 ++ List.filter (isRoot heap0) ps) /\
      length heap = length heap0 /\
      (forall q c0, heap0 !! q = Some c0 ->
         heap !! q = Some (setDescs c0
                       (descs c0 ++ List.filter (isChildOf heap0 m q) ps))) /\
      (forall i c, i ∈ ps -> heap0 !! i = Some c -> basedOn c > 0 ->
         is_Some (m !! (path c, basedOn c)))
  | None =>
      exists i c, i ∈ ps /\ heap0 !! i = Some c /\ basedOn c > 0 /\
                  m !! (path c, basedOn c) = None
  end.
Proof.
  intros Hps Hm. induction ps as [|x pre IH] using rev_ind.
  - simpl. split_and!; [|done| |].
    + by rewrite app_nil_r, setDescs_id.
    + intros q c0 Hq. by rewrite app_nil_r, setDescs_id.
    + intros i c Hi. by apply not_elem_of_nil in Hi.
  - rewrite fold_left_app. simpl.
    assert (Hpre : forall i, i ∈ pre -> (i < length heap0)%nat).
    { intros i Hi. apply Hps. apply elem_of_app. by left. }
    specialize (IH Hpre).
    destruct (fold_left (treeStep m) pre (Some (heap0, dummy0)))
      as [[heap dummy]|]; simpl.
    2: { destruct IH as (i & c & Hi & H). exists i, c. split; [|done].
         apply elem_of_app. by left. }
    destruct IH as (Hd & Hlen & Hheap & Hpar).
    assert (Hx : (x < length heap0)%nat).
    { apply Hps. apply elem_of_app. right. by left. }
    destruct (lookup_lt_is_Some_2 _ _ Hx) as [cx Hcx].
    rewrite (Hheap _ _ Hcx). simpl.
    destruct (basedOn cx >? 0) eqn:Hb.
    + destruct (m !! (path cx, basedOn cx)) as [q|] eqn:Hmq.
      2: { exists x, cx. split_and!; [|done|lia|done].
           apply elem_of_app. right. by left. }
      destruct (lookup_lt_is_Some_2 _ _ (Hm _ _ Hmq)) as [cq Hcq].
      rewrite (Hheap _ _ Hcq).
      split_and!.
      * rewrite filter_snoc, (isRoot_at _ _ _ Hcx), Hb. simpl.
        by rewrite app_nil_r.
      * by rewrite length_insert.
      * intros q' c0 Hq'. rewrite filter_snoc, (isChildOf_at _ _ _ _ _ Hcx).
        rewrite Hb, Hmq. simpl.
        destruct (decide (q = q')) as [<-|Hne].
        -- rewrite list_lookup_insert_eq by (rewrite Hlen; by eapply Hm).
           rewrite bool_decide_eq_true_2 by done.
           rewrite addDesc_setDescs, <- app_assoc. by simplify_eq.
        -- rewrite list_lookup_insert_ne by done.
           rewrite bool_decide_eq_false_2 by congruence.
           rewrite app_nil_r. by apply Hheap.
      * intros i c [Hi| ->%list_elem_of_singleton]%elem_of_app Hc Hpos.
        -- by eapply Hpar.
        -- simplify_eq. by rewrite Hmq.
    + split_and!.
      * rewrite Hd, filter_snoc, (isRoot_at _ _ _ Hcx), Hb. simpl.
        rewrite addDesc_setDescs. by rewrite <- app_assoc.
      * done.
      * intros q' c0 Hq'. rewrite filter_snoc, (isChildOf_at _ _ _ _ _ Hcx).
        rewrite Hb. simpl. rewrite app_nil_r. by apply Hheap.
      * intros i c [Hi| ->%list_elem_of_singleton]%elem_of_app Hc Hpos.
        -- by eapply Hpar.
        -- simplify_eq. lia.
Qed.


(** The addresses that filter returns. *)
Lemma filterFrom_elem p (cs : list commit) : forall (pre : list commit) acc j,
  j ∈ filterFrom p (length pre) cs acc <->
  j ∈ acc \/ ((length pre <= j)%nat /\
              exists c, (pre ++ cs) !! j = Some c /\ path c = p).
Proof.
  induction cs as [|c cs IH]; simpl; intros pre acc j.
  - split; [by left|]. intros [H|(Hle & c & Hc & _)]; [done|].
    rewrite app_nil_r in Hc. apply lookup_lt_Some in Hc. lia.
  - specialize (IH (pre ++ [c])). rewrite length_app in IH. simpl in IH.
    rewrite Nat.add_1_r in IH. rewrite IH. rewrite <- app_assoc. simpl.
    assert (Hhere : (pre ++ c :: cs) !! length pre = Some c).
    { by rewrite list_lookup_middle. }
    destruct (String.eqb (path c) p) eqn:Hp.
    + apply String.eqb_eq in Hp. rewrite elem_of_app, list_elem_of_singleton.
      split.
      * intros [[H| ->]|(Hle & c' & Hc' & Hp')]; [by left| |].
        -- right. split; [lia|]. by exists c.
        -- right. split; [lia|]. by exists c'.
      * intros [H|(Hle & c' & Hc' & Hp')]; [by left; left|].
        destruct (decide (j = length pre)) as [->|Hne]; [by left; right|].
        right. split; [lia|]. by exists c'.
    + apply String.eqb_neq in Hp. split.
      * intros [H|(Hle & c' & Hc' & Hp')]; [by left|].
        right. split; [lia|]. by exists c'.
      * intros [H|(Hle & c' & Hc' & Hp')]; [by left|].
        destruct (decide (j = length pre)) as [->|Hne]; [congruence|].
        right. split; [lia|]. by exists c'.
Qed.

Lemma filter_elem (idx : index) p j :
  j ∈ filter idx p <->
  exists c, commits idx !! j = Some c /\ (p = EmptyString \/ path c = p).
Proof.
  unfold filter. destruct (String.eqb p EmptyString) eqn:Hp.
  - apply String.eqb_eq in Hp. rewrite elem_of_seq. split.
    + intros [_ Hlt]. destruct (lookup_lt_is_Some_2 _ _ Hlt) as [c Hc].
      exists c. auto.
    + intros (c & Hc & _). apply lookup_lt_Some in Hc. lia.
  - apply String.eqb_neq in Hp.
    rewrite (filterFrom_elem p (commits idx) [] [] j). simpl. split.
    + intros [H|(_ & c & Hc & Hpc)]; [by apply not_elem_of_nil in H|].
      exists c. auto.
    + intros (c & Hc & [?|Hpc]); [done|]. right. split; [lia|]. by exists c.
Qed.

Lemma filter_valid (idx : index) p j :
  j ∈ filter idx p -> (j < length (commits idx))%nat.
Proof.
  intros (c & Hc & _)%filter_elem. by apply lookup_lt_Some in Hc.
Qed.

(** The lookup table of treeOfCommits. *)
Lemma buildMap_snoc (heap : list commit) pre x :
  buildMap heap (pre ++ [x]) =
  match heap !! x with
  | Some cmt => <[sigOf cmt := x]> (buildMap heap pre)
  | None => buildMap heap pre
  end.
Proof. unfold buildMap. by rewrite fold_left_app. Qed.

Lemma buildMap_Some (heap : list commit) ps k q :
  buildMap heap ps !! k = Some q ->
  q ∈ ps /\ exists c, heap !! q = Some c /\ sigOf c = k.
Proof.
  induction ps as [|x pre IH] using rev_ind.
  - unfold buildMap. simpl. by rewrite lookup_empty.
  - rewrite buildMap_snoc, elem_of_app, list_elem_of_singleton.
    destruct (heap !! x) as [cx|] eqn:Hx.
    + destruct (decide (sigOf cx = k)) as [<-|Hne].
      * rewrite lookup_insert_eq. intros [= <-]. split; [by right|by exists cx].
      * rewrite lookup_insert_ne by done. intros H. destruct (IH H). auto.
    + intros H. destruct (IH H). auto.
Qed.

Lemma buildMap_is_Some (heap : list commit) ps i c :
  i ∈ ps -> heap !! i = Some c -> is_Some (buildMap heap ps !! sigOf c).
Proof.
  induction ps as [|x pre IH] using rev_ind.
  - intros H. by apply not_elem_of_nil in H.
  - rewrite buildMap_snoc, elem_of_app, list_elem_of_singleton.
    intros [Hi| ->] Hc.
    + destruct (heap !! x) as [cx|]; [|by apply IH].
      destruct (decide (sigOf cx = sigOf c)) as [->|Hne].
      * rewrite lookup_insert_eq. by eexists.
      * rewrite lookup_insert_ne by done. by apply IH.
    + rewrite Hc, lookup_insert_eq. by eexists.
Qed.

(** What treeOfCommits returns, read off the slice it was given. *)
Lemma treeOfCommits_spec (idx : index) (p : string) :
  let ps := filter idx p in
  let m := buildMap (commits idx) ps in
  match treeOfCommits idx p with
  | Tree dummy heap =>
      dummy = setDescs (zeroCommit time_zero) (List.filter (isRoot (commits idx)) ps) /\
      length heap = length (commits idx) /\
      (forall q c0, commits idx !! q = Some c0 ->
         heap !! q = Some (setDescs c0
                       (descs c0 ++ List.filter (isChildOf (commits idx) m q) ps))) /\
      (forall i c, i ∈ ps -> commits idx !! i = Some c -> basedOn c > 0 ->
         is_Some (m !! (path c, basedOn c)))
  | NilDereference =>
      exists i c, i ∈ ps /\ commits idx !! i = Some c /\ basedOn c > 0 /\
                  m !! (path c, basedOn c) = None
  end.
Proof.
  intros ps m. unfold Sgvc.treeOfCommits. fold ps. fold m.
  pose proof (treeLoop_spec m (commits idx) (zeroCommit time_zero) ps) as H.
  destruct (fold_left (treeStep m) ps (Some (commits idx, zeroCommit time_zero)))
    as [[heap dummy]|]; apply H.
  - intros i Hi. by eapply filter_valid.
  - intros k q (Hq & _)%buildMap_Some. by eapply filter_valid.
  - intros i Hi. by eapply filter_valid.
  - intros k q (Hq & _)%buildMap_Some. by eapply filter_valid.
Qed.


(** C10. treeOfCommits returns its dummy node exactly when every commit of
    the filtered slice with a positive basedOn has a commit of the slice
    with the same path and that version; and there is an index, with one
    commit whose nonzero basedOn is the version of no commit of the slice,
    on which the second loop dereferences the nil pointer that the lookup
    table returned. *)
Theorem C10_missing_parent_nil_dereference :
  (forall (idx : index) (p : string),
     (exists dummy heap, treeOfCommits idx p = Tree dummy heap) <->
     (forall i c, i ∈ filter idx p -> commits idx !! i = Some c ->
        basedOn c > 0 ->
        exists j c', j ∈ filter idx p /\ commits idx !! j = Some c' /\
                     path c' = path c /\ version c' = basedOn c)) /\
  (exists (idx : index) (p : string) (c : commit),
     commits idx = [c] /\ filter idx p = [0%nat] /\
     basedOn c <> 0 /\ version c <> basedOn c /\
     treeOfCommits idx p = NilDereference).
Proof.
  split.
  - intros idx p. pose proof (treeOfCommits_spec idx p) as Hspec. simpl in Hspec.
    split.
    + intros (dummy & heap & Ht). rewrite Ht in Hspec.
      destruct Hspec as (_ & _ & _ & Hpar).
      intros i c Hi Hc Hpos. destruct (Hpar i c Hi Hc Hpos) as [q Hq].
      apply buildMap_Some in Hq as (Hq & c' & Hc' & Hsig).
      exists q, c'. unfold sigOf in Hsig. by simplify_eq.
    + intros Hall. destruct (treeOfCommits idx p) as [dummy heap|]; [by eauto|].
      destruct Hspec as (i & c & Hi & Hc & Hpos & Hnone).
      destruct (Hall i c Hi Hc Hpos) as (j & c' & Hj & Hc' & Hp & Hv).
      destruct (buildMap_is_Some _ _ _ _ Hj Hc') as [q Hq].
      unfold sigOf in Hq. rewrite Hp, Hv in Hq. congruence.
  - exists {| workDir := "/w"; commitsFile := "/w/index";
              commits := [ {| path := "/f"; when := time_zero; version := 1;
                              basedOn := 5; pathSig := EmptyString; dataCrc := 0;
                              changes := EmptyString; descs := [] |} ] |}.
    exists "/f"%string. eexists. split_and!; [reflexivity|reflexivity|done|done|].
    vm_compute. reflexivity.
Qed.


(** *** The sort of loadCommits on the commits of one path *)

Lemma strings_Compare_refl s : strings_Compare s s = 0.
Proof.
  unfold strings_Compare. pose proof (String.compare_antisym s s) as H.
  by destruct (String.compare s s).
Qed.

Lemma cmpCommits_same_path (a b : commit) :
  path a = path b -> cmpCommits a b = wrap64 (version b - version a).
Proof. unfold cmpCommits. intros ->. by rewrite strings_Compare_refl. Qed.

Section ThreeVersions.
(** The records {v1: basedOn=0, v2: basedOn=0, v3: basedOn=1} of a path,
    whatever their other fields are. *)
Context (P : string) (t1 t2 t3 : Time) (s1 s2 s3 : string)
        (k1 k2 k3 : Z) (m1 m2 m3 : string).

Let v1 : commit := {| path := P; when := t1; version := 1; basedOn := 0;
  pathSig := s1; dataCrc := k1; changes := m1; descs := [] |}.
Let v2 : commit := {| path := P; when := t2; version := 2; basedOn := 0;
  pathSig := s2; dataCrc := k2; changes := m2; descs := [] |}.
Let v3 : commit := {| path := P; when := t3; version := 3; basedOn := 1;
  pathSig := s3; dataCrc := k3; changes := m3; descs := [] |}.

Lemma three_versions_sorted :
  slices_SortFunc cmpCommits [v1; v2; v3] = [v3; v2; v1].
Proof.
  unfold slices_SortFunc. simpl.
  repeat (rewrite cmpCommits_same_path by done; simpl).
  reflexivity.
Qed.

Lemma three_versions_tree wd cf :
  treeOfCommits {| workDir := wd; commitsFile := cf; commits := [v3; v2; v1] |} P
  = Tree (setDescs (zeroCommit time_zero) [1; 2]%nat)
         [v3; v2; setDescs v1 [0%nat]].
Proof.
  unfold Sgvc.treeOfCommits.
  assert (Hf : filter {| workDir := wd; commitsFile := cf;
                         commits := [v3; v2; v1] |} P = [0; 1; 2]%nat).
  { unfold filter. destruct (String.eqb P EmptyString); [done|].
    simpl. by rewrite String.eqb_refl. }
  rewrite Hf. cbn [commits].
  set (m := buildMap [v3; v2; v1] [0; 1; 2]%nat).
  assert (Hm : m !! (P, 1) = Some 2%nat).
  { unfold m, buildMap. cbn [fold_left]. apply lookup_insert_eq. }
  clearbody m. simpl. rewrite Hm. reflexivity.
Qed.
End ThreeVersions.

Lemma elem_of_bool_filter {A} (f : A -> bool) (l : list A) x :
  x ∈ List.filter f l <-> x ∈ l /\ f x = true.
Proof. rewrite !list_elem_of_In. apply List.filter_In. Qed.

(** C8. When treeOfCommits returns, every commit of the filtered slice with
    basedOn = 0 is a child of the dummy node (a root of the forest), every
    one with basedOn > 0 is a child of the commit that the lookup table
    holds for its path and its basedOn, which has that path and that
    version, and is not a root; the roots are commits of the slice that have
    no positive basedOn. For the records v1 (basedOn 0), v2 (basedOn 0) and
    v3 (basedOn 1) of one path, as loadCommits orders them (v3, v2, v1 at
    the addresses 0, 1, 2), the roots are v2 and v1, v1 has the one child
    v3, and v2 and v3 have no children. *)
Theorem C8_tree_of_commits :
  (forall (idx : index) (p : string) dummy heap,
     treeOfCommits idx p = Tree dummy heap ->
     (forall i c, i ∈ filter idx p -> commits idx !! i = Some c ->
        basedOn c = 0 -> i ∈ descs dummy) /\
     (forall i c, i ∈ filter idx p -> commits idx !! i = Some c ->
        basedOn c > 0 ->
        exists q parent,
          buildMap (commits idx) (filter idx p) !! (path c, basedOn c) = Some q /\
          heap !! q = Some parent /\
          path parent = path c /\ version parent = basedOn c /\
          i ∈ descs parent /\ i ∉ descs dummy) /\
     (forall i, i ∈ descs dummy ->
        i ∈ filter idx p /\
        exists c, commits idx !! i = Some c /\ basedOn c <= 0)) /\
  (forall (P : string) (t1 t2 t3 : Time) (s1 s2 s3 : string) (k1 k2 k3 : Z)
          (m1 m2 m3 wd cf : string),
     let v1 := {| path := P; when := t1; version := 1; basedOn := 0;
                  pathSig := s1; dataCrc := k1; changes := m1; descs := [] |} in
     let v2 := {| path := P; when := t2; version := 2; basedOn := 0;
                  pathSig := s2; dataCrc := k2; changes := m2; descs := [] |} in
     let v3 := {| path := P; when := t3; version := 3; basedOn := 1;
                  pathSig := s3; dataCrc := k3; changes := m3; descs := [] |} in
     let idx := {| workDir := wd; commitsFile := cf;
                   commits := slices_SortFunc cmpCommits [v1; v2; v3] |} in
     commits idx = [v3; v2; v1] /\
     exists dummy heap,
       treeOfCommits idx P = Tree dummy heap /\
       descs dummy = [1; 2]%nat /\
       heap = [setDescs v3 []; setDescs v2 []; setDescs v1 [0%nat]]).
Proof.
  split.
  - intros idx p dummy heap Ht.
    pose proof (treeOfCommits_spec idx p) as Hspec. simpl in Hspec.
    rewrite Ht in Hspec. destruct Hspec as (Hd & Hlen & Hheap & Hpar).
    assert (Hroots : descs dummy = List.filter (isRoot (commits idx)) (filter idx p)).
    { by rewrite Hd. }
    split_and!.
    + intros i c Hi Hc Hb. rewrite Hroots. apply elem_of_bool_filter.
      split; [done|]. rewrite (isRoot_at _ _ _ Hc), Hb. done.
    + intros i c Hi Hc Hb.
      destruct (Hpar i c Hi Hc Hb) as [q Hq].
      destruct (buildMap_Some _ _ _ _ Hq) as (Hqin & cq & Hcq & Hsig).
      exists q, (setDescs cq (descs cq ++
        List.filter (isChildOf (commits idx) (buildMap (commits idx) (filter idx p)) q)
                    (filter idx p))).
      unfold sigOf in Hsig. simplify_eq. split_and!; try done.
      * by apply Hheap.
      * simpl. apply elem_of_app. right. apply elem_of_bool_filter.
        split; [done|]. rewrite (isChildOf_at _ _ _ _ _ Hc).
        apply andb_true_iff. split; [by apply Z.gtb_lt; lia|].
        by apply bool_decide_eq_true_2.
      * rewrite Hroots. intros [_ Hr]%elem_of_bool_filter.
        rewrite (isRoot_at _ _ _ Hc) in Hr.
        apply negb_true_iff in Hr.
        assert ((basedOn c >? 0) = true) by (apply Z.gtb_lt; lia). congruence.
    + intros i. rewrite Hroots. intros [Hi Hr]%elem_of_bool_filter.
      split; [done|]. unfold isRoot in Hr.
      destruct (commits idx !! i) as [c|]; [|done]. exists c. split; [done|].
      apply negb_true_iff in Hr. rewrite Z.gtb_ltb in Hr.
      apply Z.ltb_ge in Hr. done.
  - intros. subst idx v1 v2 v3. cbn [commits].
    rewrite three_versions_sorted. split; [done|].
    do 2 eexists. split; [apply three_versions_tree|]. done.
Qed.


(** *** The sort of loadCommits *)

Lemma sink_Permutation {A} (cmp : A -> A -> Z) x l : sink cmp x l ≡ₚ x :: l.
Proof.
  induction l as [|y l IH]; simpl; [done|].
  destruct (cmp x y <? 0); [|done]. rewrite IH. apply Permutation_swap.
Qed.

Lemma slices_SortFunc_Permutation {A} (cmp : A -> A -> Z) l :
  slices_SortFunc cmp l ≡ₚ l.
Proof.
  unfold slices_SortFunc. rewrite <- Permutation_rev.
  assert (H : forall acc, fold_left (fun s x => sink cmp x s) l acc ≡ₚ acc ++ l).
  { induction l as [|x l IH]; intros acc; simpl; [by rewrite app_nil_r|].
    rewrite IH, sink_Permutation. by rewrite <- Permutation_middle. }
  by rewrite H.
Qed.

Lemma wrap64_small z : - 2 ^ 63 <= z < 2 ^ 63 -> wrap64 z = z.
Proof. intros H. unfold wrap64. rewrite Z.mod_small; lia. Qed.

Lemma string_compare_refl s : String.compare s s = Eq.
Proof.
  pose proof (String.compare_antisym s s) as H.
  by destruct (String.compare s s).
Qed.

Lemma string_compare_Lt_trans a b c :
  String.compare a b = Lt -> String.compare b c = Lt -> String.compare a c = Lt.
Proof.
  intros H1 H2.
  apply OrderedTypeEx.String_as_OT.cmp_lt.
  eapply OrderedTypeEx.String_as_OT.lt_trans;
    by apply OrderedTypeEx.String_as_OT.cmp_lt.
Qed.

Lemma cmpCommits_lt (a b : commit) :
  0 <= version a <= int_max -> 0 <= version b <= int_max ->
  (cmpCommits a b <? 0) = true <->
  (String.compare (path a) (path b) = Lt \/
   (path a = path b /\ version b < version a)).
Proof.
  unfold int_max. intros Ha Hb. unfold cmpCommits, strings_Compare.
  destruct (String.compare (path a) (path b)) eqn:Hc; simpl.
  - apply String.compare_eq_iff in Hc. rewrite wrap64_small by lia.
    rewrite Z.ltb_lt. split; [intros; right; split; [done|lia]|].
    intros [?|[_ ?]]; [done|lia].
  - split; [by left|done].
  - split; [done|]. intros [?|[Hp _]]; [done|].
    rewrite Hp, string_compare_refl in Hc. done.
Qed.

Lemma inOrder_trans (a b c : commit) : inOrder a b -> inOrder b c -> inOrder a c.
Proof.
  unfold inOrder. intros [H1|[H1 H1']] [H2|[H2 H2']].
  - left. by eapply string_compare_Lt_trans.
  - left. by rewrite <- H2.
  - left. by rewrite H1.
  - right. split; [congruence|lia].
Qed.

Lemma cmpCommits_ge_inOrder (x y : commit) :
  0 <= version x <= int_max -> 0 <= version y <= int_max ->
  (cmpCommits x y <? 0) = false -> inOrder y x.
Proof.
  intros Hx Hy Hc. unfold inOrder.
  destruct (String.compare (path y) (path x)) eqn:Hyx.
  - right. apply String.compare_eq_iff in Hyx. split; [done|].
    destruct (Z.le_gt_cases (version x) (version y)) as [|Hlt]; [done|].
    assert ((cmpCommits x y <? 0) = true); [|congruence].
    apply cmpCommits_lt; [done..|]. right. split; [done|lia].
  - by left.
  - assert ((cmpCommits x y <? 0) = true); [|congruence].
    apply cmpCommits_lt; [done..|]. left.
    rewrite String.compare_antisym, Hyx. done.
Qed.

Lemma sink_sorted (x : commit) (l : list commit) :
  0 <= version x <= int_max ->
  Forall (fun c => 0 <= version c <= int_max) l ->
  StronglySorted (flip inOrder) l ->
  StronglySorted (flip inOrder) (sink cmpCommits x l).
Proof.
  intros Hx. induction l as [|y ys IH]; simpl; intros Hl Hs.
  - repeat constructor.
  - apply StronglySorted_cons in Hs as [Hy Hs].
    inversion Hl as [|? ? Hvy Hvys]; subst.
    destruct (cmpCommits x y <? 0) eqn:Hc.
    + apply StronglySorted_cons. split; [|by apply IH].
      apply Forall_forall. intros z Hz.
      rewrite sink_Permutation in Hz. apply elem_of_cons in Hz as [->|Hz].
      * apply cmpCommits_lt in Hc; [|done..]. unfold flip, inOrder.
        destruct Hc as [?|[? ?]]; [by left|right; split; [done|lia]].
      * by eapply Forall_forall in Hy.
    + assert (Hyx : inOrder y x) by by apply cmpCommits_ge_inOrder.
      apply StronglySorted_cons. split.
      * constructor; [done|]. apply Forall_forall. intros z Hz.
        eapply Forall_forall in Hy; [|done]. unfold flip in *.
        by eapply inOrder_trans.
      * by apply StronglySorted_cons.
Qed.

Lemma StronglySorted_rev {A} (R : relation A) l :
  StronglySorted (flip R) l -> StronglySorted R (rev l).
Proof.
  induction l as [|x l IH]; simpl; intros Hs; [constructor|].
  apply StronglySorted_cons in Hs as [Hx Hs].
  apply StronglySorted_app. split_and!; [|by apply IH|repeat constructor].
  intros a b Ha Hb. apply list_elem_of_singleton in Hb as ->.
  apply list_elem_of_In, in_rev, list_elem_of_In in Ha.
  by eapply Forall_forall in Hx.
Qed.

Lemma slices_SortFunc_sorted (l : list commit) :
  Forall (fun c => 0 <= version c <= int_max) l ->
  StronglySorted inOrder (slices_SortFunc cmpCommits l).
Proof.
  intros Hl. unfold slices_SortFunc. apply StronglySorted_rev.
  assert (H : forall acc,
    Forall (fun c => 0 <= version c <= int_max) acc ->
    StronglySorted (flip inOrder) acc ->
    StronglySorted (flip inOrder)
      (fold_left (fun s x => sink cmpCommits x s) l acc)).
  { induction l as [|x l IH]; simpl; intros acc Hacc Hs; [done|].
    inversion Hl as [|? ? Hx Hl']; subst. apply IH; [done| |].
    - rewrite sink_Permutation. by constructor.
    - by apply sink_sorted. }
  apply H; constructor.
Qed.

(** Two records in this order that are of one path come with descending
    versions. *)
Lemma inOrder_same_path (a b : commit) :
  path a = path b -> inOrder a b -> version b <= version a.
Proof.
  intros Hp [Hlt|[_ ?]]; [|done].
  by rewrite Hp, string_compare_refl in Hlt.
Qed.

Lemma filter_path_descending (cs : list commit) P :
  StronglySorted inOrder cs ->
  StronglySorted (fun a b => version b <= version a)
    (List.filter (fun c => String.eqb (path c) P) cs).
Proof.
  induction cs as [|c cs IH]; simpl; intros Hs; [constructor|].
  apply StronglySorted_cons in Hs as [Hc Hs].
  destruct (String.eqb (path c) P) eqn:Hp; [|by apply IH].
  apply String.eqb_eq in Hp. apply StronglySorted_cons. split; [|by apply IH].
  apply Forall_forall. intros z [Hz Hzp]%elem_of_bool_filter.
  apply String.eqb_eq in Hzp. apply inOrder_same_path; [congruence|].
  by eapply Forall_forall in Hc.
Qed.

(** *** filter *)

Lemma derefs_filterFrom p (cs : list commit) : forall (pre : list commit) acc,
  omap (fun j => (pre ++ cs) !! j) (filterFrom p (length pre) cs acc) =
  omap (fun j => (pre ++ cs) !! j) acc ++
  List.filter (fun c => String.eqb (path c) p) cs.
Proof.
  induction cs as [|c cs IH]; simpl; intros pre acc.
  - by rewrite !app_nil_r.
  - specialize (IH (pre ++ [c])). rewrite length_app in IH. simpl in IH.
    rewrite Nat.add_1_r, <- app_assoc in IH. simpl in IH. rewrite IH.
    destruct (String.eqb (path c) p); [|done].
    rewrite omap_app. simpl. rewrite list_lookup_middle by done.
    by rewrite <- app_assoc.
Qed.

Lemma derefs_seq (cs : list commit) : forall pre : list commit,
  omap (fun j => (pre ++ cs) !! j) (seq (length pre) (length cs)) = cs.
Proof.
  induction cs as [|c cs IH]; simpl; intros pre; [done|].
  rewrite list_lookup_middle by done. f_equal.
  specialize (IH (pre ++ [c])). rewrite length_app in IH. simpl in IH.
  by rewrite Nat.add_1_r, <- app_assoc in IH.
Qed.

Lemma scanCommits_int raws n (recs : list commit) :
  scanCommits raws n [] = Loaded recs ->
  Forall (fun c => is_int (version c)) recs.
Proof.
  intros (new & -> & Hall)%scanCommits_Loaded. simpl.
  induction Hall as [|raw c raws new [_ Hc] _ IH]; constructor; [|done].
  apply deserializeCommit_Ok in Hc.
  destruct Hc as (p0 & p1 & p2 & p3 & p4 & p5 & p6 & t & v & b & k
                  & _ & _ & Hv & _ & _ & ->).
  simpl. by eapply strconv_Atoi_range.
Qed.

(** Two records that may each come before the other agree on path and
    version; in a slice without two records of one path and version they
    are one record, so that slice has one arrangement in this order. *)
Lemma inOrder_antisym (a b : commit) :
  inOrder a b -> inOrder b a -> path a = path b /\ version a = version b.
Proof.
  intros [H1|[H1 H1']] [H2|[H2 H2']].
  - pose proof (string_compare_Lt_trans _ _ _ H1 H2) as H.
    by rewrite string_compare_refl in H.
  - by rewrite H2, string_compare_refl in H1.
  - by rewrite H1, string_compare_refl in H2.
  - split; [done|lia].
Qed.

Lemma NoDup_map_elem_inj {A B} (f : A -> B) (l : list A) x y :
  NoDup (map f l) -> x ∈ l -> y ∈ l -> f x = f y -> x = y.
Proof.
  induction l as [|z l IH]; simpl; intros Hn Hx Hy Hf.
  - by apply elem_of_nil in Hx.
  - apply NoDup_cons in Hn as [Hz Hn].
    assert (Hin : forall w, w ∈ l -> f w ∈ map f l).
    { intros w Hw. apply list_elem_of_In, in_map. by apply list_elem_of_In. }
    apply elem_of_cons in Hx as [->|Hx]; apply elem_of_cons in Hy as [->|Hy].
    + done.
    + exfalso. apply Hz. rewrite Hf. by apply Hin.
    + exfalso. apply Hz. rewrite <- Hf. by apply Hin.
    + by apply IH.
Qed.

Lemma inOrder_arrangement_unique (cs cs' : list commit) :
  NoDup (map (fun c => (path c, version c)) cs) ->
  cs' ≡ₚ cs -> StronglySorted inOrder cs -> StronglySorted inOrder cs' ->
  cs' = cs.
Proof.
  intros Hn Hperm Hs Hs'.
  apply (StronglySorted_unique_strong inOrder); [|done..].
  intros x1 x2 Hx1 Hx2 H12 H21. rewrite Hperm in Hx1.
  destruct (inOrder_antisym _ _ H12 H21) as [Hp Hv].
  eapply NoDup_map_elem_inj; [exact Hn|done..|]. simpl. by rewrite Hp, Hv.
Qed.

(** C7 (amended). For a path P other than the empty string, filter returns
    exactly the commits of the index whose path is P, in the order of the
    index, and for the empty string it returns all commits of the index.
    The index is the log as loadCommits has sorted it: it holds the records
    of the log, each as often as the log does, in another order than that
    of the lines. When no record has a negative version (the comparison
    [b.version - a.version] does not wrap then) the index is ascending by
    path and, within a path, descending by version, so that filter returns
    the commits of a path newest first; and when, besides, no two records
    agree on path and version, this is the only arrangement of the records
    in that order, whatever algorithm has sorted them. *)
Theorem C7_filter_in_index_order :
  (forall (idx : index) (P : string), P <> EmptyString ->
     derefs idx (filter idx P) =
     List.filter (fun c => String.eqb (path c) P) (commits idx)) /\
  (forall idx : index, derefs idx (filter idx EmptyString) = commits idx) /\
  (forall (d : disk) cs, loadCommits d = Loaded cs ->
     exists recs, Sgvc.logRecords time_Parse d = Loaded recs /\ cs ≡ₚ recs) /\
  (forall (d : disk) cs, loadCommits d = Loaded cs ->
     (forall c, c ∈ cs -> 0 <= version c) ->
     StronglySorted inOrder cs /\
     (forall P, StronglySorted (fun a b => version b <= version a)
                  (List.filter (fun c => String.eqb (path c) P) cs)) /\
     (NoDup (map (fun c => (path c, version c)) cs) ->
      forall cs', cs' ≡ₚ cs -> StronglySorted inOrder cs' -> cs' = cs)).
Proof.
  assert (Hload : forall (d : disk) cs, loadCommits d = Loaded cs ->
     exists recs, Sgvc.logRecords time_Parse d = Loaded recs /\
                  cs = slices_SortFunc cmpCommits recs /\ cs ≡ₚ recs).
  { intros d cs. unfold Sgvc.loadCommits, Sgvc.logRecords.
    destruct (scanCommits _ _ _) as [recs| |]; [|done..].
    intros [= <-]. exists recs. split_and!; [done..|].
    apply slices_SortFunc_Permutation. }
  split; [|split; [|split]].
  - intros idx P HP. unfold derefs, filter.
    apply String.eqb_neq in HP. rewrite HP.
    exact (derefs_filterFrom P (commits idx) [] []).
  - intros idx. unfold derefs, filter. simpl.
    apply (derefs_seq (commits idx) []).
  - intros d cs Hcs. destruct (Hload d cs Hcs) as (recs & Hrecs & _ & Hperm).
    by exists recs.
  - intros d cs Hcs Hpos.
    destruct (Hload d cs Hcs) as (recs & Hrecs & -> & Hperm).
    assert (Hs : StronglySorted inOrder (slices_SortFunc cmpCommits recs)).
    { apply slices_SortFunc_sorted. apply scanCommits_int in Hrecs.
      apply Forall_forall. intros c Hc.
      eapply Forall_forall in Hrecs; [|done]. destruct Hrecs as [_ Hmax].
      split; [|done]. apply Hpos. by rewrite Hperm. }
    split; [done|]. split; [intros P; by apply filter_path_descending|].
    intros Hn cs' Hperm' Hs'. by apply inOrder_arrangement_unique.
Qed.

(** *** commit: the base version *)

Lemma currVersion_nonneg (idx : index) p : 0 <= currVersion idx p.
Proof.
  unfold currVersion. generalize (commits idx). intros cs.
  assert (H : forall v, 0 <= v ->
    0 <= fold_left (fun v cmt =>
           if String.eqb (path cmt) p && (version cmt >? v) then version cmt
           else v) cs v).
  { induction cs as [|c cs IH]; simpl; intros v Hv; [done|].
    apply IH. destruct (String.eqb (path c) p && (version c >? v)) eqn:Hc; [|done].
    apply andb_true_iff in Hc as [_ Hc]. apply Z.gtb_lt in Hc. lia. }
  by apply H.
Qed.

(** C3 (amended). When basedOn is not 0 and above the current version of
    the path, commit fails and performs no durable write: the index file and
    the store are as before and no system call was issued on the work
    directory. The error is the invalid-base error whenever the working file
    could be read; commit reads the working file first and returns the read
    error when that fails. *)
Theorem C3_invalid_base_no_write (idx : index) (d : disk)
    (env : commit_env Time) (p : string) (base : Z) (msg : string) :
  base <> 0 -> base > currVersion idx p ->
  (forall data, working_file env = Some data ->
     index_commit idx d env p base msg = (Some (InvalidBaseVersion base), d, [])) /\
  (working_file env = None ->
     index_commit idx d env p base msg = (Some (ReadFailed p), d, [])) /\
  (exists e, index_commit idx d env p base msg = (Some e, d, [])).
Proof.
  intros Hne Hgt. unfold Sgvc.index_commit.
  assert (Hc : negb (base =? 0) && (base >? currVersion idx p) = true).
  { apply andb_true_iff. split.
    - apply negb_true_iff. by apply Z.eqb_neq.
    - apply Z.gtb_lt. lia. }
  rewrite Hc. destruct (working_file env); split_and!; try done; by eauto.
Qed.

(** *** commit: a negative base version *)

(** C9 (amended). Whenever commit returns no error, or has changed the
    index file, its basedOn argument is 0 or at most the current version of
    the path. A negative basedOn is not rejected: it passes the check, and
    with the working file read and no failing system call commit returns no
    error and appends the line of a commit whose basedOn is that negative
    number. *)
Theorem C9_base_at_most_current (idx : index) (d : disk)
    (env : commit_env Time) (p : string) (base : Z) (msg : string) :
  (forall err d' tr,
     index_commit idx d env p base msg = (err, d', tr) ->
     err = None \/ index_file d' <> index_file d ->
     base = 0 \/ base <= currVersion idx p) /\
  (forall data,
     base < 0 -> working_file env = Some data -> fault env = NoFault ->
     let cmt := newCommit idx env p base msg data in
     basedOn cmt = base /\
     index_commit idx d env p base msg =
       (None,
        {| index_file := String.append (index_file d) (logLine cmt);
           store := <[filePath idx cmt := data]> (store d) |},
        [EvWriteFile (filePath idx cmt) data true; EvOpenIndex true;
         EvAppendIndex (logLine cmt) true])).
Proof.
  split.
  - intros err d' tr. unfold Sgvc.index_commit.
    destruct (working_file env) as [data|].
    2: { intros [= <- <- _] [?|?]; done. }
    destruct (negb (base =? 0) && (base >? currVersion idx p)) eqn:Hc.
    { intros [= <- <- _] [?|?]; done. }
    intros _ _. apply andb_false_iff in Hc as [Hc|Hc].
    + left. apply negb_false_iff in Hc. by apply Z.eqb_eq.
    + right. rewrite Z.gtb_ltb in Hc. by apply Z.ltb_ge.
  - intros data Hneg Hw Hf cmt. split; [done|].
    unfold Sgvc.index_commit. rewrite Hw, Hf.
    pose proof (currVersion_nonneg idx p) as Hcur.
    assert (Hc : negb (base =? 0) && (base >? currVersion idx p) = false).
    { apply andb_false_iff. right. rewrite Z.gtb_ltb. apply Z.ltb_ge. lia. }
    by rewrite Hc.
Qed.

End Properties.


(** ** Histories of plain commits *)

(** *** Strings *)

Lemma append_nil_l (t : string) : String.append EmptyString t = t.
Proof. reflexivity. Qed.

Lemma append_cons c (s t : string) :
  String.append (String c s) t = String c (String.append s t).
Proof. reflexivity. Qed.

Lemma ascii_eqb_refl c : Ascii.eqb c c = true.
Proof. by apply Ascii.eqb_eq. Qed.

Ltac app_simpl := rewrite ?append_nil_l, ?append_cons; simpl.

Lemma length_append (s t : string) :
  String.length (String.append s t) = (String.length s + String.length t)%nat.
Proof. induction s as [|c s IH]; app_simpl; [done | by rewrite IH]. Qed.

Lemma append_assoc (s t u : string) :
  String.append (String.append s t) u = String.append s (String.append t u).
Proof. induction s as [|c s IH]; app_simpl; [done | by rewrite IH]. Qed.

Lemma append_nil_r (s : string) : String.append s EmptyString = s.
Proof. induction s as [|c s IH]; app_simpl; [done | by rewrite IH]. Qed.

Lemma has_char_cons c a r :
  has_char c (String a r) = Ascii.eqb a c || has_char c r.
Proof. reflexivity. Qed.

Lemma has_char_app c s t :
  has_char c (String.append s t) = has_char c s || has_char c t.
Proof.
  induction s as [|a s IH]; app_simpl; [done|]. by rewrite IH, orb_assoc.
Qed.

Lemma strings_Split_nonempty sep s : strings_Split sep s <> [].
Proof.
  induction s as [|c s IH]; simpl; [done|].
  destruct (Ascii.eqb c sep); [done|]. by destruct (strings_Split sep s).
Qed.

Lemma strings_Split_plain sep f :
  has_char sep f = false -> strings_Split sep f = [f].
Proof.
  induction f as [|c f IH]; simpl; [done|].
  intros [Hc Hf]%orb_false_iff. rewrite Hc, IH by done. done.
Qed.

Lemma strings_Split_app sep f rest :
  has_char sep f = false ->
  strings_Split sep (String.append f (String sep rest)) = f :: strings_Split sep rest.
Proof.
  induction f as [|c f IH]; app_simpl.
  - intros _. by rewrite ascii_eqb_refl.
  - intros [Hc Hf]%orb_false_iff. rewrite Hc, IH by done. done.
Qed.

Lemma strings_Split_Join sep fs :
  fs <> [] -> Forall (fun f => has_char sep f = false) fs ->
  strings_Split sep (strings_Join sep fs) = fs.
Proof.
  induction fs as [|f fs IH]; [done|]. intros _ Hall.
  inversion Hall as [|? ? Hf Hfs]; subst.
  destruct fs as [|g fs]; simpl.
  - by apply strings_Split_plain.
  - rewrite strings_Split_app by done. f_equal. by apply IH.
Qed.

Lemma has_char_Join c sep fs :
  Ascii.eqb sep c = false ->
  Forall (fun f => has_char c f = false) fs ->
  has_char c (strings_Join sep fs) = false.
Proof.
  intros Hsep. induction fs as [|f fs IH]; [done|]. intros Hall.
  inversion Hall as [|? ? Hf Hfs]; subst.
  destruct fs as [|g fs]; simpl; [done|].
  rewrite has_char_app, Hf. simpl. rewrite Hsep. simpl. by apply IH.
Qed.

Lemma raw_lines_app l rest :
  has_char lf l = false ->
  raw_lines (String.append l (String lf rest)) = l :: raw_lines rest.
Proof.
  induction l as [|c l IH]; app_simpl.
  - done.
  - intros [Hc Hl]%orb_false_iff. rewrite Hc, IH by done. done.
Qed.

Lemma raw_lines_unlines ls :
  Forall (fun l => has_char lf l = false) ls -> raw_lines (unlines ls) = ls.
Proof.
  induction 1 as [|l ls Hl Hls IH]; simpl; [done|].
  rewrite raw_lines_app by done. by rewrite IH.
Qed.

Lemma unlines_snoc ls l :
  unlines (ls ++ [l]) =
  String.append (unlines ls) (String.append l (String lf EmptyString)).
Proof.
  induction ls as [|x ls IH]; simpl; [done|].
  rewrite IH, append_assoc. by rewrite append_cons.
Qed.

Lemma dropCR_id s : ends_with cr s = false -> dropCR s = s.
Proof.
  induction s as [|c s IH]; simpl; [done|].
  destruct s as [|c' s'].
  - by intros ->.
  - intros H. by rewrite IH.
Qed.

Lemma ends_with_plain c s : has_char c s = false -> ends_with c s = false.
Proof.
  induction s as [|a s IH]; simpl; [done|].
  intros [Ha Hs]%orb_false_iff. destruct s; [done | by apply IH].
Qed.

Lemma ends_with_app c s a t :
  ends_with c (String.append s (String a t)) = ends_with c (String a t).
Proof.
  induction s as [|b s IH]; [done|]. rewrite append_cons.
  destruct s as [|b' s']; [done|]. rewrite append_cons in *. exact IH.
Qed.

Lemma ends_with_Join c sep fs f :
  Ascii.eqb sep c = false -> has_char c f = false ->
  ends_with c (strings_Join sep (fs ++ [f])) = false.
Proof.
  intros Hsep Hf. induction fs as [|g fs IH]; simpl.
  - by apply ends_with_plain.
  - destruct (fs ++ [f]) as [|h r] eqn:Hr; [by destruct fs|].
    rewrite ends_with_app.
    destruct (strings_Join sep (h :: r)) as [|a J]; [exact Hsep | exact IH].
Qed.

Lemma append_inv_head (s t u : string) :
  String.append s t = String.append s u -> t = u.
Proof.
  induction s as [|c s IH]; rewrite ?append_nil_l, ?append_cons; [done|].
  intros [= H]. by apply IH.
Qed.

(** *** Counting the separators of a line *)

Lemma strings_Split_length sep s :
  length (strings_Split sep s) = S (count_char sep s).
Proof.
  induction s as [|c s IH]; [done|].
  cbn [strings_Split count_char].
  destruct (Ascii.eqb c sep); cbn [length]; [by rewrite IH|].
  destruct (strings_Split sep s); [done|]. cbn [length] in *. lia.
Qed.

Lemma count_char_app c s t :
  count_char c (String.append s t) = (count_char c s + count_char c t)%nat.
Proof.
  induction s as [|a s IH]; rewrite ?append_nil_l, ?append_cons; [done|].
  cbn [count_char]. rewrite IH. lia.
Qed.

Lemma count_char_has_char c s : has_char c s = true -> (1 <= count_char c s)%nat.
Proof.
  induction s as [|a s IH]; [done|]. rewrite has_char_cons. cbn [count_char].
  destruct (Ascii.eqb a c); [lia|]. simpl. intros H. apply IH in H. lia.
Qed.

Lemma count_char_Join sep f fs :
  (count_char sep f + length fs <= count_char sep (strings_Join sep (f :: fs)))%nat.
Proof.
  revert f. induction fs as [|g fs IH]; intros f.
  - simpl. lia.
  - change (strings_Join sep (f :: g :: fs))
      with (String.append f (String sep (strings_Join sep (g :: fs)))).
    rewrite count_char_app. cbn [count_char length].
    rewrite ascii_eqb_refl. specialize (IH g). lia.
Qed.

Lemma count_char_dropCR c s :
  Ascii.eqb cr c = false -> count_char c (dropCR s) = count_char c s.
Proof.
  intros Hc. induction s as [|a s IH]; [done|].
  destruct s as [|b s'].
  - cbn [dropCR count_char]. destruct (Ascii.eqb a cr) eqn:Ha; [|done].
    apply Ascii.eqb_eq in Ha as ->. by rewrite Hc.
  - change (dropCR (String a (String b s'))) with (String a (dropCR (String b s'))).
    cbn [count_char] in *. by rewrite IH.
Qed.

(** *** Decimal numbers: what the %d verb prints, Atoi and ParseUint read *)

Lemma parse_digits_of_uint_acc d : forall acc,
  parse_digits (NilEmpty.string_of_uint d) (Z.pos acc) =
  Some (Z.pos (Pos.of_uint_acc d acc)).
Proof.
  induction d as [|d IH|d IH|d IH|d IH|d IH|d IH|d IH|d IH|d IH|d IH];
    intros acc; simpl; [done|..];
    (etransitivity; [|apply IH]); f_equal; lia.
Qed.

Lemma parse_digits_of_uint d :
  parse_digits (NilEmpty.string_of_uint d) 0 = Some (Z.of_N (Pos.of_uint d)).
Proof.
  induction d as [|d IH|d IH|d IH|d IH|d IH|d IH|d IH|d IH|d IH|d IH];
    simpl; [done|exact IH|..];
    (etransitivity; [|apply parse_digits_of_uint_acc]); done.
Qed.

Lemma fmt_udec_not_empty n : fmt_udec n <> EmptyString.
Proof.
  unfold fmt_udec. destruct (Z.to_N n) as [|p]; [done|]. simpl.
  pose proof (DecimalPos.Unsigned.to_uint_nonnil p) as Hnil.
  unfold NilZero.string_of_uint.
  destruct (Pos.to_uint p) eqn:Hp; done.
Qed.

Lemma parse_digits_fmt_udec n :
  0 <= n -> parse_digits (fmt_udec n) 0 = Some n.
Proof.
  intros Hn. unfold fmt_udec.
  assert (H : parse_digits (NilEmpty.string_of_uint (N.to_uint (Z.to_N n))) 0
              = Some n).
  { rewrite parse_digits_of_uint.
    change (Pos.of_uint (N.to_uint (Z.to_N n))) with (N.of_uint (N.to_uint (Z.to_N n))).
    rewrite DecimalN.Unsigned.of_to. f_equal. lia. }
  unfold NilZero.string_of_uint.
  destruct (N.to_uint (Z.to_N n)) eqn:Hu; exact H.
Qed.

Lemma parse_digits_zeros k s acc :
  acc = 0 -> parse_digits (String.append (zeros k) s) acc = parse_digits s 0.
Proof.
  intros ->. induction k as [|k IH]; simpl; [done|].
  rewrite ?append_cons. simpl. exact IH.
Qed.

Lemma parse_decimal_pad w n :
  0 <= n -> parse_decimal (pad_zeros w (fmt_udec n)) = Some n.
Proof.
  intros Hn. unfold parse_decimal, pad_zeros.
  destruct (String.append _ _) eqn:Hs.
  - exfalso. apply (f_equal String.length) in Hs.
    rewrite length_append in Hs. simpl in Hs.
    pose proof (fmt_udec_not_empty n). destruct (fmt_udec n); [done|].
    simpl in Hs. lia.
  - rewrite <- Hs, parse_digits_zeros by done. by apply parse_digits_fmt_udec.
Qed.

(** A string that parses as digits has no other character in it. *)
Lemma parse_digits_has_char c s : forall acc z,
  digit_val c = None -> parse_digits s acc = Some z -> has_char c s = false.
Proof.
  induction s as [|a s IH]; simpl; intros acc z Hc Hp; [done|].
  destruct (digit_val a) as [dv|] eqn:Ha; [|done].
  apply orb_false_iff. split; [|by eapply IH].
  apply Ascii.eqb_neq. intros ->. congruence.
Qed.

Lemma parse_decimal_has_char c s z :
  digit_val c = None -> parse_decimal s = Some z -> has_char c s = false.
Proof.
  destruct s; [done|]. unfold parse_decimal. apply parse_digits_has_char.
Qed.

(** A string that starts with a digit is read without a sign. *)
Lemma strconv_Atoi_unsigned s z :
  parse_decimal s = Some z -> z < 2 ^ 63 -> strconv_Atoi s = Some z.
Proof.
  intros Hp Hz. 
  assert (Hm : has_char "-" s = false) by by eapply parse_decimal_has_char.
  assert (Hq : has_char "+" s = false) by by eapply parse_decimal_has_char.
  unfold strconv_Atoi.
  destruct s as [|c r]; [done|].
  simpl in Hm, Hq. apply orb_false_iff in Hm as [Hm _].
  apply orb_false_iff in Hq as [Hq _].
  apply Ascii.eqb_neq in Hm, Hq.
  assert (Hlt : (z <? 2 ^ 63) = true) by (apply Z.ltb_lt; lia).
  destruct c as [[] [] [] [] [] [] [] []]; try done; by rewrite Hp, Hlt.
Qed.

Lemma strconv_Atoi_fmt_0d w v :
  is_int v -> strconv_Atoi (fmt_0d w v) = Some v.
Proof.
  unfold is_int, int_min, int_max. intros Hv. unfold fmt_0d.
  destruct (v <? 0) eqn:Hneg.
  - apply Z.ltb_lt in Hneg. unfold strconv_Atoi.
    rewrite parse_decimal_pad by lia.
    assert (Hle : (- v <=? 2 ^ 63) = true) by (apply Z.leb_le; lia).
    rewrite Hle. f_equal. lia.
  - apply Z.ltb_ge in Hneg. apply strconv_Atoi_unsigned; [|lia].
    by apply parse_decimal_pad.
Qed.

Lemma strconv_ParseUint_fmt_udec n :
  0 <= n <= uint32_max -> strconv_ParseUint (fmt_udec n) 32 = Some n.
Proof.
  unfold uint32_max. intros Hn. unfold strconv_ParseUint.
  replace (fmt_udec n) with (pad_zeros 0 (fmt_udec n)) by done.
  rewrite parse_decimal_pad by lia.
  assert (Hle : (n <=? 2 ^ 32 - 1) = true) by (apply Z.leb_le; lia).
  by rewrite Hle.
Qed.

Lemma fmt_udec_plain c n :
  0 <= n -> digit_val c = None -> has_char c (fmt_udec n) = false.
Proof.
  intros Hn Hc. eapply parse_digits_has_char; [done|].
  by apply parse_digits_fmt_udec.
Qed.

Lemma fmt_0d_plain c w v :
  digit_val c = None -> Ascii.eqb "-" c = false ->
  has_char c (fmt_0d w v) = false.
Proof.
  intros Hc Hm. unfold fmt_0d. destruct (v <? 0) eqn:Hneg.
  - apply Z.ltb_lt in Hneg. rewrite has_char_cons, Hm. simpl.
    eapply parse_decimal_has_char; [done|]. apply parse_decimal_pad. lia.
  - apply Z.ltb_ge in Hneg.
    eapply parse_decimal_has_char; [done|]. by apply parse_decimal_pad.
Qed.

(** *** The checksum is a uint32 *)

Lemma lxor_bound n a b :
  0 < n -> 0 <= a < 2 ^ n -> 0 <= b < 2 ^ n -> 0 <= Z.lxor a b < 2 ^ n.
Proof.
  intros Hn Ha Hb.
  assert (H0 : 0 <= Z.lxor a b) by (apply Z.lxor_nonneg; lia).
  split; [done|].
  destruct (Z.eq_dec (Z.lxor a b) 0) as [->|Hne];
    [apply Z.pow_pos_nonneg; lia|].
  apply Z.log2_lt_pow2; [lia|].
  pose proof (Z.log2_lxor a b ltac:(lia) ltac:(lia)) as Hl.
  assert (Z.log2 a < n).
  { destruct (Z.eq_dec a 0) as [->|]; [simpl; lia|]. apply Z.log2_lt_pow2; lia. }
  assert (Z.log2 b < n).
  { destruct (Z.eq_dec b 0) as [->|]; [simpl; lia|]. apply Z.log2_lt_pow2; lia. }
  lia.
Qed.

Ltac pow32 := change (2 ^ 32) with 4294967296 in *.

Lemma crc32_shift_bound c : 0 <= c < 2 ^ 32 -> 0 <= crc32_shift c < 2 ^ 32.
Proof.
  intros Hc. unfold crc32_shift.
  assert (Hs : 0 <= Z.shiftr c 1 < 2 ^ 32).
  { rewrite Z.shiftr_div_pow2 by lia. change (2 ^ 1) with 2.
    split; [apply Z.div_pos; lia|].
    apply Z.div_lt_upper_bound; lia. }
  destruct (Z.testbit c 0); [|done].
  apply lxor_bound; [lia|done|]. unfold crc32_poly. pow32. lia.
Qed.

Lemma crc32_update_bound c b : 0 <= c < 2 ^ 32 -> 0 <= crc32_update c b < 2 ^ 32.
Proof.
  intros Hc. unfold crc32_update.
  assert (Hb : 0 <= Z.of_N (Byte.to_N b) < 2 ^ 32).
  { pose proof (Byte.to_N_bounded b). pow32. lia. }
  pose proof (lxor_bound 32 c _ ltac:(lia) Hc Hb) as Hx.
  generalize dependent (Z.lxor c (Z.of_N (Byte.to_N b))). intros x Hx.
  simpl. do 8 apply crc32_shift_bound. done.
Qed.

Lemma crc32_ChecksumIEEE_range data :
  0 <= crc32_ChecksumIEEE data <= uint32_max.
Proof.
  unfold crc32_ChecksumIEEE, uint32_max.
  assert (H : forall c, 0 <= c < 2 ^ 32 ->
            0 <= fold_left crc32_update data c < 2 ^ 32).
  { induction data as [|b data IH]; simpl; intros c Hc; [done|].
    apply IH. by apply crc32_update_bound. }
  assert (Hff : 0 <= 4294967295 < 2 ^ 32) by (pow32; lia).
  pose proof (lxor_bound 32 (fold_left crc32_update data 4294967295) 4294967295
                ltac:(lia) (H _ Hff) Hff).
  pow32. lia.
Qed.

(** *** The path signature and the file names of the store *)

Lemma hex_val_hex_digit c :
  hex_val (hex_digit (N_of_ascii c / 16)) = (N_of_ascii c / 16)%N /\
  hex_val (hex_digit (N_of_ascii c mod 16)) = (N_of_ascii c mod 16)%N.
Proof. destruct c as [[] [] [] [] [] [] [] []]; vm_compute; done. Qed.

Lemma hex_digits_plain c x :
  x = tab \/ x = lf \/ x = "-"%char ->
  Ascii.eqb (hex_digit (N_of_ascii c / 16)) x = false /\
  Ascii.eqb (hex_digit (N_of_ascii c mod 16)) x = false.
Proof.
  intros [->|[->| ->]]; destruct c as [[] [] [] [] [] [] [] []]; vm_compute; done.
Qed.

Lemma fmt_x_plain x p :
  x = tab \/ x = lf \/ x = "-"%char -> has_char x (fmt_x p) = false.
Proof.
  intros Hx. induction p as [|c p IH]; [done|].
  destruct (hex_digits_plain c x Hx) as [H1 H2].
  change (fmt_x (String c p)) with
    (String (hex_digit (N_of_ascii c / 16))
       (String (hex_digit (N_of_ascii c mod 16)) (fmt_x p))).
  by rewrite !has_char_cons, H1, H2, IH.
Qed.

Lemma pathSignature_plain x p :
  x = tab \/ x = lf \/ x = "-"%char -> has_char x (pathSignature p) = false.
Proof.
  intros Hx. unfold pathSignature. rewrite has_char_app, fmt_x_plain by done.
  destruct Hx as [->|[->| ->]]; vm_compute; done.
Qed.

Lemma fmt_x_length p : String.length (fmt_x p) = (2 * String.length p)%nat.
Proof. induction p as [|c p IH]; simpl; [done|]. rewrite IH. lia. Qed.

Lemma fmt_x_inj p : forall q, fmt_x p = fmt_x q -> p = q.
Proof.
  induction p as [|c p IH]; intros [|c' q]; try done.
  change (fmt_x (String c p)) with
    (String (hex_digit (N_of_ascii c / 16))
       (String (hex_digit (N_of_ascii c mod 16)) (fmt_x p))).
  change (fmt_x (String c' q)) with
    (String (hex_digit (N_of_ascii c' / 16))
       (String (hex_digit (N_of_ascii c' mod 16)) (fmt_x q))).
  intros [= H1 H2 H3].
  apply (f_equal hex_val) in H1, H2.
  destruct (hex_val_hex_digit c) as [E1 E2].
  destruct (hex_val_hex_digit c') as [E1' E2'].
  rewrite E1, E1' in H1. rewrite E2, E2' in H2.
  assert (Hn : N_of_ascii c = N_of_ascii c').
  { rewrite (N.div_mod (N_of_ascii c) 16), (N.div_mod (N_of_ascii c') 16) by done.
    by rewrite H1, H2. }
  f_equal; [|by apply IH].
  by rewrite <- (ascii_N_embedding c), <- (ascii_N_embedding c'), Hn.
Qed.

Lemma append_inj_length s : forall s' t t',
  String.length s = String.length s' ->
  String.append s t = String.append s' t' -> s = s' /\ t = t'.
Proof.
  induction s as [|c s IH]; intros [|c' s'] t t' Hlen; try done.
  rewrite !append_cons. simpl in Hlen. intros [= -> H].
  destruct (IH s' t t' ltac:(lia) H) as [-> ->]. done.
Qed.

Lemma pathSignature_inj p q : pathSignature p = pathSignature q -> p = q.
Proof.
  unfold pathSignature. intros H. apply fmt_x_inj.
  assert (Hlen : String.length (fmt_x p) = String.length (fmt_x q)).
  { apply (f_equal String.length) in H. rewrite !length_append in H. lia. }
  by destruct (append_inj_length _ _ _ _ Hlen H).
Qed.

Lemma append_inj_sep x s : forall s' t t',
  has_char x s = false -> has_char x s' = false ->
  String.append s (String x t) = String.append s' (String x t') ->
  s = s' /\ t = t'.
Proof.
  induction s as [|c s IH]; intros [|c' s'] t t'; rewrite ?append_cons, ?append_nil_l.
  - by intros _ _ [= ->].
  - rewrite has_char_cons. intros _ [Hc _]%orb_false_iff [= <- _].
    by rewrite ascii_eqb_refl in Hc.
  - rewrite has_char_cons. intros [Hc _]%orb_false_iff _ [= -> _].
    by rewrite ascii_eqb_refl in Hc.
  - rewrite !has_char_cons.
    intros [_ Hs]%orb_false_iff [_ Hs']%orb_false_iff [= -> H].
    destruct (IH s' t t' Hs Hs' H) as [-> ->]. done.
Qed.

Section FileNames.
Context {Time : Type}.
Implicit Types c : commit Time.

(** Two commits that carry the signature of their path and an [int] as
    version have the same file name only if they are of one path and one
    version. *)
Lemma fileName_inj c c' :
  pathSig c = pathSignature (path c) -> pathSig c' = pathSignature (path c') ->
  is_int (version c) -> is_int (version c') ->
  fileName c = fileName c' -> path c = path c' /\ version c = version c'.
Proof.
  intros Hs Hs' Hv Hv'. unfold fileName. rewrite Hs, Hs'. intros H.
  apply append_inj_sep in H as [Hp Hver];
    [|by apply pathSignature_plain; auto..].
  split; [by apply pathSignature_inj|].
  apply (f_equal strconv_Atoi) in Hver.
  rewrite !strconv_Atoi_fmt_0d in Hver by done. by injection Hver.
Qed.

Lemma filePath_inj (idx : index Time) c c' :
  pathSig c = pathSignature (path c) -> pathSig c' = pathSignature (path c') ->
  is_int (version c) -> is_int (version c') ->
  filePath idx c = filePath idx c' -> path c = path c' /\ version c = version c'.
Proof.
  intros Hs Hs' Hv Hv'. unfold filePath. intros H.
  apply append_inv_head in H. injection H as H. by apply fileName_inj.
Qed.
End FileNames.

Lemma wrap64_is_int z : is_int (wrap64 z).
Proof.
  unfold is_int, wrap64, int_min, int_max.
  pose proof (Z.mod_pos_bound (z + 2 ^ 63) (2 ^ 64) ltac:(lia)). lia.
Qed.

Lemma fold_max_nonneg l : 0 <= fold_right Z.max 0 l.
Proof. induction l as [|x l IH]; simpl; lia. Qed.

Lemma fold_max_app l l' :
  fold_right Z.max 0 (l ++ l') = Z.max (fold_right Z.max 0 l) (fold_right Z.max 0 l').
Proof.
  induction l as [|x l IH]; simpl.
  - pose proof (fold_max_nonneg l'). lia.
  - rewrite IH. lia.
Qed.

Lemma fold_max_upTo k : fold_right Z.max 0 (upTo k) = Z.of_nat k.
Proof.
  unfold upTo. induction k as [|k IH]; [done|].
  rewrite seq_S, map_app, fold_max_app, IH. simpl. lia.
Qed.

Lemma upTo_S k : upTo (S k) = upTo k ++ [Z.of_nat k + 1].
Proof.
  unfold upTo. rewrite seq_S, map_app. simpl. do 2 f_equal. lia.
Qed.

Lemma upTo_elem k v : v ∈ upTo k -> 1 <= v <= Z.of_nat k.
Proof.
  unfold upTo. intros (n & -> & Hn)%list_elem_of_fmap.
  apply elem_of_seq in Hn. lia.
Qed.


Section History.
Context {Time : Type}.
Context (time_Format : Time -> string).
Context (time_Parse : string -> option Time).
Context (strconv_Quote : string -> string).
Implicit Types (c cmt : commit Time) (cs : list (commit Time)) (idx : index Time).

Set Default Proof Using "Type".

Local Abbreviation getIndex := (Sgvc.getIndex time_Parse).
Local Abbreviation mainAdd := (Sgvc.mainAdd time_Format time_Parse strconv_Quote).
Local Abbreviation mainCat := (Sgvc.mainCat time_Parse).
Local Abbreviation newCommit := (Sgvc.newCommit strconv_Quote).
Local Abbreviation plain := (Sgvc.plain time_Format time_Parse strconv_Quote).
Local Abbreviation committed := (Sgvc.committed time_Format time_Parse strconv_Quote).
Local Abbreviation consistent := (Sgvc.consistent time_Parse).


Lemma versionsOf_cons p c cs :
  versionsOf p (c :: cs) =
  if String.eqb (path c) p then version c :: versionsOf p cs else versionsOf p cs.
Proof. unfold versionsOf. simpl. by destruct (String.eqb (path c) p). Qed.

Lemma versionsOf_app p cs cs' :
  versionsOf p (cs ++ cs') = versionsOf p cs ++ versionsOf p cs'.
Proof. unfold versionsOf. by rewrite List.filter_app, map_app. Qed.

Lemma versionsOf_elem p c cs :
  c ∈ cs -> path c = p -> version c ∈ versionsOf p cs.
Proof.
  intros Hc Hp. unfold versionsOf. apply list_elem_of_fmap. exists c.
  split; [done|]. apply elem_of_bool_filter. split; [done|].
  by apply String.eqb_eq.
Qed.

Lemma versionsOf_logged p cs : forall cs',
  map logged cs = map logged cs' -> versionsOf p cs = versionsOf p cs'.
Proof.
  induction cs as [|c cs IH]; intros [|c' cs']; try done.
  simpl. intros [= Hp Hv _ _ _ _ Hrest]. rewrite !versionsOf_cons, Hp, Hv.
  by rewrite (IH cs' Hrest).
Qed.

Lemma latest_Permutation p cs cs' : cs ≡ₚ cs' -> latest p cs = latest p cs'.
Proof.
  unfold latest. induction 1 as [|c cs cs' _ IH|c c' cs|cs cs' cs'' _ IH1 _ IH2].
  - done.
  - rewrite !versionsOf_cons.
    destruct (String.eqb (path c) p); cbn [fold_right]; [by rewrite IH | done].
  - rewrite !versionsOf_cons.
    destruct (String.eqb (path c) p), (String.eqb (path c') p);
      cbn [fold_right]; lia.
  - by rewrite IH1.
Qed.

Lemma currVersion_latest idx p : currVersion idx p = latest p (commits idx).
Proof.
  unfold currVersion, latest. generalize (commits idx). intros cs.
  assert (H : forall v, 0 <= v ->
    fold_left (fun v cmt =>
        if String.eqb (path cmt) p && (version cmt >? v) then version cmt else v)
      cs v = Z.max v (fold_right Z.max 0 (versionsOf p cs))).
  { induction cs as [|c cs IH]; intros v Hv; cbn [fold_left].
    - unfold versionsOf. cbn [List.filter map fold_right]. lia.
    - rewrite versionsOf_cons.
      destruct (String.eqb (path c) p); cbn [andb fold_right]; [|by apply IH].
      destruct (version c >? v) eqn:Hgt.
      + apply Z.gtb_lt in Hgt. rewrite IH by lia. lia.
      + rewrite Z.gtb_ltb in Hgt. apply Z.ltb_ge in Hgt. rewrite IH by lia. lia. }
  rewrite H by lia. pose proof (fold_max_nonneg (versionsOf p cs)). lia.
Qed.

(** The scanner loop on a file that has grown by lines. *)
Lemma scanCommits_app raws raws' : forall n acc,
  scanCommits time_Parse (raws ++ raws') n acc =
  match scanCommits time_Parse raws n acc with
  | Loaded acc' => scanCommits time_Parse raws' (n + length raws) acc'
  | r => r
  end.
Proof.
  induction raws as [|raw raws IH]; intros n acc; simpl.
  - by rewrite Nat.add_0_r.
  - destruct (too_long raw); [done|].
    destruct (deserializeCommit time_Parse (dropCR raw)); [|done].
    rewrite IH. by replace (S n + length raws)%nat with (n + S (length raws))%nat by lia.
Qed.

(** deserializeCommit reads back what serialize wrote, when the fields
    that are text are plain and the numbers are in range. *)
Lemma deserializeCommit_serialize cmt t' :
  has_char tab (path cmt) = false ->
  has_char tab (time_Format (when cmt)) = false ->
  time_Parse (time_Format (when cmt)) = Some t' ->
  has_char tab (pathSig cmt) = false ->
  has_char tab (changes cmt) = false ->
  is_int (version cmt) -> is_int (basedOn cmt) ->
  0 <= dataCrc cmt <= uint32_max ->
  deserializeCommit time_Parse (serialize time_Format cmt) =
  Ok {| path := path cmt; when := t'; version := version cmt;
        basedOn := basedOn cmt; pathSig := pathSig cmt; dataCrc := dataCrc cmt;
        changes := changes cmt; descs := [] |}.
Proof.
  intros Hp Ht Hparse Hs Hc Hv Hb Hk.
  unfold deserializeCommit, serialize, fields.
  rewrite strings_Split_Join; [|done|].
  - by rewrite Hparse, !strconv_Atoi_fmt_0d, strconv_ParseUint_fmt_udec.
  - repeat constructor; try done.
    + by apply fmt_0d_plain.
    + by apply fmt_0d_plain.
    + apply fmt_udec_plain; [lia|done].
Qed.

Lemma serialize_one_line cmt :
  has_char lf (path cmt) = false ->
  has_char lf (time_Format (when cmt)) = false ->
  has_char lf (pathSig cmt) = false ->
  has_char lf (changes cmt) = false ->
  0 <= dataCrc cmt ->
  has_char lf (serialize time_Format cmt) = false.
Proof.
  intros Hp Ht Hs Hc Hk. unfold serialize, fields.
  apply has_char_Join; [done|]. repeat constructor; try done.
  - by apply fmt_0d_plain.
  - by apply fmt_0d_plain.
  - by apply fmt_udec_plain.
Qed.

Lemma serialize_no_cr_at_end cmt :
  has_char cr (changes cmt) = false ->
  ends_with cr (serialize time_Format cmt) = false.
Proof.
  intros Hc. unfold serialize, fields.
  exact (ends_with_Join cr tab
    [path cmt; time_Format (when cmt); fmt_0d maxVersionLength (version cmt);
     fmt_0d maxVersionLength (basedOn cmt); pathSig cmt; fmt_udec (dataCrc cmt)]
    (changes cmt) eq_refl Hc).
Qed.


Lemma consistent_getIndex cacheDir d h :
  consistent cacheDir d h ->
  exists recs,
    map logged recs = map logged (map fst h) /\
    getIndex cacheDir d =
      Started {| workDir := String.append cacheDir "/sgvc";
                 commitsFile := String.append (String.append cacheDir "/sgvc") "/index";
                 commits := slices_SortFunc cmpCommits recs |}.
Proof.
  intros ((ls & recs & Hfile & Hls & Hrecs & Hlogged) & _ & _).
  exists recs. split; [done|].
  unfold Sgvc.getIndex, loadCommits. by rewrite Hfile, raw_lines_unlines, Hrecs.
Qed.

Lemma versionsOf_length p cs : (length (versionsOf p cs) <= length cs)%nat.
Proof.
  unfold versionsOf. rewrite length_map. apply List.filter_length_le.
Qed.

Lemma plain_inv idx (rq : request Time) data :
  plain idx rq = true -> working_file (rq_env rq) = Some data ->
  let cmt := newCommit idx (rq_env rq) (rq_path rq) (rq_base rq) (rq_msg rq) data in
  (has_char tab (path cmt) = false /\ has_char lf (path cmt) = false) /\
  (has_char tab (time_Format (when cmt)) = false /\
   has_char lf (time_Format (when cmt)) = false) /\
  (exists t', time_Parse (time_Format (when cmt)) = Some t') /\
  (has_char tab (changes cmt) = false /\ has_char lf (changes cmt) = false /\
   has_char cr (changes cmt) = false) /\
  is_int (basedOn cmt) /\
  too_long (serialize time_Format cmt) = false.
Proof.
  unfold Sgvc.plain, plainText. intros H Hw. rewrite Hw in H.
  repeat match goal with
         | H : _ && _ = true |- _ => apply andb_true_iff in H as [? ?]
         | H : negb _ = true |- _ => apply negb_true_iff in H
         | H : (_ <=? _) = true |- _ => apply Z.leb_le in H
         end.
  simpl. split_and!; try done.
  destruct (time_Parse (time_Format (now (rq_env rq)))) as [t'|]; [by eexists|done].
Qed.

Lemma consistent_add cacheDir d h (rq : request Time) idx data d' tr :
  consistent cacheDir d h ->
  Z.of_nat (length h) < int_max ->
  getIndex cacheDir d = Started idx ->
  plain idx rq = true ->
  working_file (rq_env rq) = Some data ->
  mainAdd cacheDir d (rq_env rq) (rq_path rq) (rq_base rq) (rq_msg rq)
    = (None, d', tr) ->
  let cmt := newCommit idx (rq_env rq) (rq_path rq) (rq_base rq) (rq_msg rq) data in
  currVersion idx (rq_path rq)
    = Z.of_nat (length (versionsOf (rq_path rq) (map fst h))) /\
  version cmt = currVersion idx (rq_path rq) + 1 /\
  consistent cacheDir d' (h ++ [(cmt, data)]).
Proof.
  intros Hcons Hlen Hidx Hplain Hw Hadd cmt.
  destruct (consistent_getIndex _ _ _ Hcons) as (recs0 & Hlogged0 & Hidx0).
  rewrite Hidx0 in Hidx. injection Hidx as <-.
  destruct Hcons as ((ls & recs & Hfile & Hls & Hrecs & Hlogged) & Hstore & Hvers).
  set (k := length (versionsOf (rq_path rq) (map fst h))).
  set (idx := {| workDir := String.append cacheDir "/sgvc";
                 commitsFile := String.append (String.append cacheDir "/sgvc") "/index";
                 commits := slices_SortFunc cmpCommits recs0 |}) in *.
  assert (Hcur : currVersion idx (rq_path rq) = Z.of_nat k).
  { rewrite currVersion_latest. simpl.
    rewrite (latest_Permutation (rq_path rq) _ recs0) by apply slices_SortFunc_Permutation.
    unfold latest. rewrite (versionsOf_logged (rq_path rq) recs0 (map fst h)) by done.
    rewrite Hvers. apply fold_max_upTo. }
  assert (Hk : (k <= length h)%nat).
  { unfold k. etransitivity; [apply versionsOf_length|]. by rewrite length_map. }
  assert (Hver : version cmt = Z.of_nat k + 1).
  { unfold cmt. simpl. rewrite Hcur. apply wrap64_small.
    unfold int_max in Hlen. lia. }
  split; [done|]. split; [lia|].
  (* what the run did to the disk *)
  unfold Sgvc.mainAdd in Hadd. rewrite Hidx0 in Hadd. fold idx in Hadd.
  unfold index_commit in Hadd. rewrite Hw in Hadd.
  destruct (negb (rq_base rq =? 0) && (rq_base rq >? currVersion idx (rq_path rq))); [done|].
  fold cmt in Hadd.
  assert (Hd' : d' = {| index_file := String.append (index_file d) (logLine time_Format cmt);
                       store := <[filePath idx cmt := data]> (store d) |}).
  { destruct (fault (rq_env rq)); by simplify_eq. }
  clear Hadd. subst d'.
  destruct (plain_inv idx rq data Hplain Hw)
    as ((Hp1 & Hp2) & (Ht1 & Ht2) & (t' & Hparse) & (Hc1 & Hc2 & Hc3) & Hbase & Hfit).
  fold cmt in Hp1, Hp2, Ht1, Ht2, Hparse, Hc1, Hc2, Hc3, Hbase, Hfit.
  assert (Hsig : pathSig cmt = pathSignature (path cmt)) by done.
  assert (Hcrc : dataCrc cmt = crc32_ChecksumIEEE data) by done.
  assert (Hint : is_int (version cmt)) by apply wrap64_is_int.
  pose proof (crc32_ChecksumIEEE_range data) as Hrange.
  assert (Hline : has_char lf (serialize time_Format cmt) = false).
  { apply serialize_one_line; try done.
    - rewrite Hsig. apply pathSignature_plain. auto.
    - lia. }
  assert (Hread : deserializeCommit time_Parse (dropCR (serialize time_Format cmt)) =
            Ok {| path := path cmt; when := t'; version := version cmt;
                  basedOn := basedOn cmt; pathSig := pathSig cmt;
                  dataCrc := dataCrc cmt; changes := changes cmt; descs := [] |}).
  { rewrite dropCR_id by by apply serialize_no_cr_at_end.
    apply deserializeCommit_serialize; try done.
    rewrite Hsig. apply pathSignature_plain. auto. }
  split_and!.
  - exists (ls ++ [serialize time_Format cmt]), (recs ++
      [{| path := path cmt; when := t'; version := version cmt;
          basedOn := basedOn cmt; pathSig := pathSig cmt;
          dataCrc := dataCrc cmt; changes := changes cmt; descs := [] |}]).
    split_and!.
    + simpl. by rewrite unlines_snoc, Hfile.
    + apply Forall_app. split; [done|]. by constructor.
    + rewrite scanCommits_app, Hrecs. cbn [scanCommits].
      by rewrite Hfit, Hread.
    + rewrite !map_app, Hlogged. done.
  - intros c data0 [Hin|Hin%list_elem_of_singleton]%elem_of_app.
    + destruct (Hstore c data0 Hin) as (Hs & Hc & Hsg & Hi).
      split_and!; try done. simpl.
      rewrite lookup_insert_ne; [done|].
      change (filePath idx cmt <> filePath idx c). intros Heq.
      apply filePath_inj in Heq as [Hpeq Hveq]; try done.
      assert (Hel : version c ∈ versionsOf (rq_path rq) (map fst h)).
      { apply versionsOf_elem; [|done].
        apply list_elem_of_fmap. by exists (c, data0). }
      rewrite Hvers in Hel. apply upTo_elem in Hel. fold k in Hel. lia.
    + injection Hin as -> ->. split_and!; try done. simpl.
      apply lookup_insert_eq.
  - intros q. rewrite map_app, versionsOf_app, length_app.
    change (map fst [(cmt, data)]) with [cmt].
    rewrite (versionsOf_cons q cmt []).
    change (versionsOf q []) with (@nil Z).
    destruct (String.eqb (path cmt) q) eqn:Hq.
    + apply String.eqb_eq in Hq. subst q. cbn [length].
      rewrite Nat.add_1_r, upTo_S. f_equal; [apply Hvers|].
      rewrite Hver. done.
    + cbn [length]. rewrite Nat.add_0_r, app_nil_r. apply Hvers.
Qed.


Lemma committed_consistent cacheDir d h :
  committed cacheDir d h -> Z.of_nat (length h) <= int_max ->
  consistent cacheDir d h.
Proof.
  induction 1 as [st|d h rq idx data d' tr Hc IH Hidx Hplain Hw Hadd]; intros Hlen.
  - split_and!.
    + exists [], []. split_and!; done.
    + intros c data Hin. by apply not_elem_of_nil in Hin.
    + done.
  - rewrite length_app in Hlen. simpl in Hlen.
    eapply consistent_add; try done; [apply IH|]; lia.
Qed.

Lemma versionsOf_Permutation p cs cs' :
  cs ≡ₚ cs' -> versionsOf p cs ≡ₚ versionsOf p cs'.
Proof.
  induction 1 as [|c cs cs' _ IH|c c' cs|cs cs' cs'' _ IH1 _ IH2].
  - done.
  - rewrite !versionsOf_cons. destruct (String.eqb (path c) p); [by constructor|done].
  - rewrite !versionsOf_cons.
    destruct (String.eqb (path c) p), (String.eqb (path c') p);
      try done. apply Permutation_swap.
  - by etransitivity.
Qed.

Lemma logged_elem (recs : list (commit Time)) (h : list (commit Time * list byte)) r :
  map logged recs = map logged (map fst h) -> r ∈ recs ->
  exists c data, (c, data) ∈ h /\ logged c = logged r.
Proof.
  intros Hl Hr.
  assert (Hin : logged r ∈ map logged (map fst h)).
  { rewrite <- Hl. apply list_elem_of_fmap. by exists r. }
  apply list_elem_of_fmap in Hin as (c & Hc & Hin).
  apply list_elem_of_fmap in Hin as ([c' data] & -> & Hin).
  by exists c', data.
Qed.

Lemma logged_elem_rev (recs : list (commit Time)) (h : list (commit Time * list byte)) c data :
  map logged recs = map logged (map fst h) -> (c, data) ∈ h ->
  exists r, r ∈ recs /\ logged r = logged c.
Proof.
  intros Hl Hc.
  assert (Hin : logged c ∈ map logged recs).
  { rewrite Hl. apply list_elem_of_fmap. exists c. split; [done|].
    apply list_elem_of_fmap. by exists (c, data). }
  apply list_elem_of_fmap in Hin as (r & Hr & Hin). by exists r.
Qed.

(** Round trip. After any number of successful commits of plain requests
    on a fresh work directory, [sgvc -cat] of any of the versions committed
    returns the bytes that were committed as that version. *)
Theorem plain_commits_round_trip cacheDir d h cmt data :
  committed cacheDir d h -> Z.of_nat (length h) <= int_max ->
  (cmt, data) ∈ h ->
  mainCat cacheDir d (path cmt) (version cmt) = Ok data.
Proof.
  intros Hc Hlen Hin. pose proof (committed_consistent _ _ _ Hc Hlen) as Hcons.
  destruct (consistent_getIndex _ _ _ Hcons) as (recs & Hlogged & Hidx).
  destruct Hcons as (_ & Hstore & _).
  unfold Sgvc.mainCat. rewrite Hidx. unfold extract. cbn [commits].
  destruct (findCommit (slices_SortFunc cmpCommits recs) (path cmt) (version cmt))
    as [r|] eqn:Hfind.
  2: { exfalso. rewrite findCommit_None in Hfind.
       destruct (logged_elem_rev _ _ _ _ Hlogged Hin) as (r & Hr & Hlr).
       apply (Hfind r); [by rewrite slices_SortFunc_Permutation|].
       unfold logged in Hlr. by simplify_eq. }
  destruct (findCommit_Some _ _ _ _ Hfind) as (Hr & Hrp & Hrv).
  rewrite slices_SortFunc_Permutation in Hr.
  destruct (logged_elem _ _ _ Hlogged Hr) as (c' & data' & Hin' & Hl').
  unfold logged in Hl'. injection Hl' as Hp' Hv' _ Hs' Hk' _.
  destruct (Hstore _ _ Hin) as (Hst & Hcrc & Hsig & _).
  destruct (Hstore _ _ Hin') as (Hst' & Hcrc' & Hsig' & _).
  assert (Hkey : filePath
            {| workDir := String.append cacheDir "/sgvc";
               commitsFile := String.append (String.append cacheDir "/sgvc") "/index";
               commits := slices_SortFunc cmpCommits recs |} r
          = storeKey cacheDir cmt).
  { unfold filePath, storeKey, fileName. simpl.
    by rewrite <- Hs', Hsig', Hp', Hrp, <- Hsig, Hrv. }
  assert (Hkey' : storeKey cacheDir c' = storeKey cacheDir cmt).
  { unfold storeKey, fileName.
    by rewrite Hsig', Hp', Hrp, <- Hsig, Hv', Hrv. }
  rewrite Hkey' in Hst'. rewrite Hst in Hst'. injection Hst' as <-.
  rewrite Hkey, Hst, <- Hk', Hcrc', Z.eqb_refl. done.
Qed.

(** Versions. After any number of successful commits of plain requests on
    a fresh work directory, the versions committed for a path are, in the
    order of the commits, 1, 2, ..., n; the index of the next process holds
    exactly these versions for the path and n is its current version. *)
Theorem plain_commits_versions cacheDir d h :
  committed cacheDir d h -> Z.of_nat (length h) <= int_max ->
  forall p,
    let n := length (versionsOf p (map fst h)) in
    versionsOf p (map fst h) = upTo n /\
    exists idx, getIndex cacheDir d = Started idx /\
                versionsOf p (commits idx) ≡ₚ upTo n /\
                currVersion idx p = Z.of_nat n.
Proof.
  intros Hc Hlen p n. pose proof (committed_consistent _ _ _ Hc Hlen) as Hcons.
  destruct (consistent_getIndex _ _ _ Hcons) as (recs & Hlogged & Hidx).
  destruct Hcons as (_ & _ & Hvers).
  split; [apply Hvers|]. eexists. split; [exact Hidx|]. cbn [commits].
  assert (Hv : versionsOf p (slices_SortFunc cmpCommits recs) ≡ₚ upTo n).
  { rewrite (versionsOf_Permutation p _ recs) by apply slices_SortFunc_Permutation.
    rewrite (versionsOf_logged p recs (map fst h)) by done. by rewrite Hvers. }
  split; [done|].
  rewrite currVersion_latest. cbn [commits].
  rewrite (latest_Permutation p _ recs) by apply slices_SortFunc_Permutation.
  unfold latest. rewrite (versionsOf_logged p recs (map fst h)) by done.
  rewrite Hvers. apply fold_max_upTo.
Qed.

(** The next version. A successful commit of a plain request, after any
    number of them, is given the current version of its path plus one,
    which is one more than the number of commits of that path so far: the
    first commit of a path is version 1. *)
Theorem plain_commit_next_version cacheDir d h (rq : request Time) idx data d' tr :
  committed cacheDir d h -> Z.of_nat (length h) < int_max ->
  getIndex cacheDir d = Started idx ->
  plain idx rq = true ->
  working_file (rq_env rq) = Some data ->
  mainAdd cacheDir d (rq_env rq) (rq_path rq) (rq_base rq) (rq_msg rq)
    = (None, d', tr) ->
  let cmt := newCommit idx (rq_env rq) (rq_path rq) (rq_base rq) (rq_msg rq) data in
  version cmt = currVersion idx (rq_path rq) + 1 /\
  version cmt = Z.of_nat (length (versionsOf (rq_path rq) (map fst h))) + 1.
Proof.
  intros Hc Hlen Hidx Hplain Hw Hadd cmt.
  assert (Hcons : consistent cacheDir d h).
  { apply committed_consistent; [done|lia]. }
  destruct (consistent_add _ _ _ _ _ _ _ _ Hcons Hlen Hidx Hplain Hw Hadd)
    as (Hcur & Hver & _).
  fold cmt in Hver. split; [done|]. by rewrite Hver, Hcur.
Qed.


(** *** A path with a tab *)

Lemma deserializeCommit_other_length s :
  length (strings_Split tab s) <> 7%nat ->
  deserializeCommit time_Parse s = Err MalformedLine.
Proof.
  unfold deserializeCommit.
  destruct (strings_Split tab s) as [|p0 [|p1 [|p2 [|p3 [|p4 [|p5 [|p6 [|p7 r]]]]]]]];
    done.
Qed.

(** The line of a commit whose path has a tab is no line of the index. *)
Lemma serialize_tab_in_path cmt :
  has_char tab (path cmt) = true ->
  deserializeCommit time_Parse (dropCR (serialize time_Format cmt))
  = Err MalformedLine.
Proof.
  intros Hp. apply deserializeCommit_other_length.
  rewrite strings_Split_length, count_char_dropCR by done.
  pose proof (count_char_Join tab (path cmt)
    [time_Format (when cmt); fmt_0d maxVersionLength (version cmt);
     fmt_0d maxVersionLength (basedOn cmt); pathSig cmt; fmt_udec (dataCrc cmt);
     changes cmt]) as Hn.
  apply count_char_has_char in Hp. unfold serialize, fields.
  cbn [length] in Hn. lia.
Qed.

(** C1 (evaluation of the code). After any history of plain commits, the
    successful commit of a file whose path has a tab (and whose line is one
    line) stores the content, and from then on every process exits while it
    loads the index: neither this version nor any other can be extracted
    any more. *)
Theorem C1_tab_in_path_ends_later_processes cacheDir d h (rq : request Time)
    idx data d' tr :
  committed cacheDir d h -> Z.of_nat (length h) <= int_max ->
  getIndex cacheDir d = Started idx ->
  has_char tab (rq_path rq) = true ->
  has_char lf (rq_path rq) = false ->
  has_char lf (time_Format (now (rq_env rq))) = false ->
  has_char lf (strconv_Quote (rq_msg rq)) = false ->
  working_file (rq_env rq) = Some data ->
  mainAdd cacheDir d (rq_env rq) (rq_path rq) (rq_base rq) (rq_msg rq)
    = (None, d', tr) ->
  let cmt := newCommit idx (rq_env rq) (rq_path rq) (rq_base rq) (rq_msg rq) data in
  store d' !! filePath idx cmt = Some data /\
  (exists e, getIndex cacheDir d' = Exited e) /\
  (forall p v, exists e, mainCat cacheDir d' p v = Err e).
Proof.
  intros Hc Hlen Hidx Htab Hlf Hstamp Hquoted Hw Hadd cmt.
  pose proof (committed_consistent _ _ _ Hc Hlen)
    as ((ls & recs & Hfile & Hls & Hrecs & _) & _ & _).
  unfold Sgvc.mainAdd in Hadd. rewrite Hidx in Hadd.
  unfold index_commit in Hadd. rewrite Hw in Hadd.
  destruct (negb (rq_base rq =? 0) && (rq_base rq >? currVersion idx (rq_path rq)));
    [done|].
  fold cmt in Hadd.
  assert (Hd' : d' = {| index_file := String.append (index_file d) (logLine time_Format cmt);
                       store := <[filePath idx cmt := data]> (store d) |}).
  { destruct (fault (rq_env rq)); by simplify_eq. }
  clear Hadd. subst d'.
  split; [apply lookup_insert_eq|].
  assert (Hline : has_char lf (serialize time_Format cmt) = false).
  { apply serialize_one_line; try done.
    - apply pathSignature_plain. auto.
    - apply crc32_ChecksumIEEE_range. }
  assert (Hex : exists e, getIndex cacheDir
      {| index_file := String.append (index_file d) (logLine time_Format cmt);
         store := <[filePath idx cmt := data]> (store d) |} = Exited e).
  { unfold Sgvc.getIndex, loadCommits. cbn [index_file].
    unfold logLine. rewrite Hfile, <- unlines_snoc, raw_lines_unlines.
    2: { apply Forall_app. split; [done|]. by constructor. }
    rewrite scanCommits_app, Hrecs. cbn [scanCommits].
    destruct (too_long (serialize time_Format cmt)); [by eexists|].
    rewrite serialize_tab_in_path by done. by eexists. }
  split; [done|]. intros p v. destruct Hex as [e He]. exists e.
  unfold Sgvc.mainCat. by rewrite He.
Qed.

End History.


(** ** More of sgvc.go: the records, the store, printing and main *)

(** *** The log line and the current version *)

Section Records.
Context {Time : Type}.
Context (time_Format : Time -> string).
Context (time_Parse : string -> option Time).
Context (time_zero : Time).
Context (strconv_Quote : string -> string).
Implicit Types (c cmt : commit Time) (cs : list (commit Time)) (idx : index Time).

Set Default Proof Using "Type".

Local Abbreviation deserializeCommit := (Sgvc.deserializeCommit time_Parse).
Local Abbreviation serialize := (Sgvc.serialize time_Format).
Local Abbreviation newCommit := (Sgvc.newCommit strconv_Quote).
Local Abbreviation index_commit := (Sgvc.index_commit time_Format strconv_Quote).
Local Abbreviation getIndex := (Sgvc.getIndex time_Parse).
Local Abbreviation mainAdd := (Sgvc.mainAdd time_Format time_Parse strconv_Quote).
Local Abbreviation mainCat := (Sgvc.mainCat time_Parse).

(** X1. Round trip of a log line. For a commit whose path, formatted time,
    path signature and changes have no tab, whose version and base version
    are [int]s and whose checksum is a uint32, deserializeCommit reads the
    line that serialize writes as a commit with the same path, version,
    base version, path signature, checksum and changes, with the time that
    time.Parse gives for the formatted time, and with no children; and when
    that time formats as the original one did, serializing the commit read
    gives the same line again. *)
Theorem X1_serialize_round_trip cmt t' :
  has_char tab (path cmt) = false ->
  has_char tab (time_Format (when cmt)) = false ->
  time_Parse (time_Format (when cmt)) = Some t' ->
  has_char tab (pathSig cmt) = false ->
  has_char tab (changes cmt) = false ->
  is_int (version cmt) -> is_int (basedOn cmt) ->
  0 <= dataCrc cmt <= uint32_max ->
  exists c,
    deserializeCommit (serialize cmt) = Ok c /\
    path c = path cmt /\ when c = t' /\ version c = version cmt /\
    basedOn c = basedOn cmt /\ pathSig c = pathSig cmt /\
    dataCrc c = dataCrc cmt /\ changes c = changes cmt /\ descs c = [] /\
    (time_Format t' = time_Format (when cmt) -> serialize c = serialize cmt).
Proof.
  intros Hp Ht Hparse Hs Hc Hv Hb Hk.
  eexists. split.
  - by apply deserializeCommit_serialize.
  - simpl. split_and!; try done. intros Heq.
    unfold Sgvc.serialize, fields. simpl. by rewrite Heq.
Qed.

Lemma deserializeCommit_seven s p0 p1 p2 p3 p4 p5 p6 :
  strings_Split tab s = [p0; p1; p2; p3; p4; p5; p6] ->
  deserializeCommit s <> Err MalformedLine.
Proof.
  unfold Sgvc.deserializeCommit. intros ->. by repeat case_match.
Qed.

(** X2. deserializeCommit returns the error "malformed line" exactly for
    the strings whose number of tabs is not six: a line with six tabs is a
    commit or has a malformed timestamp, version, parent or data crc. *)
Theorem X2_malformed_line_iff_not_six_tabs (s : string) :
  deserializeCommit s = Err MalformedLine <-> count_char tab s <> 6%nat.
Proof.
  pose proof (strings_Split_length tab s) as Hlen. split.
  - intros Hbad Hsix. rewrite Hsix in Hlen.
    destruct (strings_Split tab s)
      as [|p0 [|p1 [|p2 [|p3 [|p4 [|p5 [|p6 [|p7 r]]]]]]]] eqn:Hs; try done.
    by eapply deserializeCommit_seven.
  - intros Hne. apply deserializeCommit_other_length. lia.
Qed.

(** X3. currVersion returns the greatest version above 0 among the commits
    of the path in the index, and 0 when there is none: the result is never
    negative, no commit of the path has a greater version, a result other
    than 0 is the version of a commit of the path, and the result is 0 when
    the index has no commit of the path. *)
Theorem X3_currVersion_is_latest idx (p : string) :
  0 <= currVersion idx p /\
  (forall c, c ∈ commits idx -> path c = p -> version c <= currVersion idx p) /\
  (currVersion idx p = 0 \/
   exists c, c ∈ commits idx /\ path c = p /\ version c = currVersion idx p) /\
  ((forall c, c ∈ commits idx -> path c <> p) -> currVersion idx p = 0).
Proof.
  clear time_Format time_Parse time_zero strconv_Quote.
  unfold currVersion. generalize (commits idx). intros cs.
  set (step := fun (v : Z) (cmt : commit Time) =>
         if String.eqb (path cmt) p && (version cmt >? v) then version cmt else v).
  assert (H : forall v0,
    v0 <= fold_left step cs v0 /\
    (forall c, c ∈ cs -> path c = p -> version c <= fold_left step cs v0) /\
    (fold_left step cs v0 = v0 \/
     exists c, c ∈ cs /\ path c = p /\ version c = fold_left step cs v0) /\
    ((forall c, c ∈ cs -> path c <> p) -> fold_left step cs v0 = v0)).
  { induction cs as [|c cs IH]; intros v0; cbn [fold_left].
    - split_and!; [lia| |by left|done]. intros c Hc. by apply not_elem_of_nil in Hc.
    - destruct (IH (step v0 c)) as (Hle & Hmax & Hsome & Hnone).
      assert (Hstep : v0 <= step v0 c /\ (path c = p -> version c <= step v0 c) /\
                (step v0 c = v0 \/ (path c = p /\ version c = step v0 c)) /\
                (path c <> p -> step v0 c = v0)).
      { unfold step. destruct (String.eqb (path c) p) eqn:Hp; simpl.
        - apply String.eqb_eq in Hp. destruct (version c >? v0) eqn:Hgt.
          + apply Z.gtb_lt in Hgt. split_and!; [lia|lia|by right|done].
          + rewrite Z.gtb_ltb in Hgt. apply Z.ltb_ge in Hgt.
            split_and!; [lia|done|by left|done].
        - apply String.eqb_neq in Hp. split_and!; [lia|done|by left|done]. }
      destruct Hstep as (Hs1 & Hs2 & Hs3 & Hs4).
      split_and!.
      + lia.
      + intros c' [->|Hin]%elem_of_cons Hp'; [|by apply Hmax].
        specialize (Hs2 Hp'). lia.
      + destruct Hsome as [Heq|(c' & Hin & Hp' & Hv')].
        * destruct Hs3 as [Hs3|[Hp' Hv']].
          -- left. congruence.
          -- right. exists c. split_and!; [left|done|congruence].
        * right. exists c'. split_and!; [by right|done..].
      + intros Hall. rewrite Hnone.
        * apply Hs4. apply Hall. left.
        * intros c' Hin. apply Hall. by right. }
  apply H.
Qed.

End Records.

(** *** The path signature, the content files and the writes of commit *)

Lemma hex_digits_no_slash c :
  Ascii.eqb (hex_digit (N_of_ascii c / 16)) "/" = false /\
  Ascii.eqb (hex_digit (N_of_ascii c mod 16)) "/" = false.
Proof. destruct c as [[] [] [] [] [] [] [] []]; vm_compute; done. Qed.

Lemma fmt_x_no_slash p : has_char "/" (fmt_x p) = false.
Proof.
  induction p as [|c p IH]; [done|].
  destruct (hex_digits_no_slash c) as [H1 H2].
  change (fmt_x (String c p)) with
    (String (hex_digit (N_of_ascii c / 16))
       (String (hex_digit (N_of_ascii c mod 16)) (fmt_x p))).
  by rewrite !has_char_cons, H1, H2, IH.
Qed.

Lemma pathSignature_no_slash p : has_char "/" (pathSignature p) = false.
Proof.
  unfold pathSignature. rewrite has_char_app, fmt_x_no_slash. vm_compute. done.
Qed.

(** X4. The path signature that commit computes is the path in hex digits
    followed by the SHA-1 of the empty input ([sha1.New().Sum(path)] hashes
    nothing and appends to the path). It is different for different paths,
    has two characters per byte of the path and 40 more, and contains no
    tab, line feed, hyphen or slash. *)
Theorem X4_pathSignature_injective :
  (forall p q, pathSignature p = pathSignature q <-> p = q) /\
  (forall p, String.length (pathSignature p) = (2 * String.length p + 40)%nat) /\
  (forall p x, x = tab \/ x = lf \/ x = "-"%char \/ x = "/"%char ->
     has_char x (pathSignature p) = false).
Proof.
  split_and!.
  - intros p q. split; [apply pathSignature_inj | by intros ->].
  - intros p. unfold pathSignature. rewrite length_append, fmt_x_length. done.
  - intros p x [->|[->|[->| ->]]]; [apply pathSignature_plain; auto..|].
    apply pathSignature_no_slash.
Qed.

Section Store.
Context {Time : Type}.
Context (time_Format : Time -> string).
Context (time_Parse : string -> option Time).
Context (time_zero : Time).
Context (strconv_Quote : string -> string).
Implicit Types (c cmt : commit Time) (cs : list (commit Time)) (idx : index Time).

Set Default Proof Using "Type".

Local Abbreviation deserializeCommit := (Sgvc.deserializeCommit time_Parse).
Local Abbreviation serialize := (Sgvc.serialize time_Format).
Local Abbreviation newCommit := (Sgvc.newCommit strconv_Quote).
Local Abbreviation index_commit := (Sgvc.index_commit time_Format strconv_Quote).
Local Abbreviation getIndex := (Sgvc.getIndex time_Parse).
Local Abbreviation mainAdd := (Sgvc.mainAdd time_Format time_Parse strconv_Quote).
Local Abbreviation mainCat := (Sgvc.mainCat time_Parse).

Lemma fmt_0d_no_slash w v : has_char "/" (fmt_0d w v) = false.
Proof. by apply fmt_0d_plain. Qed.

(** X5. Content files. The files in which two commits built by commit keep
    their contents are the same exactly when the commits are of the same
    path and have the same version. The file name has no slash, so the
    content file lies in the work directory itself, whatever the committed
    path is. *)
Theorem X5_content_file_per_path_and_version idx idx1 idx2
    (env1 env2 : commit_env Time) p1 p2 base1 base2 msg1 msg2 data1 data2 :
  let c1 := newCommit idx1 env1 p1 base1 msg1 data1 in
  let c2 := newCommit idx2 env2 p2 base2 msg2 data2 in
  (filePath idx c1 = filePath idx c2 <-> p1 = p2 /\ version c1 = version c2) /\
  has_char "/" (fileName c1) = false /\
  filePath idx c1 = String.append (workDir idx) (String "/" (fileName c1)).
Proof.
  intros c1 c2. split_and!; [|..|done].
  - split.
    + intros Heq. apply filePath_inj in Heq; try done; apply wrap64_is_int.
    + intros [-> Hv]. unfold filePath, fileName. simpl in *. by rewrite Hv.
  - unfold fileName. rewrite has_char_app, has_char_cons. simpl.
    by rewrite pathSignature_no_slash, fmt_0d_no_slash.
Qed.

(** X6. commit touches nothing but its own two files. When the working
    file cannot be read the work directory is left as it was. Otherwise, in
    every execution (the ones with a failing system call included), the
    index file has only grown, by a prefix of the line of the new commit,
    and every file of the store other than the content file of the new
    version is as before. *)
Theorem X6_commit_changes_only_its_own_files idx (d : disk)
    (env : commit_env Time) (p : string) (base : Z) (msg : string) :
  let d' := snd (fst (index_commit idx d env p base msg)) in
  (working_file env = None -> d' = d) /\
  (forall data, working_file env = Some data ->
     let cmt := newCommit idx env p base msg data in
     (exists n, index_file d' =
                String.append (index_file d)
                  (String.substring 0 n (Sgvc.logLine time_Format cmt))) /\
     (forall name, name <> filePath idx cmt -> store d' !! name = store d !! name)).
Proof.
  intros d'. subst d'. unfold Sgvc.index_commit. split.
  - by intros ->.
  - intros data Hw. rewrite Hw.
    set (cmt := newCommit idx env p base msg data).
    assert (Hnil : forall s, String.substring 0 0 s = EmptyString) by (by intros []).
    destruct (negb (base =? 0) && (base >? currVersion idx p)); simpl.
    { split; [|done]. exists 0%nat. by rewrite Hnil, append_nil_r. }
    destruct (fault env) as [|residue| |n]; simpl.
    + split.
      * exists (String.length (Sgvc.logLine time_Format cmt)). by rewrite substring_whole.
      * intros name Hne. by rewrite lookup_insert_ne.
    + split; [exists 0%nat; by rewrite Hnil, append_nil_r|].
      intros name Hne. destruct residue; [by rewrite lookup_insert_ne|done].
    + split; [exists 0%nat; by rewrite Hnil, append_nil_r|].
      intros name Hne. by rewrite lookup_insert_ne.
    + split; [by exists n|]. intros name Hne. by rewrite lookup_insert_ne.
Qed.

Lemma getIndex_index_file cacheDir (d d' : disk) :
  index_file d' = index_file d -> getIndex cacheDir d' = getIndex cacheDir d.
Proof. unfold Sgvc.getIndex, loadCommits. by intros ->. Qed.

(** X7. A failed commit leaves no trace after a retry. When a run of
    sgvc -add fails with another error than "failed to commit index" (so
    before anything is appended to the index file: while it loads the
    index, reads the working file, checks the base version, writes the
    content file or opens the index file), a later successful run of
    sgvc -add on the same path ends with the same result, the same system
    calls and the same work directory as it would have without the failed
    run. *)
Theorem X7_retry_after_failed_commit cacheDir (d d1 d2 : disk)
    (env env' : commit_env Time) (p : string) (base base' : Z) (msg msg' : string)
    (e : error) (tr tr2 : list event) :
  mainAdd cacheDir d env p base msg = (Some e, d1, tr) ->
  e <> FailedToCommitIndex ->
  mainAdd cacheDir d1 env' p base' msg' = (None, d2, tr2) ->
  mainAdd cacheDir d env' p base' msg' = (None, d2, tr2).
Proof.
  unfold Sgvc.mainAdd. intros Hfail He Hretry.
  destruct (getIndex cacheDir d) as [idx|e0] eqn:Hidx.
  2: { injection Hfail as <- <- _. by rewrite Hidx in Hretry. }
  assert (Hd1 : index_file d1 = index_file d /\
     (store d1 = store d \/
      exists data bs, working_file env = Some data /\
        store d1 = <[filePath idx (newCommit idx env p base msg data) := bs]> (store d))).
  { unfold Sgvc.index_commit in Hfail.
    destruct (working_file env) as [data|]; [|by simplify_eq; auto].
    destruct (negb (base =? 0) && (base >? currVersion idx p)); [by simplify_eq; auto|].
    destruct (fault env) as [|[bs|]| |n]; simplify_eq; simpl;
      (split; [done|]); eauto. }
  destruct Hd1 as [Hfile Hstore].
  rewrite (getIndex_index_file _ _ _ Hfile), Hidx in Hretry.
  unfold Sgvc.index_commit in *.
  destruct (working_file env') as [data'|]; [|done].
  destruct (negb (base' =? 0) && (base' >? currVersion idx p)); [done|].
  assert (Hkey : forall data, filePath idx (newCommit idx env p base msg data)
                 = filePath idx (newCommit idx env' p base' msg' data')) by done.
  assert (Hst : <[filePath idx (newCommit idx env' p base' msg' data') := data']> (store d1)
              = <[filePath idx (newCommit idx env' p base' msg' data') := data']> (store d)).
  { destruct Hstore as [->|(data & bs & _ & ->)]; [done|].
    rewrite (Hkey data). apply insert_insert_eq. }
  destruct (fault env'); simplify_eq. simpl. by rewrite Hfile, Hst.
Qed.

End Store.

(** *** The index that a process loads after a history *)

Lemma upTo_elem_iff k v : v ∈ upTo k <-> 1 <= v <= Z.of_nat k.
Proof.
  split; [apply upTo_elem|]. intros Hv. unfold upTo.
  apply list_elem_of_fmap. exists (Z.to_nat v). split; [lia|].
  apply elem_of_seq. lia.
Qed.

Section HistoryIndex.
Context {Time : Type}.
Context (time_Format : Time -> string).
Context (time_Parse : string -> option Time).
Context (time_zero : Time).
Context (strconv_Quote : string -> string).
Implicit Types (c cmt : commit Time) (cs : list (commit Time)) (idx : index Time).

Set Default Proof Using "Type".

Local Abbreviation deserializeCommit := (Sgvc.deserializeCommit time_Parse).
Local Abbreviation serialize := (Sgvc.serialize time_Format).
Local Abbreviation newCommit := (Sgvc.newCommit strconv_Quote).
Local Abbreviation index_commit := (Sgvc.index_commit time_Format strconv_Quote).
Local Abbreviation getIndex := (Sgvc.getIndex time_Parse).
Local Abbreviation mainAdd := (Sgvc.mainAdd time_Format time_Parse strconv_Quote).
Local Abbreviation mainCat := (Sgvc.mainCat time_Parse).
Local Abbreviation treeOfCommits := (Sgvc.treeOfCommits time_zero).
Local Abbreviation plain := (Sgvc.plain time_Format time_Parse strconv_Quote).
Local Abbreviation committed := (Sgvc.committed time_Format time_Parse strconv_Quote).
Local Abbreviation consistent := (Sgvc.consistent time_Parse).

Lemma versionsOf_elem_inv p v cs :
  v ∈ versionsOf p cs -> exists c, c ∈ cs /\ path c = p /\ version c = v.
Proof.
  clear time_Format time_Parse time_zero strconv_Quote.
  unfold versionsOf. intros (c & -> & Hc)%list_elem_of_fmap.
  apply elem_of_bool_filter in Hc as [Hc Hp]. apply String.eqb_eq in Hp.
  by exists c.
Qed.

(** treeOfCommits returns exactly when the parents are there. *)
Lemma treeOfCommits_returns idx (p : string) :
  (exists dummy heap, treeOfCommits idx p = Tree dummy heap) <->
  (forall i c, i ∈ filter idx p -> commits idx !! i = Some c -> basedOn c > 0 ->
     exists j c', j ∈ filter idx p /\ commits idx !! j = Some c' /\
                  path c' = path c /\ version c' = basedOn c).
Proof.
  pose proof (treeOfCommits_spec time_zero idx p) as Hspec. simpl in Hspec.
  split.
  - intros (dummy & heap & Ht). rewrite Ht in Hspec.
    destruct Hspec as (_ & _ & _ & Hpar).
    intros i c Hi Hc Hpos. destruct (Hpar i c Hi Hc Hpos) as [q Hq].
    apply buildMap_Some in Hq as (Hq & c' & Hc' & Hsig).
    exists q, c'. unfold sigOf in Hsig. by simplify_eq.
  - intros Hall. destruct (treeOfCommits idx p) as [dummy heap|]; [by eauto|].
    destruct Hspec as (i & c & Hi & Hc & Hpos & Hnone).
    destruct (Hall i c Hi Hc Hpos) as (j & c' & Hj & Hc' & Hp & Hv).
    destruct (buildMap_is_Some _ _ _ _ Hj Hc') as [q Hq].
    unfold sigOf in Hq. rewrite Hp, Hv in Hq. congruence.
Qed.

(** The base version of a commit of a history is below its version. *)
Lemma committed_bases cacheDir d h :
  committed cacheDir d h -> Z.of_nat (length h) <= int_max ->
  forall c data, (c, data) ∈ h -> basedOn c <= 0 \/ basedOn c < version c.
Proof.
  induction 1 as [st|d h rq idx data d' tr Hc IH Hidx Hplain Hw Hadd]; intros Hlen.
  - intros c data Hin. by apply not_elem_of_nil in Hin.
  - rewrite length_app in Hlen. simpl in Hlen.
    intros c data0 [Hin|Hin%list_elem_of_singleton]%elem_of_app.
    + eapply IH; [lia|done].
    + injection Hin as -> ->.
      assert (Hcons : consistent cacheDir d h).
      { apply (committed_consistent time_Format time_Parse strconv_Quote); [done|lia]. }
      destruct (consistent_add time_Format time_Parse strconv_Quote _ _ _ _ _ _ _ _ Hcons ltac:(lia) Hidx Hplain Hw Hadd)
        as (_ & Hver & _).
      rewrite Hver. simpl.
      unfold Sgvc.mainAdd in Hadd. rewrite Hidx in Hadd.
      unfold Sgvc.index_commit in Hadd. rewrite Hw in Hadd.
      destruct (negb (rq_base rq =? 0) && (rq_base rq >? currVersion idx (rq_path rq)))
        eqn:Hchk; [done|].
      apply andb_false_iff in Hchk as [Hz|Hgt].
      * apply negb_false_iff, Z.eqb_eq in Hz. lia.
      * rewrite Z.gtb_ltb in Hgt. apply Z.ltb_ge in Hgt. lia.
Qed.

(** The records that a process loads after a history of plain commits. *)
Lemma committed_index cacheDir d h :
  committed cacheDir d h -> Z.of_nat (length h) <= int_max ->
  exists idx,
    getIndex cacheDir d = Started idx /\
    (forall r, r ∈ commits idx ->
       descs r = [] /\ 1 <= version r <= Z.of_nat (length h) /\
       (basedOn r <= 0 \/ basedOn r < version r) /\
       exists c data, (c, data) ∈ h /\ logged c = logged r) /\
    (forall c data, (c, data) ∈ h ->
       exists r, r ∈ commits idx /\ logged r = logged c) /\
    (forall p, versionsOf p (commits idx) ≡ₚ
               upTo (length (versionsOf p (map fst h)))) /\
    StronglySorted inOrder (commits idx).
Proof.
  intros Hc Hlen. pose proof (committed_consistent time_Format time_Parse strconv_Quote _ _ _ Hc Hlen) as Hcons.
  destruct (consistent_getIndex time_Parse _ _ _ Hcons) as (recs & Hlogged & Hidx).
  pose proof Hcons as ((ls & recs' & Hfile & Hls & Hrecs' & _) & _ & Hvers).
  eexists. split; [exact Hidx|]. cbn [commits].
  assert (Hdescs : forall r, r ∈ recs -> descs r = []).
  { intros r Hr. unfold Sgvc.getIndex, loadCommits in Hidx.
    destruct (Sgvc.scanCommits time_Parse (raw_lines (index_file d)) 0 [])
      as [recs0| |] eqn:Hscan; [|done..].
    injection Hidx as Hidx.
    assert (Hperm : recs0 ≡ₚ recs).
    { rewrite <- (slices_SortFunc_Permutation cmpCommits recs0), Hidx.
      apply slices_SortFunc_Permutation. }
    rewrite <- Hperm in Hr.
    apply scanCommits_Loaded in Hscan as (new & -> & Hall). simpl in Hr.
    apply list_elem_of_lookup in Hr as [i Hi].
    destruct (Forall2_lookup_r _ _ _ _ _ Hall Hi) as (raw & _ & _ & Hd).
    apply deserializeCommit_Ok in Hd.
    destruct Hd as (p0 & p1 & p2 & p3 & p4 & p5 & p6 & t & v & b & k & _ & _ & _ & _ & _ & ->).
    done. }
  split_and!.
  - intros r Hr. rewrite slices_SortFunc_Permutation in Hr.
    destruct (logged_elem _ _ _ Hlogged Hr) as (c & data & Hin & Hl).
    pose proof (committed_bases _ _ _ Hc Hlen _ _ Hin) as Hb.
    pose proof Hl as Hl'.
    unfold logged in Hl. injection Hl as Hp Hv Hbase _ _ _.
    assert (Hel : version c ∈ versionsOf (path c) (map fst h)).
    { apply versionsOf_elem; [|done]. apply list_elem_of_fmap. by exists (c, data). }
    rewrite Hvers in Hel. apply upTo_elem in Hel.
    pose proof (versionsOf_length (path c) (map fst h)) as Hn. rewrite length_map in Hn.
    split_and!; [by apply Hdescs|lia|lia|lia|].
    by exists c, data.
  - intros c data Hin.
    destruct (logged_elem_rev _ _ _ _ Hlogged Hin) as (r & Hr & Hl).
    exists r. split; [by rewrite slices_SortFunc_Permutation|done].
  - intros p.
    rewrite (versionsOf_Permutation p _ recs) by apply slices_SortFunc_Permutation.
    rewrite (versionsOf_logged p recs (map fst h)) by done.
    by rewrite <- (Hvers p).
  - apply slices_SortFunc_sorted. apply Forall_forall. intros r Hr.
    destruct (logged_elem _ _ _ Hlogged Hr) as (c & data & Hin & Hl).
    unfold logged in Hl. injection Hl as Hp Hv _ _ _ _.
    assert (Hel : version c ∈ versionsOf (path c) (map fst h)).
    { apply versionsOf_elem; [|done]. apply list_elem_of_fmap. by exists (c, data). }
    rewrite Hvers in Hel. apply upTo_elem in Hel.
    pose proof (versionsOf_length (path c) (map fst h)) as Hn. rewrite length_map in Hn.
    lia.
Qed.

End HistoryIndex.

(** *** treePrint *)

Lemma tabs_length : String.length tabs = 128%nat.
Proof. reflexivity. Qed.

Lemma printEach_stopped {A} (body : ptr -> list A * print_status) ps out st :
  st <> Printed -> printEach body ps (out, st) = (out, st).
Proof.
  intros Hst. induction ps as [|q ps IH]; [done|].
  unfold printEach in *. cbn [fold_left]. by destruct st.
Qed.

Lemma printEach_cons {A} (body : ptr -> list A * print_status) q ps out :
  printEach body (q :: ps) (out, Printed) =
  printEach body ps (out ++ fst (body q), snd (body q)).
Proof. unfold printEach. cbn [fold_left]. by destruct (body q). Qed.

Lemma printEach_map {A B} (f : A -> B) (body1 : ptr -> list B * print_status)
    (body2 : ptr -> list A * print_status) ps :
  (forall q, q ∈ ps -> body1 q = (map f (fst (body2 q)), snd (body2 q))) ->
  forall out st,
    printEach body1 ps (map f out, st) =
    (map f (fst (printEach body2 ps (out, st))), snd (printEach body2 ps (out, st))).
Proof.
  induction ps as [|q ps IH]; intros Hb out st; [done|].
  destruct st; [|by rewrite !printEach_stopped..].
  rewrite !printEach_cons, Hb by left. cbn [fst snd].
  rewrite <- map_app. apply IH. intros q' Hq'. apply Hb. by right.
Qed.

(** Once a print has failed, the loop ends in that state. *)
Lemma printEach_fails {A} (body : ptr -> list A * print_status) ps q :
  q ∈ ps -> snd (body q) <> Printed ->
  forall acc, snd (printEach body ps acc) <> Printed.
Proof.
  induction ps as [|q' ps IH]; intros Hq Hbad [out st].
  - by apply not_elem_of_nil in Hq.
  - destruct st; [|by rewrite printEach_stopped..].
    rewrite printEach_cons.
    apply elem_of_cons in Hq as [<-|Hq].
    + destruct (snd (body q)) eqn:Hs; [done| |]; by rewrite printEach_stopped.
    + by apply IH.
Qed.

Lemma printEach_status {A} (body : ptr -> list A * print_status) ps
    (ok : print_status -> Prop) :
  (forall q, q ∈ ps -> ok (snd (body q))) ->
  forall out st, ok st -> ok (snd (printEach body ps (out, st))).
Proof.
  induction ps as [|q ps IH]; intros Hb out st Hst; [done|].
  destruct st; [|by rewrite printEach_stopped..].
  rewrite printEach_cons. apply IH.
  - intros q' Hq'. apply Hb. by right.
  - apply Hb. by left.
Qed.

(** A loop whose prints all succeed. *)
Lemma printEach_all {A} (body : ptr -> list A * print_status) ps
    (P : ptr -> list A -> Prop) :
  (forall q, q ∈ ps -> exists L, body q = (L, Printed) /\ P q L) ->
  forall out, exists Ls,
    printEach body ps (out, Printed) = (out ++ concat Ls, Printed) /\
    Forall2 P ps Ls.
Proof.
  induction ps as [|q ps IH]; intros Hb out.
  - exists []. simpl. by rewrite app_nil_r.
  - destruct (Hb q) as (L & HL & HP); [left|].
    rewrite printEach_cons, HL. cbn [fst snd].
    assert (Hb' : forall q', q' ∈ ps -> exists L, body q' = (L, Printed) /\ P q' L).
    { intros q' Hq'. apply Hb. by right. }
    destruct (IH Hb' (out ++ L)) as (Ls & -> & Hall).
    exists (L :: Ls). simpl. split; [by rewrite <- app_assoc | by constructor].
Qed.

Section TreePrint.
Context {Time : Type}.
Context (time_Format : Time -> string).
Context (time_zero : Time).
Implicit Types (c cmt : commit Time) (cs heap : list (commit Time)) (idx : index Time).

Set Default Proof Using "Type".

Local Abbreviation treePrint := (Sgvc.treePrint time_Format).
Local Abbreviation treeLine := (Sgvc.treeLine time_Format).
Local Abbreviation commitLine := (Sgvc.commitLine time_Format).
Local Abbreviation treeOfCommits := (Sgvc.treeOfCommits time_zero).
Local Abbreviation mainTree := (Sgvc.mainTree time_Format time_zero).

(** treePrint prints the lines of the calls that treeVisit lists. *)
Lemma treePrint_treeVisit fuel heap : forall i k,
  treePrint fuel heap i k =
  (map (treeLine heap) (fst (treeVisit fuel heap i k)), snd (treeVisit fuel heap i k)).
Proof.
  induction fuel as [|fuel IH]; intros i k; [done|].
  cbn [Sgvc.treePrint treeVisit].
  destruct (heap !! i) as [c|] eqn:Hi; [|done].
  destruct (String.length tabs <? k)%nat; [done|].
  assert (Hline : [String.append (String.substring 0 k tabs) (commitLine c)]
                  = map (treeLine heap) [(k, i)]).
  { unfold Sgvc.treeLine. simpl. by rewrite Hi. }
  rewrite Hline. apply printEach_map. intros q _. apply IH.
Qed.

(** With the fuel of main the descent is never cut off. *)
Lemma treeVisit_fuel fuel heap : forall i k,
  (1 <= fuel)%nat -> (treeFuel <= fuel + k)%nat ->
  snd (treeVisit fuel heap i k) <> OutOfFuel.
Proof.
  unfold treeFuel.
  induction fuel as [|fuel IH]; intros i k Hf Hk; [lia|].
  cbn [treeVisit]. destruct (heap !! i) as [c|]; [|done].
  rewrite tabs_length. destruct (128 <? k)%nat eqn:Hlt; [done|].
  apply Nat.ltb_ge in Hlt.
  apply (printEach_status _ _ (fun st => st <> OutOfFuel)); [|done].
  intros q _. apply IH; lia.
Qed.

(** A descent along a chain of children that reaches indentation 129 ends
    in a panic. *)
Lemma treeVisit_chain fuel heap : forall chain i k,
  descends heap (i :: chain) = true ->
  (129 <= k + length chain)%nat ->
  snd (treeVisit fuel heap i k) <> Printed.
Proof.
  induction fuel as [|fuel IH]; intros chain i k Hd Hlen; [done|].
  cbn [treeVisit]. destruct (heap !! i) as [c|] eqn:Hi; [|done].
  rewrite tabs_length. destruct (128 <? k)%nat eqn:Hlt; [done|].
  apply Nat.ltb_ge in Hlt.
  destruct chain as [|j chain]; [simpl in Hlen; lia|].
  cbn [descends] in Hd. rewrite Hi in Hd.
  apply andb_true_iff in Hd as [Hj Hd]. apply bool_decide_eq_true in Hj.
  apply (printEach_fails _ _ j); [done|].
  apply (IH chain); [done|]. simpl in Hlen. lia.
Qed.

End TreePrint.

(** *** Lists of lists *)

Lemma Forall2_concat_elem {A B} (P : A -> list B -> Prop) l Ls x :
  Forall2 P l Ls -> x ∈ concat Ls ->
  exists c L, c ∈ l /\ P c L /\ x ∈ L /\ forall y, y ∈ L -> y ∈ concat Ls.
Proof.
  induction 1 as [|c L l Ls HP Hall IH]; simpl.
  - intros H. by apply not_elem_of_nil in H.
  - intros [Hx|Hx]%elem_of_app.
    + exists c, L. split_and!; [left|done..|].
      intros y Hy. apply elem_of_app. by left.
    + destruct (IH Hx) as (c' & L' & Hc' & HP' & Hx' & Hin).
      exists c', L'. split_and!; [by right|done..|].
      intros y Hy. apply elem_of_app. right. by apply Hin.
Qed.

Lemma Forall2_elem_concat {A B} (P : A -> list B -> Prop) l Ls c :
  Forall2 P l Ls -> c ∈ l ->
  exists L, P c L /\ forall x, x ∈ L -> x ∈ concat Ls.
Proof.
  induction 1 as [|c' L l Ls HP Hall IH]; simpl.
  - intros H. by apply not_elem_of_nil in H.
  - intros [->|Hc]%elem_of_cons.
    + exists L. split; [done|]. intros x Hx. apply elem_of_app. by left.
    + destruct (IH Hc) as (L' & HP' & Hin). exists L'. split; [done|].
      intros x Hx. apply elem_of_app. right. by apply Hin.
Qed.

Lemma Forall2_concat_NoDup {A B C} (f : B -> C) (P : A -> list B -> Prop) l Ls :
  Forall2 P l Ls -> NoDup l ->
  (forall c L, P c L -> NoDup (map f L)) ->
  (forall c c' L L' x, c ∈ l -> c' ∈ l -> P c L -> P c' L' ->
     x ∈ map f L -> x ∈ map f L' -> c = c') ->
  NoDup (map f (concat Ls)).
Proof.
  intros Hall Hl Hnd Hdisj.
  induction Hall as [|c L l Ls HP Hall IH]; simpl; [constructor|].
  apply NoDup_cons in Hl as [Hc Hl].
  rewrite map_app. apply NoDup_app. split_and!.
  - by eapply Hnd.
  - intros x Hx Hx'.
    apply list_elem_of_fmap in Hx' as (y & -> & Hy).
    destruct (Forall2_concat_elem _ _ _ _ Hall Hy) as (c' & L' & Hc' & HP' & Hy' & _).
    assert (c = c') as <-.
    { eapply (Hdisj c c' L L'); [left|by right|exact HP|exact HP'|exact Hx|].
      apply list_elem_of_fmap. eauto. }
    done.
  - apply IH; [done|]. intros c1 c2 L1 L2 x H1 H2. apply Hdisj; by right.
Qed.

(** *** The forest that treePrint walks

    The commits of a slice with their parents: every commit is a root or
    has one parent, which is a commit of the slice with a lower version. *)
Section Forest.
Context {Time : Type}.
Variables (heap : list (commit Time)) (ps : list ptr).
Variables (childOf : ptr -> ptr -> bool) (root : ptr -> bool) (ver : ptr -> Z).
Hypothesis ps_NoDup : NoDup ps.
Hypothesis heap_descs : forall i, i ∈ ps ->
  exists c, heap !! i = Some c /\ descs c = List.filter (childOf i) ps.
Hypothesis parent_unique : forall q q' j,
  childOf q j = true -> childOf q' j = true -> q = q'.
Hypothesis parent_below : forall q j,
  j ∈ ps -> childOf q j = true -> q ∈ ps /\ 1 <= ver q < ver j.
Hypothesis root_or_child : forall j,
  j ∈ ps -> root j = true \/ exists q, childOf q j = true.
Hypothesis root_no_parent : forall q j, root j = true -> childOf q j = false.
Hypothesis ver_bound : forall j, j ∈ ps -> ver j <= 129.

Local Abbreviation R := (childIn ps childOf).

Lemma below_ver a j : rtc R a j -> ver a <= ver j.
Proof using parent_below.
  induction 1 as [|a q j [Hq Hc] _ IH]; [lia|].
  destruct (parent_below _ _ Hq Hc). lia.
Qed.

Lemma below_in_ps a j : a ∈ ps -> rtc R a j -> j ∈ ps.
Proof using Type.
  intros Ha H. apply rtc_inv_r in H as [->|(q & _ & [Hj _])]; done.
Qed.

Lemma siblings_apart i j1 j2 x :
  j1 ∈ ps -> j2 ∈ ps ->
  childOf i j1 = true -> childOf i j2 = true ->
  rtc R j1 x -> rtc R j2 x -> j1 = j2.
Proof using parent_unique parent_below.
  intros Hp1 Hp2 H1 H2 Hx. revert x Hx.
  apply (rtc_ind_r (fun x => rtc R j2 x -> j1 = j2)).
  - intros H. apply rtc_inv_r in H as [->|(q & Hq & [_ Hc])]; [done|].
    assert (q = i) as -> by by eapply parent_unique.
    apply below_ver in Hq. destruct (parent_below _ _ Hp2 H2). lia.
  - intros q x Hq [Hxp Hc] IH H.
    apply rtc_inv_r in H as [->|(q' & Hq' & [_ Hc'])].
    + assert (q = i) as -> by by eapply parent_unique.
      apply below_ver in Hq. destruct (parent_below _ _ Hp1 H1). lia.
    + assert (q' = q) as -> by by eapply parent_unique.
      by apply IH.
Qed.

Lemma roots_apart r1 r2 x :
  root r1 = true -> root r2 = true -> rtc R r1 x -> rtc R r2 x -> r1 = r2.
Proof using parent_unique root_no_parent.
  intros H1 H2 Hx. revert x Hx.
  apply (rtc_ind_r (fun x => rtc R r2 x -> r1 = r2)).
  - intros H. apply rtc_inv_r in H as [->|(q & Hq & [_ Hc])]; [done|].
    by rewrite root_no_parent in Hc.
  - intros q x Hq [Hxp Hc] IH H.
    apply rtc_inv_r in H as [->|(q' & Hq' & [_ Hc'])].
    + by rewrite root_no_parent in Hc.
    + assert (q' = q) as -> by by eapply parent_unique.
      by apply IH.
Qed.

Lemma has_root j : j ∈ ps -> exists r, r ∈ ps /\ root r = true /\ rtc R r j.
Proof using parent_below root_or_child.
  remember (Z.to_nat (ver j)) as n eqn:Hn. revert j Hn.
  induction n as [n IH] using lt_wf_ind. intros j Hn Hj.
  destruct (root_or_child j Hj) as [Hr|[q Hq]].
  - exists j. done.
  - destruct (parent_below _ _ Hj Hq) as [Hqp Hv].
    destruct (IH (Z.to_nat (ver q)) ltac:(lia) q eq_refl Hqp) as (r & Hr & Hroot & Hrq).
    exists r. split_and!; [done..|]. eapply rtc_r; [done|]. by split.
Qed.

Local Abbreviation visited := (Sgvc.visited ps childOf).

Lemma treeVisit_forest fuel : forall i k,
  i ∈ ps -> (k = 0%nat \/ Z.of_nat k + 1 <= ver i) ->
  (1 <= fuel)%nat -> (treeFuel <= fuel + k)%nat ->
  exists L, treeVisit fuel heap i k = (L, Printed) /\ visited k i L.
Proof using ps_NoDup heap_descs parent_unique parent_below ver_bound.
  unfold treeFuel.
  induction fuel as [|fuel IH]; intros i k Hi Hk Hf Hfk; [lia|].
  cbn [treeVisit]. destruct (heap_descs i Hi) as (c & -> & Hdescs).
  rewrite tabs_length, Hdescs.
  pose proof (ver_bound i Hi) as Hvb.
  assert (Hlt : (128 <? k)%nat = false) by (apply Nat.ltb_ge; lia).
  rewrite Hlt.
  assert (Hch : forall j, j ∈ List.filter (childOf i) ps <->
                          j ∈ ps /\ childOf i j = true).
  { intros j. apply elem_of_bool_filter. }
  destruct (printEach_all (fun j => treeVisit fuel heap j (S k))
              (List.filter (childOf i) ps) (visited (S k))) with (out := [(k, i)])
    as (Ls & -> & Hall).
  { intros j [Hj Hc]%Hch. destruct (parent_below _ _ Hj Hc) as [_ Hv].
    apply IH; [done|right; lia|lia|lia]. }
  eexists. split; [done|].
  assert (Hsub : forall x, x ∈ concat Ls ->
            exists j L, (j ∈ ps /\ childOf i j = true) /\ visited (S k) j L /\ x ∈ L /\
                        forall y, y ∈ L -> y ∈ concat Ls).
  { intros x Hx.
    destruct (Forall2_concat_elem _ _ _ _ Hall Hx) as (j & L & Hj & HL & HxL & Hin).
    exists j, L. split; [by apply Hch|by split]. }
  unfold Sgvc.visited. split_and!.
  - simpl. apply NoDup_cons. split.
    + intros (x & Hxi & Hx)%list_elem_of_fmap.
      destruct (Hsub x Hx) as (j & L & [Hj Hc] & (_ & Hmem & _) & HxL & _).
      assert (Hr : rtc R j x.2) by (apply Hmem; apply list_elem_of_fmap; eauto).
      apply below_ver in Hr. destruct (parent_below _ _ Hj Hc). rewrite <- Hxi in Hr. lia.
    + eapply Forall2_concat_NoDup; [exact Hall| | |].
      * apply NoDup_ListNoDup, List.NoDup_filter, NoDup_ListNoDup, ps_NoDup.
      * intros j L HL. apply HL.
      * intros j j' L L' x [Hj Hc]%Hch [Hj' Hc']%Hch (_ & HL & _) (_ & HL' & _) Hx Hx'.
        apply HL in Hx. apply HL' in Hx'. by eapply siblings_apart.
  - intros j. simpl. rewrite elem_of_cons. split.
    + intros [->|(x & -> & Hx)%list_elem_of_fmap]; [constructor|].
      destruct (Hsub x Hx) as (j & L & [Hj Hc] & (_ & Hmem & _) & HxL & _).
      eapply rtc_l; [by split|]. apply Hmem. apply list_elem_of_fmap. eauto.
    + intros [->|(j' & [Hj' Hc] & Hrest)]%rtc_inv; [by left|]. right.
      destruct (Forall2_elem_concat _ _ _ j' Hall) as (L & (_ & Hmem & _) & Hin).
      { by apply Hch. }
      apply Hmem in Hrest. apply list_elem_of_fmap in Hrest as (x & -> & Hx).
      apply list_elem_of_fmap. exists x. split; [done|]. by apply Hin.
  - intros k' j. simpl. rewrite elem_of_cons.
    intros [Heq|Hx]; [by left|]. right.
    destruct (Hsub _ Hx) as (j' & L & [Hj' Hc] & (_ & _ & Hdepth) & HxL & Hin).
    destruct (Hdepth _ _ HxL) as [[= -> ->]|(q & k'' & Hq & -> & Hqin)].
    + exists i, k. split_and!; [done..|]. by left.
    + exists q, k''. split_and!; [done..|]. right. by apply Hin.
Qed.

(** What the loop of main over the roots prints: every commit of the slice
    once, a root with no indentation and any other commit one level below
    its parent. *)
Lemma roots_forest :
  exists visits,
    printEach (fun r => treeVisit treeFuel heap r 0) (List.filter root ps) ([], Printed)
      = (visits, Printed) /\
    map snd visits ≡ₚ ps /\
    (forall k j, (k, j) ∈ visits ->
       (root j = true /\ k = 0%nat) \/
       exists q k', childOf q j = true /\ k = S k' /\ (k', q) ∈ visits).
Proof using ps_NoDup heap_descs parent_unique parent_below root_or_child
            root_no_parent ver_bound.
  assert (Hr : forall r, r ∈ List.filter root ps <-> r ∈ ps /\ root r = true).
  { intros r. apply elem_of_bool_filter. }
  destruct (printEach_all (fun r => treeVisit treeFuel heap r 0)
              (List.filter root ps) (visited 0)) with (out := @nil (nat * ptr))
    as (Ls & -> & Hall).
  { intros r [Hrp Hroot]%Hr. apply treeVisit_forest; [done|by left|..];
      unfold treeFuel; lia. }
  eexists. split; [done|]. simpl. split.
  - apply NoDup_Permutation; [|exact ps_NoDup|].
    + eapply Forall2_concat_NoDup; [exact Hall| | |].
      * apply NoDup_ListNoDup, List.NoDup_filter, NoDup_ListNoDup, ps_NoDup.
      * intros r L HL. apply HL.
      * intros r r' L L' x [_ Hroot]%Hr [_ Hroot']%Hr (_ & HL & _) (_ & HL' & _) Hx Hx'.
        apply HL in Hx. apply HL' in Hx'. by eapply roots_apart.
    + intros j. split.
      * intros (x & -> & Hx)%list_elem_of_fmap.
        destruct (Forall2_concat_elem _ _ _ _ Hall Hx)
          as (r & L & [Hrp _]%Hr & (_ & Hmem & _) & HxL & _).
        eapply below_in_ps; [exact Hrp|]. apply Hmem. apply list_elem_of_fmap. eauto.
      * intros Hj. destruct (has_root j Hj) as (r & Hrp & Hroot & Hrj).
        destruct (Forall2_elem_concat _ _ _ r Hall) as (L & (_ & Hmem & _) & Hin).
        { by apply Hr. }
        apply Hmem in Hrj. apply list_elem_of_fmap in Hrj as (x & -> & Hx).
        apply list_elem_of_fmap. exists x. split; [done|]. by apply Hin.
  - intros k j Hx.
    destruct (Forall2_concat_elem _ _ _ _ Hall Hx)
      as (r & L & [Hrp Hroot]%Hr & (_ & _ & Hdepth) & HxL & Hin).
    destruct (Hdepth _ _ HxL) as [[= -> ->]|(q & k' & Hq & -> & Hqin)].
    + by left.
    + right. exists q, k'. split_and!; [done..|]. by apply Hin.
Qed.

End Forest.

(** *** sgvc -tree *)

Section TreeOfIndex.
Context {Time : Type}.
Context (time_Format : Time -> string).
Context (time_zero : Time).
Implicit Types (c cmt : commit Time) (cs heap : list (commit Time)) (idx : index Time).

Set Default Proof Using "Type".

Local Abbreviation treePrint := (Sgvc.treePrint time_Format).
Local Abbreviation treeLine := (Sgvc.treeLine time_Format).
Local Abbreviation commitLine := (Sgvc.commitLine time_Format).
Local Abbreviation treeOfCommits := (Sgvc.treeOfCommits time_zero).
Local Abbreviation mainTree := (Sgvc.mainTree time_Format time_zero).

Lemma filterFrom_NoDup (p : string) cs : forall i acc,
  NoDup acc -> (forall j, j ∈ acc -> (j < i)%nat) -> NoDup (filterFrom p i cs acc).
Proof.
  clear time_Format time_zero.
  induction cs as [|c cs IH]; intros i acc Hnd Hlt; simpl; [done|].
  apply IH.
  - destruct (String.eqb (path c) p); [|done].
    apply NoDup_app. split_and!; [done| |apply NoDup_singleton].
    intros j Hj ->%list_elem_of_singleton. apply Hlt in Hj. lia.
  - intros j Hj. destruct (String.eqb (path c) p).
    + apply elem_of_app in Hj as [Hj| ->%list_elem_of_singleton]; [|lia].
      apply Hlt in Hj. lia.
    + apply Hlt in Hj. lia.
Qed.

Lemma filter_NoDup idx (p : string) : NoDup (filter idx p).
Proof.
  clear time_Format time_zero.
  unfold filter. destruct (String.eqb p EmptyString); [apply NoDup_seq|].
  apply filterFrom_NoDup; [constructor|]. intros j Hj. by apply not_elem_of_nil in Hj.
Qed.

Lemma commitLine_setDescs c ds : commitLine (setDescs c ds) = commitLine c.
Proof. done. Qed.

(** main with -tree, in terms of the calls of Printf. *)
Lemma mainTree_visits idx (p : string) dummy heap :
  treeOfCommits idx p = Tree dummy heap ->
  mainTree idx p =
  match printEach (fun r0 => treeVisit treeFuel heap r0 0) (descs dummy)
          ([], Printed) with
  | (vs, Printed) => Exit0 (Lines (map (treeLine heap) vs))
  | (vs, Panicked) => ExitPanic (map (treeLine heap) vs)
  | (_, OutOfFuel) => ExitOutOfFuel
  end.
Proof.
  intros Ht. unfold Sgvc.mainTree. rewrite Ht.
  change (@nil string) with (map (treeLine heap) []).
  rewrite (printEach_map (treeLine heap) _
             (fun r0 => treeVisit treeFuel heap r0 0)).
  - by destruct (printEach _ _ _) as [vs []].
  - intros q _. apply treePrint_treeVisit.
Qed.

(** The calls of Printf with -tree, for an index as loadCommits returns it
    (no commit has children yet) in which the base version of a commit is
    below its version, and no version is above 129. *)
Lemma treeOfCommits_forest idx (p : string) dummy heap :
  (forall c, c ∈ commits idx -> descs c = []) ->
  (forall i c, i ∈ filter idx p -> commits idx !! i = Some c ->
     version c <= 129 /\ (basedOn c > 0 -> basedOn c < version c)) ->
  treeOfCommits idx p = Tree dummy heap ->
  exists visits : list (nat * ptr),
    printEach (fun r0 => treeVisit treeFuel heap r0 0) (descs dummy) ([], Printed)
      = (visits, Printed) /\
    map (treeLine heap) visits = map (treeLine (commits idx)) visits /\
    map snd visits ≡ₚ filter idx p /\
    (forall k i c, (k, i) ∈ visits -> commits idx !! i = Some c ->
       if basedOn c >? 0 then
         exists k' q cq, k = S k' /\ (k', q) ∈ visits /\
           commits idx !! q = Some cq /\
           path cq = path c /\ version cq = basedOn c
       else k = 0%nat).
Proof.
  intros Hempty Hver Ht.
  pose proof (treeOfCommits_spec time_zero idx p) as Hspec. simpl in Hspec.
  rewrite Ht in Hspec. destruct Hspec as (Hd & Hlen & Hheap & Hpar).
  set (cs0 := commits idx) in *. set (ps := filter idx p) in *.
  set (m := buildMap cs0 ps) in *.
  set (ver := fun i : ptr => match cs0 !! i with Some c => version c | None => 0 end).
  assert (Hnode : forall i, i ∈ ps -> exists c, cs0 !! i = Some c).
  { intros i (c & Hc & _)%filter_elem. by exists c. }
  assert (Hchild : forall q j, isChildOf cs0 m q j = true ->
            exists c, cs0 !! j = Some c /\ basedOn c > 0 /\
                      m !! (path c, basedOn c) = Some q).
  { intros q j. unfold isChildOf. destruct (cs0 !! j) as [c|]; [|done].
    intros [Hb Hm]%andb_true_iff. apply bool_decide_eq_true in Hm.
    apply Z.gtb_lt in Hb. exists c. split_and!; [done|lia|done]. }
  destruct (roots_forest heap ps (isChildOf cs0 m) (isRoot cs0) ver)
    as (visits & Hrun & Hperm & Hdepth).
  - apply filter_NoDup.
  - intros i Hi. destruct (Hnode i Hi) as [c Hc].
    eexists. split; [by apply Hheap|]. simpl.
    rewrite (Hempty c); [done|]. apply list_elem_of_lookup. eauto.
  - intros q q' j (c & Hc & _ & Hq)%Hchild (c' & Hc' & _ & Hq')%Hchild. congruence.
  - intros q j Hj (c & Hc & Hb & Hq)%Hchild.
    apply buildMap_Some in Hq as (Hqp & cq & Hcq & Hsig).
    split; [done|]. unfold ver. rewrite Hc, Hcq.
    unfold sigOf in Hsig. injection Hsig as _ Hv.
    destruct (Hver j c Hj Hc) as [_ Hlt]. specialize (Hlt Hb). lia.
  - intros j Hj. destruct (Hnode j Hj) as [c Hc].
    unfold isRoot, isChildOf. rewrite Hc.
    destruct (basedOn c >? 0) eqn:Hb; [right|by left].
    apply Z.gtb_lt in Hb. destruct (Hpar j c Hj Hc ltac:(lia)) as [q Hq].
    exists q. simpl. by apply bool_decide_eq_true.
  - intros q j. unfold isRoot, isChildOf. destruct (cs0 !! j) as [c|]; [|done].
    by intros ->%negb_true_iff.
  - intros j Hj. destruct (Hnode j Hj) as [c Hc]. unfold ver. rewrite Hc.
    by destruct (Hver j c Hj Hc).
  - exists visits. split_and!; [|..|done|].
    + assert (Hroots : descs dummy = List.filter (isRoot cs0) ps) by by rewrite Hd.
      by rewrite Hroots.
    + apply map_ext_in. intros [k j] Hin. unfold Sgvc.treeLine. cbn [fst snd].
      assert (Hj : j ∈ ps).
      { rewrite <- Hperm. apply list_elem_of_fmap. exists (k, j).
        split; [done|]. by apply list_elem_of_In. }
      destruct (Hnode j Hj) as [c Hc]. by rewrite (Hheap _ _ Hc), Hc.
    + intros k i c Hin Hc. destruct (Hdepth k i Hin) as [[Hr ->]|(q & k' & Hq & -> & Hqin)].
      * unfold isRoot in Hr. rewrite Hc in Hr. apply negb_true_iff in Hr. by rewrite Hr.
      * apply Hchild in Hq as (c' & Hc' & Hb & Hq). rewrite Hc in Hc'. injection Hc' as <-.
        assert (Hgt : (basedOn c >? 0) = true) by (apply Z.gtb_lt; lia).
        rewrite Hgt. apply buildMap_Some in Hq as (_ & cq & Hcq & Hsig).
        unfold sigOf in Hsig. injection Hsig as Hp' Hv.
        exists k', q, cq. done.
Qed.

(** X8. sgvc -tree prints every commit once. Take an index as loadCommits
    returns it (no commit has children yet) and a path whose filtered
    commits have versions up to 129 and a base version, when it is above 0,
    below their version, and let treeOfCommits return. Then main with -tree
    exits with status 0, no panic, having printed one line per call of
    Printf, and these calls are for the commits of the filtered slice, each
    commit exactly once. A commit whose base version is not above 0 is
    printed with no indentation, and any other commit one level deeper
    than a commit of its path whose version is its base version, which is
    printed too. *)
Theorem X8_tree_prints_every_commit_once idx (p : string) dummy heap :
  (forall c, c ∈ commits idx -> descs c = []) ->
  (forall i c, i ∈ filter idx p -> commits idx !! i = Some c ->
     version c <= 129 /\ (basedOn c > 0 -> basedOn c < version c)) ->
  treeOfCommits idx p = Tree dummy heap ->
  exists visits : list (nat * ptr),
    mainTree idx p = Exit0 (Lines (map (treeLine (commits idx)) visits)) /\
    map snd visits ≡ₚ filter idx p /\
    (forall k i c, (k, i) ∈ visits -> commits idx !! i = Some c ->
       if basedOn c >? 0 then
         exists k' q cq, k = S k' /\ (k', q) ∈ visits /\
           commits idx !! q = Some cq /\
           path cq = path c /\ version cq = basedOn c
       else k = 0%nat).
Proof.
  intros Hempty Hver Ht.
  destruct (treeOfCommits_forest idx p dummy heap Hempty Hver Ht)
    as (visits & Hrun & Hlines & Hperm & Hdepth).
  exists visits. split_and!; [|done..].
  by rewrite (mainTree_visits _ _ _ _ Ht), Hrun, Hlines.
Qed.

(** X9. treePrint panics at indentation 129. [tabs] holds 128 tabs and
    [tabs[0:indend]] is out of range above that: when the tree that
    treeOfCommits returns has a root followed by a chain of 129 commits,
    each a child of the one before it, main with -tree ends in a run-time
    panic, after the lines printed so far. *)
Theorem X9_tree_panics_at_depth_129 idx (p : string) dummy heap
    (r : ptr) (chain : list ptr) :
  treeOfCommits idx p = Tree dummy heap ->
  r ∈ descs dummy ->
  descends heap (r :: chain) = true ->
  (129 <= length chain)%nat ->
  exists printed, mainTree idx p = ExitPanic printed.
Proof.
  intros Ht Hr Hd Hlen. rewrite (mainTree_visits _ _ _ _ Ht).
  pose proof (printEach_fails (fun r0 => treeVisit treeFuel heap r0 0)
                (descs dummy) r Hr
                (treeVisit_chain treeFuel heap chain r 0 Hd ltac:(lia))
                ([], Printed)) as Hbad.
  assert (Hfuel : snd (printEach (fun r0 => treeVisit treeFuel heap r0 0)
                         (descs dummy) ([], Printed)) <> OutOfFuel).
  { apply (printEach_status _ _ (fun st => st <> OutOfFuel)); [|done].
    intros q _. apply treeVisit_fuel; unfold treeFuel; lia. }
  destruct (printEach _ _ _) as [out st]. cbn [snd] in *.
  destruct st; [done| |done]. by eexists.
Qed.

End TreeOfIndex.

(** *** slices.Sort on strings *)

Lemma string_le_trans a b c : string_le a b -> string_le b c -> string_le a c.
Proof.
  unfold string_le. intros Hab Hbc.
  destruct (String.compare a b) eqn:E1; [|clear Hab|done].
  - apply String.compare_eq_iff in E1 as ->. done.
  - destruct (String.compare b c) eqn:E2; [| |done].
    + apply String.compare_eq_iff in E2 as <-. by rewrite E1.
    + by rewrite (string_compare_Lt_trans _ _ _ E1 E2).
Qed.

Lemma strings_Compare_lt a b :
  (strings_Compare a b <? 0) = true <-> string_lt a b.
Proof.
  unfold strings_Compare, string_lt.
  destruct (String.compare a b); cbn; split; done.
Qed.

Lemma strings_Compare_ge a b :
  (strings_Compare a b <? 0) = false -> string_le b a.
Proof.
  unfold strings_Compare, string_le. rewrite (String.compare_antisym b a).
  destruct (String.compare a b); cbn; done.
Qed.

Lemma sink_strings_sorted x l :
  StronglySorted (flip string_le) l ->
  StronglySorted (flip string_le) (sink strings_Compare x l).
Proof.
  induction l as [|y ys IH]; simpl; intros Hs.
  - repeat constructor.
  - apply StronglySorted_cons in Hs as [Hy Hs].
    destruct (strings_Compare x y <? 0) eqn:Hc.
    + apply StronglySorted_cons. split; [|by apply IH].
      apply Forall_forall. intros z Hz.
      rewrite sink_Permutation in Hz. apply elem_of_cons in Hz as [->|Hz].
      * apply strings_Compare_lt in Hc. unfold flip, string_le, string_lt in *.
        by rewrite Hc.
      * by eapply Forall_forall in Hy.
    + apply strings_Compare_ge in Hc.
      apply StronglySorted_cons. split.
      * constructor; [done|]. apply Forall_forall. intros z Hz.
        eapply Forall_forall in Hy; [|done]. unfold flip in *.
        by eapply string_le_trans.
      * by apply StronglySorted_cons.
Qed.

Lemma slices_Sort_sorted l : StronglySorted string_le (slices_Sort l).
Proof.
  unfold slices_Sort, slices_SortFunc. apply StronglySorted_rev.
  assert (H : forall acc,
    StronglySorted (flip string_le) acc ->
    StronglySorted (flip string_le)
      (fold_left (fun s x => sink strings_Compare x s) l acc)).
  { induction l as [|x l IH]; simpl; intros acc Hs; [done|].
    apply IH. by apply sink_strings_sorted. }
  apply H. constructor.
Qed.

Lemma slices_Sort_Permutation l : slices_Sort l ≡ₚ l.
Proof. apply slices_SortFunc_Permutation. Qed.

Lemma sorted_strict l :
  NoDup l -> StronglySorted string_le l -> StronglySorted string_lt l.
Proof.
  induction l as [|x l IH]; intros Hnd Hs; [constructor|].
  apply NoDup_cons in Hnd as [Hx Hnd].
  apply StronglySorted_cons in Hs as [Hall Hs].
  apply StronglySorted_cons. split; [|by apply IH].
  apply Forall_forall. intros y Hy.
  eapply Forall_forall in Hall; [|done].
  unfold string_le, string_lt in *.
  destruct (String.compare x y) eqn:E; [|done..].
  apply String.compare_eq_iff in E as ->. done.
Qed.

(** The sorted slice does not depend on the order of the elements. *)
Lemma slices_Sort_order l l' :
  NoDup l -> l ≡ₚ l' -> slices_Sort l = slices_Sort l'.
Proof.
  intros Hnd Hperm.
  apply (StronglySorted_unique_strong string_lt).
  - unfold string_lt. intros x y _ _ Hxy Hyx.
    rewrite String.compare_antisym, Hxy in Hyx. done.
  - apply sorted_strict; [by rewrite slices_Sort_Permutation|apply slices_Sort_sorted].
  - apply sorted_strict; [|apply slices_Sort_sorted].
    by rewrite slices_Sort_Permutation, <- Hperm.
  - by rewrite !slices_Sort_Permutation.
Qed.

(** *** sgvc -list *)

Section ListFiles.
Context {Time : Type}.
Implicit Types (c cmt : commit Time) (cs : list (commit Time)) (idx : index Time).

(** The map of -list holds, for each path of the index, the signature of
    the last commit of that path. *)
Lemma pathSigs_lookup idx (p : string) :
  pathSigs idx !! p =
  pathSig <$> last (List.filter (fun c => String.eqb (path c) p) (commits idx)).
Proof.
  unfold pathSigs. generalize (commits idx). intros cs.
  induction cs as [|c cs IH] using rev_ind; [done|].
  rewrite fold_left_app, filter_snoc. cbn [fold_left].
  destruct (String.eqb (path c) p) eqn:Hp.
  - apply String.eqb_eq in Hp as <-. rewrite lookup_insert_eq.
    by rewrite last_snoc.
  - apply String.eqb_neq in Hp. rewrite lookup_insert_ne by done.
    by rewrite app_nil_r.
Qed.

Lemma pathSigs_keys idx (p : string) :
  p ∈ (map_to_list (pathSigs idx)).*1 <-> exists c, c ∈ commits idx /\ path c = p.
Proof.
  split.
  - intros ([p' s] & -> & Hin)%list_elem_of_fmap.
    apply elem_of_map_to_list in Hin. rewrite pathSigs_lookup in Hin. simpl in *.
    destruct (last _) as [c|] eqn:Hlast; [|done].
    apply last_Some_elem_of in Hlast.
    apply elem_of_bool_filter in Hlast as [Hc Hp]. apply String.eqb_eq in Hp.
    by exists c.
  - intros (c & Hc & Hp).
    assert (Hsome : is_Some (pathSigs idx !! p)).
    { rewrite pathSigs_lookup.
      assert (Hin : c ∈ List.filter (fun c => String.eqb (path c) p) (commits idx)).
      { apply elem_of_bool_filter. split; [done|]. by apply String.eqb_eq. }
      destruct (List.filter _ _) as [|x l] using rev_ind.
      - by apply not_elem_of_nil in Hin.
      - rewrite last_snoc. by eexists. }
    destruct Hsome as [s Hs]. apply list_elem_of_fmap. exists (p, s).
    split; [done|]. by apply elem_of_map_to_list.
Qed.

(** X10. sgvc -list. The range over the map yields the paths in any
    order (it is a permutation of the keys of the map). main prints one
    line per path of the index, the paths strictly ascending, each with the
    signature of the last commit of that path in the index, and the lines
    are the same for every order of the range. *)
Theorem X10_list_of_tracked_files idx (env : main_env Time) :
  range_keys env (pathSigs idx) ≡ₚ (map_to_list (pathSigs idx)).*1 ->
  exists paths,
    mainList idx env = map (listLine (pathSigs idx)) paths /\
    StronglySorted (fun a b => String.compare a b = Lt) paths /\
    (forall p, p ∈ paths <-> exists c, c ∈ commits idx /\ path c = p) /\
    (forall p, pathSigs idx !! p =
       pathSig <$> last (List.filter (fun c => String.eqb (path c) p) (commits idx))) /\
    (forall env' : main_env Time,
       range_keys env' (pathSigs idx) ≡ₚ (map_to_list (pathSigs idx)).*1 ->
       mainList idx env' = mainList idx env).
Proof.
  intros Hkeys.
  assert (Hnd : NoDup (range_keys env (pathSigs idx))).
  { rewrite Hkeys. apply NoDup_fst_map_to_list. }
  exists (slices_Sort (range_keys env (pathSigs idx))). split_and!.
  - done.
  - apply sorted_strict; [by rewrite slices_Sort_Permutation|apply slices_Sort_sorted].
  - intros p. rewrite slices_Sort_Permutation, Hkeys. apply pathSigs_keys.
  - apply pathSigs_lookup.
  - intros env' Hkeys'. unfold mainList. f_equal.
    apply slices_Sort_order.
    + rewrite Hkeys'. apply NoDup_fst_map_to_list.
    + by rewrite Hkeys, Hkeys'.
Qed.

End ListFiles.

(** *** main *)

Section Main.
Context {Time : Type}.
Context (time_Format : Time -> string).
Context (time_Parse : string -> option Time).
Context (time_zero : Time).
Context (strconv_Quote : string -> string).
Implicit Types (c cmt : commit Time) (cs : list (commit Time)) (idx : index Time)
               (env : main_env Time) (fl : flags).

Set Default Proof Using "Type".

Local Abbreviation getIndex := (Sgvc.getIndex time_Parse).
Local Abbreviation index_commit := (Sgvc.index_commit time_Format strconv_Quote).
Local Abbreviation mainAdd := (Sgvc.mainAdd time_Format time_Parse strconv_Quote).
Local Abbreviation mainCat := (Sgvc.mainCat time_Parse).
Local Abbreviation mainTree := (Sgvc.mainTree time_Format time_zero).
Local Abbreviation mainCommits := (Sgvc.mainCommits time_Format).
Local Abbreviation runCommand := (Sgvc.runCommand time_Format time_zero strconv_Quote).
Local Abbreviation main := (Sgvc.main time_Format time_Parse time_zero strconv_Quote).

Lemma mainTree_not_usage idx (p : string) : mainTree idx p <> ExitUsage.
Proof.
  unfold Sgvc.mainTree. destruct (Sgvc.treeOfCommits _ _ _); [|done].
  by destruct (printEach _ _ _) as [out []].
Qed.

Lemma mainDiff_not_usage idx d env fl (p : string) : mainDiff idx d env fl p <> ExitUsage.
Proof.
  unfold mainDiff.
  destruct (load idx d env p (diffFrom fl)) as [l1 [from|e1]]; [|done].
  destruct (load idx d env p (diffTo fl)) as [l2 [to|e2]]; [|done].
  by destruct (temp_files env).
Qed.

Lemma runCommand_not_usage idx d env fl (p : string) :
  fst (runCommand idx d env fl p) <> ExitUsage.
Proof.
  unfold Sgvc.runCommand.
  destruct (printList fl); [done|]. destruct (printCommits fl); [done|].
  destruct (printTree fl); [apply mainTree_not_usage|].
  destruct (negb _).
  { by destruct (index_commit _ _ _ _ _ _) as [[[e|] d'] tr]. }
  destruct (catVersion fl >? 0).
  { by destruct (extract _ _ _ _). }
  destruct (diffVersions fl); [apply mainDiff_not_usage|done].
Qed.

Lemma requiresFile_bool fl :
  negb (String.eqb (commitMessage fl) EmptyString) || (catVersion fl >? 0)
  || diffVersions fl = true <-> requiresFile fl.
Proof.
  unfold requiresFile. rewrite !orb_true_iff, negb_true_iff.
  rewrite String.eqb_neq, Z.gtb_lt. split; intros [[?|?]|?] || intros [?|[?|?]]; auto; lia.
Qed.

Lemma optionalFile_bool fl :
  printList fl || printCommits fl || printTree fl = true <-> optionalFile fl.
Proof.
  clear strconv_Quote time_Format time_Parse time_zero.
  unfold optionalFile. rewrite !orb_true_iff. tauto.
Qed.

(** X11. Once the index is loaded, main ends in usage() exactly when no
    command is given (the commands are -add with a message that is not
    empty, -cat with a version above 0, -diff, -list, -commits, -tree), or
    a command that requires the file is given and the number of arguments
    is not 1, or a command with an optional file is given and there is more
    than one argument. So -cat 0 and -add with the empty message are no
    commands. *)
Theorem X11_usage_conditions cacheDir d env fl idx :
  getIndex cacheDir d = Started idx ->
  fst (main cacheDir d env fl) = ExitUsage <->
  (~ requiresFile fl /\ ~ optionalFile fl) \/
  (requiresFile fl /\ length (args fl) <> 1%nat) \/
  (optionalFile fl /\ (1 < length (args fl))%nat).
Proof.
  intros Hidx. unfold Sgvc.main. rewrite Hidx.
  pose proof (requiresFile_bool fl) as Hr. pose proof (optionalFile_bool fl) as Ho.
  pose proof (Nat.eqb_eq (length (args fl)) 1) as H1.
  pose proof (Nat.ltb_lt 1 (length (args fl))) as H2.
  destruct (negb (String.eqb (commitMessage fl) EmptyString) || (catVersion fl >? 0)
            || diffVersions fl);
  destruct (printList fl || printCommits fl || printTree fl);
  destruct (length (args fl) =? 1)%nat;
  destruct (1 <? length (args fl))%nat;
  cbn [negb andb orb fst];
  repeat match goal with
         | H : true = true <-> _ |- _ => apply proj1 in H; specialize (H eq_refl)
         | H : false = true <-> ?P |- _ =>
             assert (~ P) by (intros HP; apply H in HP; discriminate); clear H
         end;
  (split; [intros Hu | intros Hrhs]); try done;
  try (exfalso; destruct (resolvePath env fl) as [f|cpath]; [done|];
       by apply runCommand_not_usage in Hu);
  intuition lia.
Qed.

(** X12. Every command checks the file argument first. With one argument
    and a command given, main exits with the resolution error when
    filepath.Abs fails, and with the error "read failed" when os.Stat of
    the resolved path fails, and the index file and the stored files are
    left as they are. This holds for -cat, -commits, -tree and -list too,
    which read the work directory only: no version of a file that is gone
    can be printed. *)
Theorem X12_file_argument_must_exist cacheDir d env fl idx (arg0 : string) :
  getIndex cacheDir d = Started idx ->
  args fl = [arg0] ->
  requiresFile fl \/ optionalFile fl ->
  match filepath_Abs env arg0 with
  | None => main cacheDir d env fl = (ExitFatal ResolutionFailed, d)
  | Some cpath =>
      os_Stat env cpath = false ->
      main cacheDir d env fl = (ExitFatal (StatFailed cpath), d)
  end.
Proof.
  intros Hidx Hargs Hcmd. unfold Sgvc.main, resolvePath. rewrite Hidx, Hargs.
  pose proof (requiresFile_bool fl) as Hr. pose proof (optionalFile_bool fl) as Ho.
  destruct (negb (String.eqb (commitMessage fl) EmptyString) || (catVersion fl >? 0)
            || diffVersions fl) eqn:Er;
  destruct (printList fl || printCommits fl || printTree fl) eqn:Eo;
  cbn [negb andb orb length Nat.eqb Nat.ltb Nat.leb];
  try (exfalso; intuition congruence);
  (destruct (filepath_Abs env arg0) as [cpath|]; [by intros ->|done]).
Qed.

(** X13. Only -add writes. The work directory is the text of the index
    file and the contents of the stored files (an index file that getIndex
    has just created is an empty one). When a run of main leaves it
    different from what it was, then -add was given with a message that is
    not empty, none of -list, -commits and -tree was given (each of them
    runs first and exits), there was one argument, which resolved to an
    existing path, and the work directory is the one that commit leaves for
    that path, the base version and the message given. *)
Theorem X13_only_add_changes_the_work_directory cacheDir d env fl :
  snd (main cacheDir d env fl) <> d ->
  commitMessage fl <> EmptyString /\
  printList fl = false /\ printCommits fl = false /\ printTree fl = false /\
  exists idx arg0 cpath,
    getIndex cacheDir d = Started idx /\ args fl = [arg0] /\
    filepath_Abs env arg0 = Some cpath /\ os_Stat env cpath = true /\
    snd (main cacheDir d env fl) =
    snd (fst (index_commit idx d (cenv env) cpath (baseVersion fl) (commitMessage fl))).
Proof.
  unfold Sgvc.main. destruct (getIndex cacheDir d) as [idx|e] eqn:Hidx; [|done].
  destruct (negb _ && negb _); [done|].
  destruct (_ && negb (length (args fl) =? 1)%nat || _ && (1 <? length (args fl))%nat)
    eqn:Hn; [done|].
  destruct (resolvePath env fl) as [f|cpath] eqn:Hres; [done|].
  unfold Sgvc.runCommand.
  destruct (printList fl); [done|]. destruct (printCommits fl); [done|].
  destruct (printTree fl); [done|].
  destruct (negb (String.eqb (commitMessage fl) EmptyString)) eqn:Hmsg.
  2: { destruct (catVersion fl >? 0); [by destruct (extract _ _ _ _)|].
       by destruct (diffVersions fl). }
  cbn [orb andb] in Hn.
  apply orb_false_iff in Hn as [Hn _]. apply negb_false_iff, Nat.eqb_eq in Hn.
  apply negb_true_iff, String.eqb_neq in Hmsg.
  intros Hd. split_and!; try done.
  unfold resolvePath in Hres.
  destruct (args fl) as [|arg0 [|arg1 rest]]; [done| |done].
  destruct (filepath_Abs env arg0) as [cpath'|] eqn:Habs; [|done].
  destruct (os_Stat env cpath') eqn:Hstat; [|done]. injection Hres as ->.
  exists idx, arg0, cpath. split_and!; try done.
  by destruct (index_commit _ _ _ _ _ _) as [[[e|] d'] tr].
Qed.

(** main with -add, and with -cat, when no other command comes first. *)
Lemma main_add_run cacheDir d env fl (arg0 cpath : string) :
  args fl = [arg0] -> filepath_Abs env arg0 = Some cpath -> os_Stat env cpath = true ->
  printList fl = false -> printCommits fl = false -> printTree fl = false ->
  commitMessage fl <> EmptyString ->
  main cacheDir d env fl =
  let r := mainAdd cacheDir d (cenv env) cpath (baseVersion fl) (commitMessage fl) in
  (match fst (fst r) with
   | Some e => ExitFatal (FatalError e)
   | None => Exit0 Nothing
   end, snd (fst r)).
Proof.
  intros Hargs Habs Hstat Hl Hc Ht Hmsg.
  unfold Sgvc.main, Sgvc.mainAdd, resolvePath, Sgvc.runCommand.
  rewrite Hargs, Habs, Hstat, Hl, Hc, Ht.
  apply String.eqb_neq in Hmsg. rewrite Hmsg.
  cbn [negb andb orb length Nat.eqb Nat.ltb Nat.leb].
  destruct (getIndex cacheDir d) as [idx|e]; [|done].
  by destruct (index_commit _ _ _ _ _ _) as [[[e|] d'] tr].
Qed.

Lemma main_cat_run cacheDir d env fl (arg0 cpath : string) :
  args fl = [arg0] -> filepath_Abs env arg0 = Some cpath -> os_Stat env cpath = true ->
  printList fl = false -> printCommits fl = false -> printTree fl = false ->
  commitMessage fl = EmptyString -> catVersion fl > 0 ->
  main cacheDir d env fl =
  (match mainCat cacheDir d cpath (catVersion fl) with
   | Ok data => Exit0 (Data data)
   | Err e => ExitFatal (FatalError e)
   end, d).
Proof.
  intros Hargs Habs Hstat Hl Hc Ht Hmsg Hcat.
  unfold Sgvc.main, Sgvc.mainCat, resolvePath, Sgvc.runCommand.
  rewrite Hargs, Habs, Hstat, Hl, Hc, Ht.
  apply String.eqb_eq in Hmsg. rewrite Hmsg.
  assert (Hgt : (catVersion fl >? 0) = true) by (apply Z.gtb_lt; lia).
  rewrite Hgt. cbn [negb andb orb length Nat.eqb Nat.ltb Nat.leb].
  destruct (getIndex cacheDir d) as [idx|e]; [|done].
  by destruct (extract _ _ _ _).
Qed.

End Main.

(** *** main after a history of plain commits *)

Lemma upTo_sorted n : StronglySorted Z.le (upTo n).
Proof.
  induction n as [|n IH]; [constructor|].
  rewrite upTo_S. apply StronglySorted_app. split_and!; [|done|repeat constructor].
  intros a b Ha Hb. apply upTo_elem in Ha. apply list_elem_of_singleton in Hb. lia.
Qed.

Lemma upTo_rev_sorted n : StronglySorted (flip Z.le) (rev (upTo n)).
Proof. apply StronglySorted_rev. apply upTo_sorted. Qed.

Lemma StronglySorted_map {A B} (f : A -> B) (R : relation B) l :
  StronglySorted (fun a b => R (f a) (f b)) l -> StronglySorted R (map f l).
Proof.
  induction 1 as [|x l Hs IH Hall]; simpl; constructor; [done|].
  apply Forall_forall. intros y (a & -> & Ha)%list_elem_of_fmap.
  by eapply Forall_forall in Hall.
Qed.

Section MainOnHistories.
Context {Time : Type}.
Context (time_Format : Time -> string).
Context (time_Parse : string -> option Time).
Context (time_zero : Time).
Context (strconv_Quote : string -> string).
Implicit Types (c cmt : commit Time) (cs : list (commit Time)) (idx : index Time)
               (env : main_env Time) (fl : flags).

Set Default Proof Using "Type".

Local Abbreviation getIndex := (Sgvc.getIndex time_Parse).
Local Abbreviation newCommit := (Sgvc.newCommit strconv_Quote).
Local Abbreviation serialize := (Sgvc.serialize time_Format).
Local Abbreviation index_commit := (Sgvc.index_commit time_Format strconv_Quote).
Local Abbreviation mainAdd := (Sgvc.mainAdd time_Format time_Parse strconv_Quote).
Local Abbreviation mainCat := (Sgvc.mainCat time_Parse).
Local Abbreviation mainTree := (Sgvc.mainTree time_Format time_zero).
Local Abbreviation mainCommits := (Sgvc.mainCommits time_Format).
Local Abbreviation commitLine := (Sgvc.commitLine time_Format).
Local Abbreviation treeLine := (Sgvc.treeLine time_Format).
Local Abbreviation treeOfCommits := (Sgvc.treeOfCommits time_zero).
Local Abbreviation main := (Sgvc.main time_Format time_Parse time_zero strconv_Quote).
Local Abbreviation plain := (Sgvc.plain time_Format time_Parse strconv_Quote).
Local Abbreviation committed := (Sgvc.committed time_Format time_Parse strconv_Quote).
Local Abbreviation consistent := (Sgvc.consistent time_Parse).

Lemma committed_version cacheDir d h c data :
  committed cacheDir d h -> Z.of_nat (length h) <= int_max ->
  (c, data) ∈ h -> 1 <= version c <= Z.of_nat (length h).
Proof.
  intros Hc Hlen Hin.
  pose proof (committed_consistent time_Format time_Parse strconv_Quote _ _ _ Hc Hlen)
    as (_ & _ & Hvers).
  assert (Hel : version c ∈ versionsOf (path c) (map fst h)).
  { apply versionsOf_elem; [|done]. apply list_elem_of_fmap. by exists (c, data). }
  rewrite Hvers in Hel. apply upTo_elem in Hel.
  pose proof (versionsOf_length (path c) (map fst h)) as Hn. rewrite length_map in Hn.
  lia.
Qed.

Lemma derefs_filter_path idx (p : string) :
  p <> EmptyString ->
  derefs idx (filter idx p) =
  List.filter (fun c => String.eqb (path c) p) (commits idx).
Proof.
  intros Hp. unfold derefs, filter. apply String.eqb_neq in Hp. rewrite Hp.
  exact (derefs_filterFrom p (commits idx) [] []).
Qed.

(** X14. Round trip through main. After any history of successful plain
    commits on a fresh work directory, sgvc -cat v on a file of which v is
    a committed version (with no -add, -list, -commits or -tree, and
    whatever -diff says) exits with status 0 having written exactly the
    bytes that were committed as that version, and leaves the work
    directory unchanged. *)
Theorem X14_cat_prints_the_committed_bytes cacheDir d h c data env fl (arg0 : string) :
  committed cacheDir d h -> Z.of_nat (length h) <= int_max ->
  (c, data) ∈ h ->
  args fl = [arg0] -> filepath_Abs env arg0 = Some (path c) ->
  os_Stat env (path c) = true ->
  printList fl = false -> printCommits fl = false -> printTree fl = false ->
  commitMessage fl = EmptyString -> catVersion fl = version c ->
  main cacheDir d env fl = (Exit0 (Data data), d).
Proof.
  intros Hc Hlen Hin Hargs Habs Hstat Hl Hcm Ht Hmsg Hcat.
  pose proof (committed_version _ _ _ _ _ Hc Hlen Hin) as Hv.
  rewrite (main_cat_run time_Format time_Parse time_zero strconv_Quote
             cacheDir d env fl arg0 (path c)) by (try done; lia).
  rewrite Hcat.
  by rewrite (plain_commits_round_trip time_Format time_Parse strconv_Quote
                cacheDir d h c data Hc Hlen Hin).
Qed.

(** X15. sgvc -commits on a file, after any history of successful plain
    commits, prints one line per commit of that file, newest first: the
    versions of the commits printed are n, n-1, ..., 1, for the n commits
    of the file in the history. *)
Theorem X15_commits_lists_newest_first cacheDir d h env fl (arg0 p : string) :
  committed cacheDir d h -> Z.of_nat (length h) <= int_max ->
  args fl = [arg0] -> filepath_Abs env arg0 = Some p -> os_Stat env p = true ->
  p <> EmptyString ->
  printList fl = false -> printCommits fl = true ->
  exists cs,
    main cacheDir d env fl = (Exit0 (Lines (map commitLine cs)), d) /\
    Forall (fun c => path c = p) cs /\
    map version cs = rev (upTo (length (versionsOf p (map fst h)))).
Proof.
  intros Hc Hlen Hargs Habs Hstat Hp Hl Hcm.
  destruct (committed_index time_Format time_Parse strconv_Quote _ _ _ Hc Hlen)
    as (idx & Hidx & Hrecs & _ & Hvers & Hsorted).
  exists (derefs idx (filter idx p)). split_and!.
  - unfold Sgvc.main, resolvePath, Sgvc.runCommand.
    rewrite Hidx, Hargs, Habs, Hstat, Hl, Hcm.
    by destruct (negb (String.eqb (commitMessage fl) EmptyString)
                 || (catVersion fl >? 0) || diffVersions fl).
  - rewrite derefs_filter_path by done.
    apply Forall_forall. intros c [_ Hcp]%elem_of_bool_filter.
    by apply String.eqb_eq.
  - rewrite derefs_filter_path by done.
    apply (StronglySorted_unique_strong (flip Z.le)).
    + intros x y _ _ Hxy Hyx. unfold flip in *. lia.
    + apply StronglySorted_map. by apply filter_path_descending.
    + apply upTo_rev_sorted.
    + rewrite <- Permutation_rev. apply Hvers.
Qed.

(** X16. A commit extends a history. After a history of successful plain
    commits, sgvc -add of a plain request, with the working file readable,
    a base version that is 0 or at most the current version of the path,
    and no failing system call, exits with status 0. The work directory it
    leaves is the one of the history with the new commit added, the new
    version is one more than the number of commits of that path so far, and
    sgvc -cat of the new version returns the committed bytes. *)
Theorem X16_add_extends_the_history cacheDir d h env fl (arg0 cpath : string)
    idx data :
  committed cacheDir d h -> Z.of_nat (length h) < int_max ->
  getIndex cacheDir d = Started idx ->
  args fl = [arg0] -> filepath_Abs env arg0 = Some cpath -> os_Stat env cpath = true ->
  printList fl = false -> printCommits fl = false -> printTree fl = false ->
  commitMessage fl <> EmptyString ->
  plain idx {| rq_env := cenv env; rq_path := cpath; rq_base := baseVersion fl;
               rq_msg := commitMessage fl |} = true ->
  working_file (cenv env) = Some data -> fault (cenv env) = NoFault ->
  baseVersion fl = 0 \/ baseVersion fl <= currVersion idx cpath ->
  let cmt := newCommit idx (cenv env) cpath (baseVersion fl) (commitMessage fl) data in
  exists d',
    main cacheDir d env fl = (Exit0 Nothing, d') /\
    committed cacheDir d' (h ++ [(cmt, data)]) /\
    version cmt = Z.of_nat (length (versionsOf cpath (map fst h))) + 1 /\
    mainCat cacheDir d' cpath (version cmt) = Ok data.
Proof.
  intros Hc Hlen Hidx Hargs Habs Hstat Hl Hcm Ht Hmsg Hplain Hw Hf Hbase cmt.
  set (rq := {| rq_env := cenv env; rq_path := cpath; rq_base := baseVersion fl;
                rq_msg := commitMessage fl |}) in *.
  assert (Hchk : negb (baseVersion fl =? 0) && (baseVersion fl >? currVersion idx cpath)
                 = false).
  { apply andb_false_iff. destruct Hbase as [->|Hle]; [by left|right].
    rewrite Z.gtb_ltb. apply Z.ltb_ge. lia. }
  assert (Hrun : exists d' tr,
            mainAdd cacheDir d (cenv env) cpath (baseVersion fl) (commitMessage fl)
            = (None, d', tr)).
  { unfold Sgvc.mainAdd, Sgvc.index_commit. rewrite Hidx, Hw, Hchk, Hf. by eauto. }
  destruct Hrun as (d' & tr & Hrun). exists d'.
  assert (Hnext : committed cacheDir d' (h ++ [(cmt, data)])).
  { by apply (committed_add time_Format time_Parse strconv_Quote cacheDir d h rq idx data d' tr). }
  split_and!.
  - rewrite (main_add_run time_Format time_Parse time_zero strconv_Quote
               cacheDir d env fl arg0 cpath) by done.
    by rewrite Hrun.
  - done.
  - by destruct (plain_commit_next_version time_Format time_Parse strconv_Quote
                   cacheDir d h rq idx data d' tr Hc Hlen Hidx Hplain Hw Hrun).
  - apply (plain_commits_round_trip time_Format time_Parse strconv_Quote
             cacheDir d' _ cmt data Hnext).
    + rewrite length_app. simpl. lia.
    + apply elem_of_app. right. by left.
Qed.

(** X17. After any history of successful plain commits treeOfCommits
    returns for every path argument: no commit misses its parent, so there
    is no nil dereference. For a history of up to 129 commits sgvc -tree
    prints, without panic, one line per commit of the filtered index, each
    commit exactly once. *)
Theorem X17_tree_of_a_history cacheDir d h :
  committed cacheDir d h -> Z.of_nat (length h) <= int_max ->
  exists idx, getIndex cacheDir d = Started idx /\
    (forall p, exists dummy heap, treeOfCommits idx p = Tree dummy heap) /\
    (Z.of_nat (length h) <= 129 ->
     forall p, exists visits : list (nat * ptr),
       mainTree idx p = Exit0 (Lines (map (treeLine (commits idx)) visits)) /\
       map snd visits ≡ₚ filter idx p).
Proof.
  intros Hc Hlen.
  destruct (committed_index time_Format time_Parse strconv_Quote _ _ _ Hc Hlen)
    as (idx & Hidx & Hrecs & _ & Hvers & _).
  exists idx. split; [done|].
  assert (Hret : forall p, exists dummy heap, treeOfCommits idx p = Tree dummy heap).
  { intros p. apply treeOfCommits_returns.
    intros i c Hi Hci Hpos.
    assert (Hcin : c ∈ commits idx) by (apply list_elem_of_lookup; eauto).
    destruct (Hrecs c Hcin) as (_ & Hv & Hb & _).
    assert (Hel : basedOn c ∈ versionsOf (path c) (commits idx)).
    { rewrite Hvers. apply upTo_elem_iff.
      assert (Hvc : version c ∈ versionsOf (path c) (commits idx))
        by by apply versionsOf_elem.
      rewrite Hvers in Hvc. apply upTo_elem in Hvc. lia. }
    apply versionsOf_elem_inv in Hel as (c' & Hc' & Hp' & Hv').
    apply list_elem_of_lookup in Hc' as [j Hj].
    exists j, c'. split_and!; try done.
    apply filter_elem. exists c'. split; [done|].
    apply filter_elem in Hi as (c0 & Hc0 & Hp0).
    rewrite Hci in Hc0. injection Hc0 as <-.
    destruct Hp0 as [->| <-]; [by left | by right]. }
  split; [done|]. intros Hsmall p.
  destruct (Hret p) as (dummy & heap & Htree).
  destruct (treeOfCommits_forest time_Format time_zero idx p dummy heap)
    as (visits & Hrun & Hlines & Hperm & _); [..|done|].
  - intros c Hcin. by destruct (Hrecs c Hcin).
  - intros i c Hi Hci.
    assert (Hcin : c ∈ commits idx) by (apply list_elem_of_lookup; eauto).
    destruct (Hrecs c Hcin) as (_ & Hv & Hb & _). split; [lia|]. intros Hpos. lia.
  - exists visits. split; [|done].
    by rewrite (mainTree_visits time_Format time_zero _ _ _ _ Htree), Hrun, Hlines.
Qed.

(** X18. sgvc -diff after a history of successful plain commits. With
    -from a committed version of the file and -to another one, diff(1) is
    run on the bytes committed as these versions, under the labels
    "path @version" with the version padded to four digits. With -to 0 (or
    a negative number) the second operand is the working file, under the
    label "path". *)
Theorem X18_diff_of_committed_versions cacheDir d h c1 data1 c2 data2 env fl :
  committed cacheDir d h -> Z.of_nat (length h) <= int_max ->
  (c1, data1) ∈ h -> (c2, data2) ∈ h -> path c2 = path c1 ->
  diffFrom fl = version c1 -> temp_files env = true ->
  exists idx, getIndex cacheDir d = Started idx /\
    let label := fun v => String.append (path c1)
                            (String.append " @" (fmt_0d maxVersionLength v)) in
    (diffTo fl = version c2 ->
     mainDiff idx d env fl (path c1) =
     Exit0 (DiffRun (label (version c1)) data1 (label (version c2)) data2)) /\
    (forall w, diffTo fl <= 0 -> working_file (cenv env) = Some w ->
     mainDiff idx d env fl (path c1) =
     Exit0 (DiffRun (label (version c1)) data1 (path c1) w)).
Proof.
  intros Hc Hlen Hin1 Hin2 Hp Hfrom Htemp.
  pose proof (committed_version _ _ _ _ _ Hc Hlen Hin1) as Hv1.
  pose proof (committed_version _ _ _ _ _ Hc Hlen Hin2) as Hv2.
  pose proof (plain_commits_round_trip time_Format time_Parse strconv_Quote
                cacheDir d h c1 data1 Hc Hlen Hin1) as Hcat1.
  pose proof (plain_commits_round_trip time_Format time_Parse strconv_Quote
                cacheDir d h c2 data2 Hc Hlen Hin2) as Hcat2.
  unfold Sgvc.mainCat in Hcat1, Hcat2.
  destruct (getIndex cacheDir d) as [idx|e]; [|done].
  exists idx. split; [done|]. intros label.
  assert (Hg1 : (version c1 >? 0) = true) by (apply Z.gtb_lt; lia).
  assert (Hg2 : (version c2 >? 0) = true) by (apply Z.gtb_lt; lia).
  split.
  - intros Hto. rewrite Hp in Hcat2.
    unfold mainDiff, load. by rewrite Hfrom, Hto, Hg1, Hg2, Hcat1, Hcat2, Htemp.
  - intros w Hto Hw. unfold mainDiff, load. rewrite Hfrom, Hg1, Hcat1.
    assert (Hg : (diffTo fl >? 0) = false) by (rewrite Z.gtb_ltb; apply Z.ltb_ge; lia).
    by rewrite Hg, Hw, Htemp.
Qed.

(** X19. A log line of 64 KiB. commit puts no bound on the line it
    appends. When the serialized commit has 65536 bytes or more (a long
    message), the commit succeeds and stores the content, and every later
    process fails in loadCommits with the scanner's ErrTooLong, so that no
    version can be extracted any more. *)
Theorem X19_long_line_ends_later_processes cacheDir d h (rq : request Time)
    idx data d' tr :
  committed cacheDir d h -> Z.of_nat (length h) <= int_max ->
  getIndex cacheDir d = Started idx ->
  too_long (serialize (newCommit idx (rq_env rq) (rq_path rq) (rq_base rq)
                         (rq_msg rq) data)) = true ->
  has_char lf (rq_path rq) = false ->
  has_char lf (time_Format (now (rq_env rq))) = false ->
  has_char lf (strconv_Quote (rq_msg rq)) = false ->
  working_file (rq_env rq) = Some data ->
  mainAdd cacheDir d (rq_env rq) (rq_path rq) (rq_base rq) (rq_msg rq)
    = (None, d', tr) ->
  let cmt := newCommit idx (rq_env rq) (rq_path rq) (rq_base rq) (rq_msg rq) data in
  store d' !! filePath idx cmt = Some data /\
  getIndex cacheDir d' = Exited ErrTooLong /\
  (forall p v, mainCat cacheDir d' p v = Err ErrTooLong).
Proof.
  intros Hc Hlen Hidx Hlong Hlf Hstamp Hquoted Hw Hadd cmt.
  pose proof (committed_consistent time_Format time_Parse strconv_Quote _ _ _ Hc Hlen)
    as ((ls & recs & Hfile & Hls & Hrecs & _) & _ & _).
  unfold Sgvc.mainAdd in Hadd. rewrite Hidx in Hadd.
  unfold Sgvc.index_commit in Hadd. rewrite Hw in Hadd.
  destruct (negb (rq_base rq =? 0) && (rq_base rq >? currVersion idx (rq_path rq)));
    [done|].
  fold cmt in Hadd, Hlong.
  assert (Hd' : d' = {| index_file := String.append (index_file d)
                                        (Sgvc.logLine time_Format cmt);
                       store := <[filePath idx cmt := data]> (store d) |}).
  { destruct (fault (rq_env rq)); by simplify_eq. }
  clear Hadd. subst d'.
  split; [apply lookup_insert_eq|].
  assert (Hline : has_char lf (serialize cmt) = false).
  { apply serialize_one_line; try done.
    - apply pathSignature_plain. auto.
    - apply crc32_ChecksumIEEE_range. }
  assert (Hex : getIndex cacheDir
      {| index_file := String.append (index_file d) (Sgvc.logLine time_Format cmt);
         store := <[filePath idx cmt := data]> (store d) |} = Exited ErrTooLong).
  { unfold Sgvc.getIndex, loadCommits. cbn [index_file].
    unfold logLine. rewrite Hfile, <- unlines_snoc, raw_lines_unlines.
    2: { apply Forall_app. split; [done|]. by constructor. }
    rewrite scanCommits_app, Hrecs. cbn [scanCommits]. by rewrite Hlong. }
  split; [done|]. intros p v. unfold Sgvc.mainCat. by rewrite Hex.
Qed.

End MainOnHistories.

(** *** Failed appends, and -list after a history *)

Lemma raw_lines_last l :
  has_char lf l = false -> l <> EmptyString -> raw_lines l = [l].
Proof.
  induction l as [|c l IH]; [done|]. rewrite has_char_cons.
  intros [Hc Hl]%orb_false_iff _. cbn [raw_lines]. rewrite Hc.
  destruct l as [|c' l']; [done|]. by rewrite IH.
Qed.

Lemma raw_lines_unlines_app ls l :
  Forall (fun l => has_char lf l = false) ls ->
  has_char lf l = false -> l <> EmptyString ->
  raw_lines (String.append (unlines ls) l) = ls ++ [l].
Proof.
  intros Hls Hl Hne. induction Hls as [|x ls Hx Hls IH]; simpl.
  - by apply raw_lines_last.
  - rewrite append_assoc, append_cons, raw_lines_app by done. by rewrite IH.
Qed.

Section FaultsOnHistories.
Context {Time : Type}.
Context (time_Format : Time -> string).
Context (time_Parse : string -> option Time).
Context (time_zero : Time).
Context (strconv_Quote : string -> string).
Implicit Types (c cmt : commit Time) (cs : list (commit Time)) (idx : index Time)
               (env : main_env Time) (fl : flags).

Set Default Proof Using "Type".

Local Abbreviation getIndex := (Sgvc.getIndex time_Parse).
Local Abbreviation newCommit := (Sgvc.newCommit strconv_Quote).
Local Abbreviation serialize := (Sgvc.serialize time_Format).
Local Abbreviation logLine := (Sgvc.logLine time_Format).
Local Abbreviation index_commit := (Sgvc.index_commit time_Format strconv_Quote).
Local Abbreviation mainAdd := (Sgvc.mainAdd time_Format time_Parse strconv_Quote).
Local Abbreviation mainCat := (Sgvc.mainCat time_Parse).
Local Abbreviation main := (Sgvc.main time_Format time_Parse time_zero strconv_Quote).
Local Abbreviation committed := (Sgvc.committed time_Format time_Parse strconv_Quote).

(** X20. A partial append. When Fprintln fails after it has written a
    part of the line of the new commit, not empty, without the line feed
    and with another number of tabs than six, commit returns the error
    "failed to commit index" with the content file written, the index file
    ends in that part, and every later process exits in loadCommits with
    "malformed line". *)
Theorem X20_partial_line_ends_later_processes cacheDir d h idx
    (env : commit_env Time) (p : string) (base : Z) (msg : string) data (n : nat) :
  committed cacheDir d h -> Z.of_nat (length h) <= int_max ->
  getIndex cacheDir d = Started idx ->
  working_file env = Some data -> fault env = FprintlnFails n ->
  base = 0 \/ base <= currVersion idx p ->
  let cmt := newCommit idx env p base msg data in
  let part := String.substring 0 n (logLine cmt) in
  part <> EmptyString -> has_char lf part = false ->
  count_char tab part <> 6%nat -> too_long part = false ->
  exists d' tr,
    mainAdd cacheDir d env p base msg = (Some FailedToCommitIndex, d', tr) /\
    store d' !! filePath idx cmt = Some data /\
    index_file d' = String.append (index_file d) part /\
    getIndex cacheDir d' = Exited MalformedLine /\
    (forall p' v, mainCat cacheDir d' p' v = Err MalformedLine).
Proof.
  intros Hc Hlen Hidx Hw Hf Hbase cmt part Hne Hlf Htabs Hshort.
  pose proof (committed_consistent time_Format time_Parse strconv_Quote _ _ _ Hc Hlen)
    as ((ls & recs & Hfile & Hls & Hrecs & _) & _ & _).
  assert (Hchk : negb (base =? 0) && (base >? currVersion idx p) = false).
  { apply andb_false_iff. destruct Hbase as [->|Hle]; [by left|right].
    rewrite Z.gtb_ltb. apply Z.ltb_ge. lia. }
  do 2 eexists. split.
  { unfold Sgvc.mainAdd, Sgvc.index_commit. rewrite Hidx, Hw, Hchk, Hf. reflexivity. }
  cbn [store index_file]. fold cmt. fold part.
  split; [apply lookup_insert_eq|]. split; [done|].
  assert (Hex : getIndex cacheDir
      {| index_file := String.append (index_file d) part;
         store := <[filePath idx cmt := data]> (store d) |} = Exited MalformedLine).
  { unfold Sgvc.getIndex, loadCommits. cbn [index_file].
    rewrite Hfile, raw_lines_unlines_app by done.
    rewrite scanCommits_app, Hrecs. cbn [scanCommits]. rewrite Hshort.
    rewrite deserializeCommit_other_length; [done|].
    rewrite strings_Split_length, count_char_dropCR by done. lia. }
  split; [done|]. intros p' v. unfold Sgvc.mainCat. by rewrite Hex.
Qed.

(** X21. sgvc -list, with no argument and no command that requires a
    file, after any history of successful plain commits: main prints one
    line for each path that was committed, the paths strictly ascending,
    each followed by the path signature of that path. *)
Theorem X21_list_of_a_history cacheDir d h env fl :
  committed cacheDir d h -> Z.of_nat (length h) <= int_max ->
  printList fl = true -> args fl = [] -> ~ requiresFile fl ->
  (forall m, range_keys env m ≡ₚ (map_to_list m).*1) ->
  exists paths,
    main cacheDir d env fl =
      (Exit0 (Lines (map (fun p => String.append p
                (String " " (String tab (String " "
                   (String.append (pathSignature p) (String lf EmptyString))))))
              paths)), d) /\
    StronglySorted string_lt paths /\
    (forall p, p ∈ paths <-> exists c data, (c, data) ∈ h /\ path c = p).
Proof.
  intros Hc Hlen Hl Hargs Hnr Hkeys.
  destruct (committed_index time_Format time_Parse strconv_Quote _ _ _ Hc Hlen)
    as (idx & Hidx & Hrecs & Hall & _ & _).
  pose proof (committed_consistent time_Format time_Parse strconv_Quote _ _ _ Hc Hlen)
    as (_ & Hstore & _).
  assert (Hsig : forall r, r ∈ commits idx -> pathSig r = pathSignature (path r)).
  { intros r Hr. destruct (Hrecs r Hr) as (_ & _ & _ & c & data & Hin & Hlg).
    destruct (Hstore c data Hin) as (_ & _ & Hs & _).
    unfold logged in Hlg. injection Hlg as Hp _ _ Hps _ _. by rewrite <- Hps, <- Hp. }
  assert (Hnd : NoDup (range_keys env (pathSigs idx))).
  { rewrite Hkeys. apply NoDup_fst_map_to_list. }
  assert (Hmem : forall p, p ∈ slices_Sort (range_keys env (pathSigs idx)) <->
                           exists c, c ∈ commits idx /\ path c = p).
  { intros p. rewrite slices_Sort_Permutation, Hkeys. apply pathSigs_keys. }
  exists (slices_Sort (range_keys env (pathSigs idx))). split_and!.
  - unfold Sgvc.main, resolvePath, Sgvc.runCommand. rewrite Hidx, Hargs, Hl.
    assert (Hb : negb (String.eqb (commitMessage fl) EmptyString)
                 || (catVersion fl >? 0) || diffVersions fl = false).
    { apply not_true_is_false. intros H. apply Hnr. by apply requiresFile_bool. }
    rewrite Hb. cbn [negb andb orb length Nat.eqb Nat.ltb Nat.leb].
    unfold mainList. do 3 f_equal. apply map_ext_in. intros p Hp.
    apply list_elem_of_In, Hmem in Hp as (c & Hcin & Hcp).
    unfold listLine. rewrite pathSigs_lookup.
    assert (Hin : c ∈ List.filter (fun c => String.eqb (path c) p) (commits idx)).
    { apply elem_of_bool_filter. split; [done|]. by apply String.eqb_eq. }
    destruct (last _) as [r|] eqn:Hlast.
    + apply last_Some_elem_of in Hlast.
      apply elem_of_bool_filter in Hlast as [Hr Hrp]. apply String.eqb_eq in Hrp.
      simpl. by rewrite (Hsig r Hr), Hrp.
    + apply last_None in Hlast. rewrite Hlast in Hin. by apply not_elem_of_nil in Hin.
  - apply sorted_strict; [by rewrite slices_Sort_Permutation|apply slices_Sort_sorted].
  - intros p. rewrite Hmem. split.
    + intros (r & Hr & Hp). destruct (Hrecs r Hr) as (_ & _ & _ & c & data & Hin & Hlg).
      exists c, data. split; [done|]. unfold logged in Hlg. injection Hlg as Hpc _ _ _ _ _.
      congruence.
    + intros (c & data & Hin & Hp). destruct (Hall c data Hin) as (r & Hr & Hlg).
      exists r. split; [done|]. unfold logged in Hlg. injection Hlg as Hpc _ _ _ _ _.
      congruence.
Qed.

End FaultsOnHistories.


(** ** The program on concrete inputs *)

Import Demo.

(** The README scenario runs as documented: versions 1, 2, 3, and the first
    content is still there after the later commits. *)
Example readme_scenario :
  index_file d3 <> EmptyString /\
  cat d3 "/f" 1 = Ok (bytes "hello") /\
  cat d3 "/f" 2 = Ok (bytes "world") /\
  cat d3 "/f" 3 = Ok (bytes "branch") /\
  cat d3 "/f" 4 = Err (CannotFindVersion 4 "/f").
Proof. vm_compute. split_and!; done. Qed.


Ltac run := vm_compute; reflexivity.

Lemma C4_content_written_before_log_witness :
  let r := index_commit format quote idx0 emptyDisk (env0 "hello") "/f" 0 "init" in
  r = (errorOf r, diskAfter r, snd r) /\
  (index_file (diskAfter r) <> index_file emptyDisk ->
   exists data, working_file (env0 "hello") = Some data /\
     store (diskAfter r)
       !! filePath idx0 (newCommit quote idx0 (env0 "hello") "/f" 0 "init" data)
     = Some data).
Proof.
  intros r.
  assert (Hr : r = (errorOf r, diskAfter r, snd r)) by run.
  split; [exact Hr|].
  exact (proj2 (proj2 (C4_content_written_before_log format quote idx0 emptyDisk
    (env0 "hello") "/f" 0 "init" (errorOf r) (diskAfter r) (snd r) Hr))).
Defined.

Lemma C5_extract_outcomes_witness :
  exists c, c ∈ commits idx3 /\ path c = "/f" /\ version c = 1 /\
  exists cmt, findCommit (commits idx3) "/f" 1 = Some cmt /\
    forall data, store d3 !! filePath idx3 cmt = Some data ->
      crc32_ChecksumIEEE data = dataCrc cmt <-> extract idx3 d3 "/f" 1 = Ok data.
Proof.
  destruct (commits idx3 !! 2%nat) as [c|] eqn:Hc; [|vm_compute in Hc; discriminate Hc].
  assert (Hin : c ∈ commits idx3).
  { apply list_elem_of_lookup. exists 2%nat. exact Hc. }
  assert (Hp : path c = "/f") by (vm_compute in Hc; injection Hc as <-; reflexivity).
  assert (Hv : version c = 1) by (vm_compute in Hc; injection Hc as <-; reflexivity).
  exists c. split; [exact Hin|]. split; [exact Hp|]. split; [exact Hv|].
  destruct (proj2 (C5_extract_outcomes idx3 d3 "/f" 1) c Hin Hp Hv)
    as (cmt & Hfind & _ & _ & _ & Hdata & _).
  exists cmt. split; [exact Hfind|].
  intros data Hd. exact (proj1 (proj2 (Hdata data Hd))).
Defined.

Lemma C6_malformed_line_aborts_load_witness :
  "garbage" ∈ raw_lines (index_file garbledDisk) /\
  deserializeCommit parse (dropCR "garbage") = Err MalformedLine /\
  (forall cs, loadCommits parse garbledDisk <> Loaded cs).
Proof.
  assert (Hin : "garbage" ∈ raw_lines (index_file garbledDisk)).
  { apply list_elem_of_lookup. exists 1%nat. run. }
  assert (Hbad : deserializeCommit parse (dropCR "garbage") = Err MalformedLine) by run.
  split; [exact Hin|]. split; [exact Hbad|].
  exact (proj1 (proj1 (proj2 (proj2 (C6_malformed_line_aborts_load parse)))
                  garbledDisk "garbage" MalformedLine Hin Hbad)).
Defined.

Lemma C8_tree_of_commits_witness :
  exists dummy heap,
    treeOfCommits zero idx3 "/f" = Tree dummy heap /\
    forall i c, i ∈ filter idx3 "/f" -> commits idx3 !! i = Some c ->
      basedOn c = 0 -> i ∈ descs dummy.
Proof.
  destruct (treeOfCommits zero idx3 "/f") as [dummy heap|] eqn:Ht;
    [|vm_compute in Ht; discriminate Ht].
  exists dummy, heap. split; [reflexivity|].
  exact (proj1 (proj1 (C8_tree_of_commits zero) idx3 "/f" dummy heap Ht)).
Defined.

Lemma C10_missing_parent_nil_dereference_witness :
  (exists dummy heap, treeOfCommits zero idx3 "/f" = Tree dummy heap) /\
  (forall i c, i ∈ filter idx3 "/f" -> commits idx3 !! i = Some c ->
     basedOn c > 0 ->
     exists j c', j ∈ filter idx3 "/f" /\ commits idx3 !! j = Some c' /\
                  path c' = path c /\ version c' = basedOn c).
Proof.
  assert (Ht : exists dummy heap, treeOfCommits zero idx3 "/f" = Tree dummy heap).
  { destruct (treeOfCommits zero idx3 "/f") as [dummy heap|] eqn:Ht;
      [|vm_compute in Ht; discriminate Ht].
    exists dummy, heap. reflexivity. }
  split; [exact Ht|].
  exact (proj1 (proj1 (C10_missing_parent_nil_dereference zero) idx3 "/f") Ht).
Defined.

(** C7 as it is written fails on the index of the README scenario after two
    commits: the log has /f at version 1 and then at version 2, and filter
    returns version 2 first. *)
Lemma C7_filter_not_in_log_order :
  ~ (forall (d : disk) (idx : index Time) (recs : list (commit Time)) (P : string),
       getIndex parse cacheDir d = Started idx ->
       logRecords parse d = Loaded recs ->
       derefs idx (filter idx P) =
       List.filter (fun c => String.eqb (path c) P) recs).
Proof.
  intros H.
  destruct (getIndex parse cacheDir d2) as [idx|] eqn:Hidx;
    [|vm_compute in Hidx; discriminate Hidx].
  destruct (logRecords parse d2) as [recs| |] eqn:Hrecs;
    [|vm_compute in Hrecs; discriminate Hrecs..].
  specialize (H d2 idx recs "/f" Hidx Hrecs).
  vm_compute in Hidx. injection Hidx as <-.
  vm_compute in Hrecs. injection Hrecs as <-.
  apply (f_equal sigs) in H. vm_compute in H. discriminate H.
Defined.

Lemma C7_filter_in_index_order_witness :
  "/f" <> EmptyString /\
  derefs idx3 (filter idx3 "/f") =
  List.filter (fun c => String.eqb (path c) "/f") (commits idx3) /\
  loadCommits parse d3 = Loaded (commits idx3) /\
  (forall c, c ∈ commits idx3 -> 0 <= version c) /\
  StronglySorted inOrder (commits idx3) /\
  map version (commits idx3) = [3; 2; 1].
Proof.
  assert (Hne : "/f" <> EmptyString) by discriminate.
  assert (Hload : loadCommits parse d3 = Loaded (commits idx3)) by run.
  assert (Hpos : forall c, c ∈ commits idx3 -> 0 <= version c).
  { intros c Hc. unfold idx3 in Hc. simpl in Hc.
    repeat (apply elem_of_cons in Hc as [->|Hc]; [simpl; lia|]).
    by apply elem_of_nil in Hc. }
  split; [exact Hne|].
  split; [exact (proj1 (C7_filter_in_index_order parse) idx3 "/f" Hne)|].
  split; [exact Hload|]. split; [exact Hpos|].
  split; [|run].
  exact (proj1 (proj2 (proj2 (proj2 (C7_filter_in_index_order parse)))
                  d3 (commits idx3) Hload Hpos)).
Defined.

(** The order of the index needs versions that are not negative. With the
    versions 2^63-1 and -2 of one path in the log, [b.version - a.version]
    wraps, and the index has version -2 before version 2^63-1. *)
Example negative_version_wraps_the_order :
  exists cs,
    loadCommits parse wrapDisk = Loaded cs /\
    map version cs = [-2; int_max] /\ ~ StronglySorted inOrder cs.
Proof.
  eexists. split; [run|]. split; [run|].
  intros Hs. apply StronglySorted_cons in Hs as [Hs _].
  apply Forall_cons in Hs as [[Hlt|[_ Hle]] _].
  - vm_compute in Hlt. discriminate Hlt.
  - vm_compute in Hle. by apply Hle.
Qed.

(** C3 as it is written fails when the working file cannot be read: the
    error is the read error. *)
Lemma C3_unreadable_file_is_not_invalid_base :
  ~ (forall (idx : index Time) (d : disk) (env : commit_env Time)
            (p : string) (base : Z) (msg : string),
       base <> 0 -> base > currVersion idx p ->
       index_commit format quote idx d env p base msg =
       (Some (InvalidBaseVersion base), d, [])).
Proof.
  intros H.
  specialize (H idx0 emptyDisk envUnreadable "/f" 5 "m").
  assert (H1 : 5 <> 0) by discriminate.
  assert (H2 : 5 > currVersion idx0 "/f") by run.
  specialize (H H1 H2). vm_compute in H. discriminate H.
Defined.

Lemma C3_invalid_base_no_write_witness :
  5 <> 0 /\ 5 > currVersion idx3 "/f" /\
  index_commit format quote idx3 d3 (env0 "new") "/f" 5 "m" =
  (Some (InvalidBaseVersion 5), d3, []).
Proof.
  assert (H1 : 5 <> 0) by discriminate.
  assert (H2 : 5 > currVersion idx3 "/f") by run.
  assert (Hw : working_file (env0 "new") = Some (bytes "new")) by run.
  split; [exact H1|]. split; [exact H2|].
  exact (proj1 (C3_invalid_base_no_write format quote idx3 d3 (env0 "new") "/f" 5 "m" H1 H2)
           (bytes "new") Hw).
Defined.

(** C9 as it is written fails on the index of the README scenario: the
    commit with basedOn = -1 is not rejected. *)
Lemma C9_negative_base_is_not_rejected :
  ~ (forall (idx : index Time) (d : disk) (env : commit_env Time)
            (p : string) (base : Z) (msg : string),
       base < 0 ->
       errorOf (index_commit format quote idx d env p base msg) <> None /\
       index_file (diskAfter (index_commit format quote idx d env p base msg))
         = index_file d).
Proof.
  intros H.
  assert (H1 : -1 < 0) by reflexivity.
  destruct (H idx3 d3 (env0 "new") "/f" (-1) "neg" H1) as [Herr _].
  apply Herr. run.
Defined.

Lemma C9_base_at_most_current_witness :
  -1 < 0 /\
  errorOf (index_commit format quote idx3 d3 (env0 "new") "/f" (-1) "neg") = None /\
  (-1 = 0 \/ -1 <= currVersion idx3 "/f").
Proof.
  assert (H1 : -1 < 0) by reflexivity.
  assert (Hw : working_file (env0 "new") = Some (bytes "new")) by run.
  assert (Hf : fault (env0 "new") = NoFault) by run.
  pose proof (proj2 (proj2 (C9_base_at_most_current format quote idx3 d3 (env0 "new")
                              "/f" (-1) "neg") (bytes "new") H1 Hw Hf)) as Hrun.
  split; [exact H1|]. split.
  - rewrite Hrun. reflexivity.
  - exact (proj1 (C9_base_at_most_current format quote idx3 d3 (env0 "new")
                    "/f" (-1) "neg") _ _ _ Hrun (or_introl eq_refl)).
Defined.

(** The record of the negative base is read back by a later process. *)
Example negative_base_is_loaded :
  exists cs,
    loadCommits parse
      (diskAfter (index_commit format quote idx3 d3 (env0 "new") "/f" (-1) "neg"))
    = Loaded cs /\
    map basedOn cs = [-1; 1; 0; 0] /\ map version cs = [4; 3; 2; 1].
Proof. eexists. split; [run|]. split; run. Qed.

Lemma C1_tab_in_path_ends_later_processes_witness :
  let r := add emptyDisk (env0 "hello") tabPath 0 "init" in
  let cmt := newCommit quote idx0 (env0 "hello") tabPath 0 "init" (bytes "hello") in
  has_char tab tabPath = true /\
  errorOf r = None /\
  store (diskAfter r) !! filePath idx0 cmt = Some (bytes "hello") /\
  (forall p v, exists e, cat (diskAfter r) p v = Err e).
Proof.
  intros r cmt.
  assert (Htab : has_char tab tabPath = true) by run.
  assert (Hrun : add emptyDisk (env0 "hello") tabPath 0 "init"
                 = (None, diskAfter r, snd r)) by run.
  assert (Hlen : Z.of_nat (@length (commit Time * list byte) []) <= int_max)
    by (vm_compute; discriminate).
  assert (Hidx : getIndex parse cacheDir emptyDisk = Started idx0) by run.
  assert (H1 : has_char lf tabPath = false) by run.
  assert (H2 : has_char lf (format (now (env0 "hello"))) = false) by run.
  assert (H3 : has_char lf (quote "init") = false) by run.
  assert (Hw : working_file (env0 "hello") = Some (bytes "hello")) by run.
  destruct (C1_tab_in_path_ends_later_processes format parse quote cacheDir
              emptyDisk []
              {| rq_env := env0 "hello"; rq_path := tabPath; rq_base := 0;
                 rq_msg := "init" |}
              idx0 (bytes "hello") (diskAfter r) (snd r)
              (committed_fresh format parse quote cacheDir ∅)
              Hlen Hidx Htab H1 H2 H3 Hw Hrun) as (Hst & _ & Hcat).
  split; [exact Htab|]. split; [run|]. split; [exact Hst|exact Hcat].
Defined.

(** What the failing run looks like: version 1 is assigned and stored, the
    line written has eight fields, and the next process ends with the
    error of deserializeCommit. *)
Example tab_in_path_run :
  let r := add emptyDisk (env0 "hello") tabPath 0 "init" in
  let cmt := newCommit quote idx0 (env0 "hello") tabPath 0 "init" (bytes "hello") in
  errorOf r = None /\
  version cmt = 1 /\
  store (diskAfter r) !! filePath idx0 cmt = Some (bytes "hello") /\
  index_file (diskAfter r) = logLine format cmt /\
  length (strings_Split tab (serialize format cmt)) = 8%nat /\
  getIndex parse cacheDir (diskAfter r) = Exited MalformedLine /\
  cat (diskAfter r) tabPath 1 = Err MalformedLine.
Proof. intros r cmt. split_and!; run. Qed.

(** C2 (evaluation of the code). After the one commit of [forgedPath] the
    index loads as two records, /a at version 5 and /b at version 1, neither
    of which was committed; the first commit of /a is then given version 6
    and the first commit of /b version 2. *)
Theorem C2_forged_path_breaks_version_sequence :
  let r := add emptyDisk (env0 "hello") forgedPath 0 "init" in
  let ra := add (diskAfter r) (env0 "first") "/a" 0 "first" in
  let rb := add (diskAfter r) (env0 "first") "/b" 0 "first" in
  errorOf r = None /\
  (exists cs, loadCommits parse (diskAfter r) = Loaded cs /\
              sigs cs = [("/a"%string, 5); ("/b"%string, 1)]) /\
  errorOf ra = None /\
  (exists cs, loadCommits parse (diskAfter ra) = Loaded cs /\
              sigs cs = [("/a"%string, 6); ("/a"%string, 5); ("/b"%string, 1)]) /\
  errorOf rb = None /\
  (exists cs, loadCommits parse (diskAfter rb) = Loaded cs /\
              sigs cs = [("/a"%string, 5); ("/b"%string, 2); ("/b"%string, 1)]).
Proof.
  intros r ra rb.
  split_and!; try run; eexists; (split; [run|run]).
Qed.

(** The README scenario is a history of plain commits, so the theorems on
    such histories apply to it. *)
Lemma readme_committed : committed format parse quote cacheDir d3 h3.
Proof.
  unfold h3, written.
  apply (committed_add format parse quote cacheDir d2 _ rq3 idx2 (bytes "branch") d3
           [EvWriteFile (filePath idx2 (fst (written idx2 rq3 "branch"))) (bytes "branch") true;
            EvOpenIndex true;
            EvAppendIndex (logLine format (fst (written idx2 rq3 "branch"))) true]);
    [|run..].
  apply (committed_add format parse quote cacheDir d1 _ rq2 idx1 (bytes "world") d2
           [EvWriteFile (filePath idx1 (fst (written idx1 rq2 "world"))) (bytes "world") true;
            EvOpenIndex true;
            EvAppendIndex (logLine format (fst (written idx1 rq2 "world"))) true]);
    [|run..].
  apply (committed_add format parse quote cacheDir emptyDisk _ rq1 idx0 (bytes "hello") d1
           [EvWriteFile (filePath idx0 (fst (written idx0 rq1 "hello"))) (bytes "hello") true;
            EvOpenIndex true;
            EvAppendIndex (logLine format (fst (written idx0 rq1 "hello"))) true]);
    [|run..].
  apply committed_fresh.
Qed.

Example readme_round_trip :
  cat d3 "/f" 1 = Ok (bytes "hello") /\
  versionsOf "/f" (map fst h3) = [1; 2; 3].
Proof.
  split.
  - assert (Hlen : Z.of_nat (length h3) <= int_max) by (vm_compute; discriminate).
    assert (Hin : written idx0 rq1 "hello" ∈ h3).
    { apply list_elem_of_lookup. exists 0%nat. reflexivity. }
    pose proof (plain_commits_round_trip format parse quote cacheDir d3 h3 _ _
                  readme_committed Hlen Hin) as H.
    exact H.
  - assert (Hlen : Z.of_nat (length h3) <= int_max) by (vm_compute; discriminate).
    destruct (plain_commits_versions format parse quote cacheDir d3 h3
                readme_committed Hlen "/f") as [H _].
    rewrite H. run.
Qed.


(** *** Printing, the store and main at the README scenario *)

Ltac int_range := vm_compute; split; discriminate.

Lemma X1_serialize_round_trip_witness :
  let cmt := newCommit quote idx0 (env0 "hello") "/f" 0 "init" (bytes "hello") in
  exists c, deserializeCommit parse (serialize format cmt) = Ok c /\
            path c = "/f" /\ version c = version cmt /\ changes c = quote "init".
Proof.
  intros cmt.
  assert (H1 : has_char tab (path cmt) = false) by run.
  assert (H2 : has_char tab (format (when cmt)) = false) by run.
  assert (H3 : parse (format (when cmt)) = Some "2024-05-01T00:00:00Z") by run.
  assert (H4 : has_char tab (pathSig cmt) = false) by run.
  assert (H5 : has_char tab (changes cmt) = false) by run.
  assert (H6 : is_int (version cmt)) by int_range.
  assert (H7 : is_int (basedOn cmt)) by int_range.
  assert (H8 : 0 <= dataCrc cmt <= uint32_max) by int_range.
  destruct (X1_serialize_round_trip format parse cmt _ H1 H2 H3 H4 H5 H6 H7 H8)
    as (c & Hc & Hp & _ & Hv & _ & _ & _ & Hch & _).
  exists c. split; [exact Hc|]. split; [exact Hp|]. split; [exact Hv|exact Hch].
Defined.

Lemma X7_retry_after_failed_commit_witness :
  let r1 := add d1 (envNoIndex "world") "/f" 0 "update" in
  let r2 := add (diskAfter r1) (env0 "fixed") "/f" 0 "update" in
  errorOf r1 = Some FailedToOpenIndex /\
  store (diskAfter r1) <> store d1 /\
  add d1 (env0 "fixed") "/f" 0 "update" = (None, diskAfter r2, snd r2).
Proof.
  intros r1 r2.
  assert (Hfail : add d1 (envNoIndex "world") "/f" 0 "update"
                  = (Some FailedToOpenIndex, diskAfter r1, snd r1)) by run.
  assert (Hretry : add (diskAfter r1) (env0 "fixed") "/f" 0 "update"
                   = (None, diskAfter r2, snd r2)) by run.
  assert (Hne : FailedToOpenIndex <> FailedToCommitIndex) by discriminate.
  split; [run|]. split.
  - intros H. apply (f_equal (fun m => size m)) in H. vm_compute in H. discriminate H.
  - exact (X7_retry_after_failed_commit format parse quote cacheDir d1 (diskAfter r1)
             (diskAfter r2) (envNoIndex "world") (env0 "fixed") "/f" 0 0
             "update" "update" FailedToOpenIndex (snd r1) (snd r2)
             Hfail Hne Hretry).
Defined.

Lemma h3_first : written idx0 rq1 "hello" ∈ h3.
Proof. apply list_elem_of_lookup. exists 0%nat. reflexivity. Qed.

Lemma h3_second : written idx1 rq2 "world" ∈ h3.
Proof. apply list_elem_of_lookup. exists 1%nat. reflexivity. Qed.

Lemma h3_length : Z.of_nat (length h3) <= int_max.
Proof. vm_compute. discriminate. Qed.

Lemma X14_cat_prints_the_committed_bytes_witness :
  main format parse zero quote cacheDir d3 (menv "edited") (flagsCat 1 "/f")
  = (Exit0 (Data (bytes "hello")), d3).
Proof.
  assert (Hv : catVersion (flagsCat 1 "/f") = version (fst (written idx0 rq1 "hello")))
    by run.
  exact (X14_cat_prints_the_committed_bytes format parse zero quote cacheDir d3 h3
           (fst (written idx0 rq1 "hello")) (bytes "hello") (menv "edited")
           (flagsCat 1 "/f") "/f"
           readme_committed h3_length h3_first eq_refl eq_refl eq_refl
           eq_refl eq_refl eq_refl eq_refl Hv).
Defined.

Lemma X15_commits_lists_newest_first_witness :
  exists cs,
    main format parse zero quote cacheDir d3 (menv "edited") (flagsCommits "/f")
    = (Exit0 (Lines (map (commitLine format) cs)), d3) /\
    map version cs = [3; 2; 1].
Proof.
  assert (Hne : "/f"%string <> EmptyString) by discriminate.
  destruct (X15_commits_lists_newest_first format parse zero quote cacheDir d3 h3
              (menv "edited") (flagsCommits "/f") "/f" "/f"
              readme_committed h3_length eq_refl eq_refl eq_refl Hne eq_refl eq_refl)
    as (cs & Hrun & _ & Hvs).
  exists cs. split; [exact Hrun|].
  rewrite Hvs. run.
Defined.

Lemma X16_add_extends_the_history_witness :
  let cmt := newCommit quote idx0 (env0 "hello") "/f" 0 "init" (bytes "hello") in
  exists d',
    main format parse zero quote cacheDir emptyDisk (menv "hello")
      (flagsAdd "init" 0 "/f") = (Exit0 Nothing, d') /\
    version cmt = 1 /\
    mainCat parse cacheDir d' "/f" (version cmt) = Ok (bytes "hello").
Proof.
  intros cmt.
  assert (Hlen : Z.of_nat (@length (commit Time * list byte) []) < int_max)
    by (vm_compute; reflexivity).
  assert (Hidx : getIndex parse cacheDir emptyDisk = Started idx0) by run.
  assert (Hmsg : commitMessage (flagsAdd "init" 0 "/f") <> EmptyString) by discriminate.
  assert (Hplain : plain format parse quote idx0
            {| rq_env := cenv (menv "hello"); rq_path := "/f";
               rq_base := baseVersion (flagsAdd "init" 0 "/f");
               rq_msg := commitMessage (flagsAdd "init" 0 "/f") |} = true) by run.
  destruct (X16_add_extends_the_history format parse zero quote cacheDir emptyDisk []
              (menv "hello") (flagsAdd "init" 0 "/f") "/f" "/f" idx0 (bytes "hello")
              (committed_fresh format parse quote cacheDir ∅) Hlen Hidx
              eq_refl eq_refl eq_refl eq_refl eq_refl eq_refl Hmsg Hplain
              eq_refl eq_refl (or_introl eq_refl))
    as (d' & Hrun & _ & Hv & Hcat).
  exists d'. split; [exact Hrun|]. split; [exact Hv|exact Hcat].
Defined.

Lemma X17_tree_of_a_history_witness :
  exists idx, getIndex parse cacheDir d3 = Started idx /\
    exists visits : list (nat * ptr),
      mainTree format zero idx "/f"
        = Exit0 (Lines (map (treeLine format (commits idx)) visits)) /\
      map snd visits ≡ₚ filter idx "/f".
Proof.
  destruct (X17_tree_of_a_history format parse zero quote cacheDir d3 h3
              readme_committed h3_length) as (idx & Hidx & _ & Hprint).
  exists idx. split; [exact Hidx|].
  apply Hprint. vm_compute. discriminate.
Defined.

Lemma idx3_as_loaded : forall c, c ∈ commits idx3 -> descs c = [].
Proof.
  assert (H : Forall (fun c : commit Time => descs c = []) (commits idx3)).
  { repeat constructor. }
  intros c Hc. by eapply Forall_forall in H.
Qed.

Lemma idx3_versions : forall i c,
  i ∈ filter idx3 "/f" -> commits idx3 !! i = Some c ->
  version c <= 129 /\ (basedOn c > 0 -> basedOn c < version c).
Proof.
  intros i c _ Hc.
  assert (H : Forall (fun c : commit Time =>
                version c <= 129 /\ (basedOn c > 0 -> basedOn c < version c))
              (commits idx3)).
  { repeat constructor; simpl; lia. }
  eapply Forall_forall in H; [exact H|]. apply list_elem_of_lookup. by exists i.
Qed.

Lemma X8_tree_prints_every_commit_once_witness :
  exists dummy heap (visits : list (nat * ptr)),
    treeOfCommits zero idx3 "/f" = Tree dummy heap /\
    mainTree format zero idx3 "/f"
      = Exit0 (Lines (map (treeLine format (commits idx3)) visits)) /\
    map snd visits ≡ₚ filter idx3 "/f".
Proof.
  destruct (treeOfCommits zero idx3 "/f") as [dummy heap|] eqn:Ht;
    [|vm_compute in Ht; discriminate Ht].
  destruct (X8_tree_prints_every_commit_once format zero idx3 "/f" dummy heap
              idx3_as_loaded idx3_versions Ht) as (visits & Hrun & Hperm & _).
  exists dummy, heap, visits. split; [reflexivity|]. split; [exact Hrun|exact Hperm].
Defined.

Lemma tree130 : treeOfCommits zero idx130 "/f" = Tree dummy130 heap130.
Proof.
  unfold dummy130, heap130.
  destruct (treeOfCommits zero idx130 "/f") eqn:Ht; [reflexivity|].
  vm_compute in Ht. discriminate Ht.
Qed.

Lemma X9_tree_panics_at_depth_129_witness :
  descends heap130 chain130 = true /\
  length chain130 = 130%nat /\
  exists printed, mainTree format zero idx130 "/f" = ExitPanic printed.
Proof.
  assert (Hd : descends heap130 chain130 = true) by run.
  assert (Hr : 129%nat ∈ descs dummy130).
  { apply (bool_decide_eq_true_1 (129%nat ∈ descs dummy130)). run. }
  assert (Hlen : (129 <= length (rev (seq 0 129)))%nat).
  { rewrite length_rev, length_seq. apply le_n. }
  split; [exact Hd|]. split; [reflexivity|].
  exact (X9_tree_panics_at_depth_129 format zero idx130 "/f" dummy130 heap130
           129%nat (rev (seq 0 129)) tree130 Hr Hd Hlen).
Defined.

Lemma X10_list_of_tracked_files_witness :
  mainList idx3 (menvRev "x") = mainList idx3 (menv "x") /\
  exists paths,
    mainList idx3 (menv "x") = map (listLine (pathSigs idx3)) paths /\
    forall p, p ∈ paths <-> exists c, c ∈ commits idx3 /\ path c = p.
Proof.
  assert (Hkeys : range_keys (menv "x") (pathSigs idx3)
                  ≡ₚ (map_to_list (pathSigs idx3)).*1) by apply Permutation_refl.
  assert (Hrev : range_keys (menvRev "x") (pathSigs idx3)
                 ≡ₚ (map_to_list (pathSigs idx3)).*1).
  { symmetry. apply Permutation_rev. }
  destruct (X10_list_of_tracked_files idx3 (menv "x") Hkeys)
    as (paths & Hrun & _ & Hmem & _ & Hany).
  split; [exact (Hany (menvRev "x") Hrev)|].
  exists paths. split; [exact Hrun|exact Hmem].
Defined.

Lemma d3_index : getIndex parse cacheDir d3 = Started idx3.
Proof. run. Qed.

Lemma X11_usage_conditions_witness :
  fst (main format parse zero quote cacheDir d3 (menv "x") noFlags) = ExitUsage /\
  fst (main format parse zero quote cacheDir d3 (menv "x") (flagsCat 0 "/f"))
    = ExitUsage /\
  fst (main format parse zero quote cacheDir d3 (menv "x") (flagsCat 1 "/f"))
    <> ExitUsage.
Proof.
  assert (Hno : forall file, ~ requiresFile (flagsCat 0 file) /\
                             ~ optionalFile (flagsCat 0 file)).
  { intros file. unfold requiresFile, optionalFile. simpl.
    split; intros [H|[H|H]]; try discriminate H; by apply H. }
  assert (Hno' : ~ requiresFile noFlags /\ ~ optionalFile noFlags).
  { unfold requiresFile, optionalFile. simpl.
    split; intros [H|[H|H]]; try discriminate H; by apply H. }
  split_and!.
  - apply (X11_usage_conditions format parse zero quote cacheDir d3 (menv "x")
             noFlags idx3 d3_index). left. exact Hno'.
  - apply (X11_usage_conditions format parse zero quote cacheDir d3 (menv "x")
             (flagsCat 0 "/f") idx3 d3_index). left. exact (Hno "/f").
  - intros Hu.
    apply (X11_usage_conditions format parse zero quote cacheDir d3 (menv "x")
             (flagsCat 1 "/f") idx3 d3_index) in Hu.
    destruct Hu as [[Hr _]|[[_ Hn]|[Ho _]]].
    + apply Hr. right. left. reflexivity.
    + by apply Hn.
    + destruct Ho as [H|[H|H]]; discriminate H.
Defined.

Lemma X12_file_argument_must_exist_witness :
  main format parse zero quote cacheDir d3 menvGone (flagsCat 1 "/f")
    = (ExitFatal (StatFailed "/f"), d3) /\
  main format parse zero quote cacheDir d3 menvGone (flagsCommits "/f")
    = (ExitFatal (StatFailed "/f"), d3).
Proof.
  split.
  - apply (X12_file_argument_must_exist format parse zero quote cacheDir d3 menvGone
             (flagsCat 1 "/f") idx3 "/f" d3_index eq_refl); [|reflexivity].
    left. right. left. reflexivity.
  - apply (X12_file_argument_must_exist format parse zero quote cacheDir d3 menvGone
             (flagsCommits "/f") idx3 "/f" d3_index eq_refl); [|reflexivity].
    right. right. left. reflexivity.
Defined.

Lemma X13_only_add_changes_the_work_directory_witness :
  snd (main format parse zero quote cacheDir d2 (menv "branch")
         (flagsAdd "branch" 1 "/f")) <> d2 /\
  commitMessage (flagsAdd "branch" 1 "/f") <> EmptyString.
Proof.
  assert (Hne : snd (main format parse zero quote cacheDir d2 (menv "branch")
                       (flagsAdd "branch" 1 "/f")) <> d2).
  { intros H. apply (f_equal (fun d => String.length (index_file d))) in H.
    vm_compute in H. discriminate H. }
  split; [exact Hne|].
  exact (proj1 (X13_only_add_changes_the_work_directory format parse zero quote
                  cacheDir d2 (menv "branch") (flagsAdd "branch" 1 "/f") Hne)).
Defined.

Lemma X18_diff_of_committed_versions_witness :
  exists idx, getIndex parse cacheDir d3 = Started idx /\
    mainDiff idx d3 (menv "tip") (flagsDiff 1 2 "/f") "/f"
      = Exit0 (DiffRun "/f @0001" (bytes "hello") "/f @0002" (bytes "world")) /\
    mainDiff idx d3 (menv "tip") (flagsDiff 1 0 "/f") "/f"
      = Exit0 (DiffRun "/f @0001" (bytes "hello") "/f" (bytes "tip")).
Proof.
  assert (Hp : path (fst (written idx1 rq2 "world")) = path (fst (written idx0 rq1 "hello")))
    by reflexivity.
  assert (Hv1 : diffFrom (flagsDiff 1 2 "/f") = version (fst (written idx0 rq1 "hello")))
    by run.
  assert (Hv1' : diffFrom (flagsDiff 1 0 "/f") = version (fst (written idx0 rq1 "hello")))
    by run.
  assert (Hv2 : diffTo (flagsDiff 1 2 "/f") = version (fst (written idx1 rq2 "world")))
    by run.
  destruct (X18_diff_of_committed_versions format parse quote cacheDir d3 h3
              (fst (written idx0 rq1 "hello")) (bytes "hello")
              (fst (written idx1 rq2 "world")) (bytes "world")
              (menv "tip") (flagsDiff 1 2 "/f")
              readme_committed h3_length h3_first h3_second Hp Hv1 eq_refl)
    as (idx & Hidx & Hboth & _).
  destruct (X18_diff_of_committed_versions format parse quote cacheDir d3 h3
              (fst (written idx0 rq1 "hello")) (bytes "hello")
              (fst (written idx1 rq2 "world")) (bytes "world")
              (menv "tip") (flagsDiff 1 0 "/f")
              readme_committed h3_length h3_first h3_second Hp Hv1' eq_refl)
    as (idx' & Hidx' & _ & Hwork).
  rewrite Hidx in Hidx'. injection Hidx' as <-.
  exists idx. split; [exact Hidx|]. split.
  - etransitivity; [exact (Hboth Hv2)|]. run.
  - assert (Hle : diffTo (flagsDiff 1 0 "/f") <= 0) by (vm_compute; discriminate).
    etransitivity; [exact (Hwork (bytes "tip") Hle eq_refl)|]. run.
Defined.

Lemma X19_long_line_ends_later_processes_witness :
  let r := add emptyDisk (env0 "hello") "/f" 0 longMessage in
  errorOf r = None /\
  getIndex parse cacheDir (diskAfter r) = Exited ErrTooLong /\
  (forall p v, mainCat parse cacheDir (diskAfter r) p v = Err ErrTooLong).
Proof.
  intros r.
  assert (Herr : errorOf r = None) by run.
  assert (Hrun : mainAdd format parse quote cacheDir emptyDisk (rq_env rqLong)
                   (rq_path rqLong) (rq_base rqLong) (rq_msg rqLong)
                 = (None, diskAfter r, snd r)).
  { change (r = (None, diskAfter r, snd r)).
    unfold errorOf in Herr. unfold diskAfter.
    destruct r as [[e d'] tr]. simpl in *. by rewrite Herr. }
  assert (Hlen : Z.of_nat (@length (commit Time * list byte) []) <= int_max)
    by (vm_compute; discriminate).
  assert (Hidx : getIndex parse cacheDir emptyDisk = Started idx0) by run.
  assert (Hlong : too_long (serialize format
            (newCommit quote idx0 (rq_env rqLong) (rq_path rqLong) (rq_base rqLong)
               (rq_msg rqLong) (bytes "hello"))) = true) by run.
  assert (H1 : has_char lf (rq_path rqLong) = false) by run.
  assert (H2 : has_char lf (format (now (rq_env rqLong))) = false) by run.
  assert (H3 : has_char lf (quote (rq_msg rqLong)) = false) by run.
  destruct (X19_long_line_ends_later_processes format parse quote cacheDir
              emptyDisk [] rqLong idx0 (bytes "hello") (diskAfter r) (snd r)
              (committed_fresh format parse quote cacheDir ∅)
              Hlen Hidx Hlong H1 H2 H3 eq_refl Hrun) as (_ & Hex & Hcat).
  split; [exact Herr|]. split; [exact Hex|exact Hcat].
Defined.

Lemma X20_partial_line_ends_later_processes_witness :
  exists d' tr,
    add emptyDisk (envShortWrite "hello") "/f" 0 "init"
      = (Some FailedToCommitIndex, d', tr) /\
    index_file d' = String.append "/f" (String tab "2024-05") /\
    getIndex parse cacheDir d' = Exited MalformedLine.
Proof.
  assert (Hlen : Z.of_nat (@length (commit Time * list byte) []) <= int_max)
    by (vm_compute; discriminate).
  assert (Hidx : getIndex parse cacheDir emptyDisk = Started idx0) by run.
  pose (part := String.substring 0 10
          (logLine format (newCommit quote idx0 (envShortWrite "hello") "/f" 0 "init"
                             (bytes "hello")))).
  assert (Hpart : part = String.append "/f" (String tab "2024-05")) by run.
  assert (H1 : part <> EmptyString) by (rewrite Hpart; discriminate).
  assert (H2 : has_char lf part = false) by run.
  assert (H3 : count_char tab part <> 6%nat) by (rewrite Hpart; vm_compute; discriminate).
  assert (H4 : too_long part = false) by run.
  destruct (X20_partial_line_ends_later_processes format parse quote cacheDir
              emptyDisk [] idx0 (envShortWrite "hello") "/f" 0 "init" (bytes "hello")
              10%nat (committed_fresh format parse quote cacheDir ∅) Hlen Hidx
              eq_refl eq_refl (or_introl eq_refl) H1 H2 H3 H4)
    as (d' & tr & Hrun & _ & Hfile & Hex & _).
  exists d', tr. split; [exact Hrun|]. split; [|exact Hex].
  etransitivity; [exact Hfile|]. exact Hpart.
Defined.

Lemma X21_list_of_a_history_witness :
  exists paths,
    main format parse zero quote cacheDir d3 (menv "x") flagsList =
      (Exit0 (Lines (map (fun p => String.append p
                (String " " (String tab (String " "
                   (String.append (pathSignature p) (String lf EmptyString))))))
              paths)), d3) /\
    (forall p, p ∈ paths <->
       exists c data, (c, data) ∈ h3 /\ path c = p).
Proof.
  assert (Hnr : ~ requiresFile flagsList).
  { unfold requiresFile. simpl. intros [H|[H|H]]; try discriminate H. by apply H. }
  assert (Hkeys : forall m, range_keys (menv "x") m ≡ₚ (map_to_list m).*1).
  { intros m. apply Permutation_refl. }
  destruct (X21_list_of_a_history format parse zero quote cacheDir d3 h3 (menv "x")
              flagsList readme_committed h3_length eq_refl eq_refl Hnr Hkeys)
    as (paths & Hrun & _ & Hmem).
  exists paths. split; [exact Hrun|exact Hmem].
Defined.
